(** * Magellan: package graph distances, version staleness, manifest
      reconciliation

    A shallow embedding of [magellan/package_utils.py] and the properties
    of its distance engine, version classifier, manifest reconciler and
    per-package memo accessors.

    Python values are modelled as follows.
    - [str] is a byte string (the code base targets Python 2): [string].
    - a [dict] is a [gmap]; a missing key on [d[k]] raises [KeyError].
    - a [set] is a [gset]; the order in which Python enumerates it, or
      the keys of a dict, is an unspecified function ([set_order],
      [dict_order]), of which the properties assume only that it
      enumerates exactly the elements.
    - integers are [Z]; exceptions are the constructors of [exn].
    - a function that can raise returns an [outcome]; a method that
      mutates its object returns the updated object with its result. *)

From Stdlib Require Import ZArith Lia Ascii String.
From stdpp Require Import gmap strings list fin_maps.

Local Open Scope Z_scope.

(** ** Python primitives *)

Module Py.

Inductive exn : Type :=
| InvalidEdges
| InvalidNodes
| KeyError (k : string)
| IndexError.

(** Outcome of running a piece of Python: a value, a raised exception,
    or exhaustion of the recursion budget of the model. *)
Inductive outcome (A : Type) : Type :=
| Return (a : A)
| Raise (e : exn)
| OutOfFuel.
Arguments Return {A} a.
Arguments Raise {A} e.
Arguments OutOfFuel {A}.

Definition bind {A B : Type} (f : A → outcome B) (m : outcome A) : outcome B :=
  match m with
  | Return a => f a
  | Raise e => Raise e
  | OutOfFuel => OutOfFuel
  end.

#[global] Instance outcome_ret : MRet outcome := @Return.
#[global] Instance outcome_bind : MBind outcome := @bind.

(** [m] raises, or returns a value satisfying [P]; it does not run out
    of fuel. *)
Definition unless_raised {A : Type} (m : outcome A) (P : A → Prop) : Prop :=
  match m with
  | Return a => P a
  | Raise _ => True
  | OutOfFuel => False
  end.

(** [d[k]] on a dict. *)
Definition getitem {A : Type} (d : gmap string A) (k : string) : outcome A :=
  match d !! k with
  | Some v => Return v
  | None => Raise (KeyError k)
  end.

(** [l[i]] on a list, for a non-negative index. *)
Definition index {A : Type} (l : list A) (i : nat) : outcome A :=
  match l !! i with
  | Some v => Return v
  | None => Raise IndexError
  end.

(** [l[-1]] on a list. *)
Definition index_last {A : Type} (l : list A) : outcome A :=
  match last l with
  | Some v => Return v
  | None => Raise IndexError
  end.

(** [c.lower()] on one byte: only [A]..[Z] change. *)
Definition lower_ascii (c : ascii) : ascii :=
  let n := N_of_ascii c in
  if ((65 <=? n) && (n <=? 90))%N then ascii_of_N (n + 32) else c.

(** [s.lower()]. *)
Fixpoint lower (s : string) : string :=
  match s with
  | EmptyString => EmptyString
  | String c r => String (lower_ascii c) (lower r)
  end.

Definition backslash : ascii := ascii_of_N 92.
Definition squote : ascii := ascii_of_N 39.
Definition dquote : ascii := ascii_of_N 34.

Fixpoint has_char (c : ascii) (s : string) : bool :=
  match s with
  | EmptyString => false
  | String d r => Ascii.eqb c d || has_char c r
  end.

Definition hex_digit (n : N) : ascii :=
  if (n <? 10)%N then ascii_of_N (48 + n) else ascii_of_N (87 + n).

(** One byte of [repr(s)], for the chosen quote character. *)
Definition repr_char (quote c : ascii) : string :=
  let n := N_of_ascii c in
  if Ascii.eqb c quote || Ascii.eqb c backslash then String backslash (String c EmptyString)
  else if (n =? 9)%N then String backslash "t"
  else if (n =? 10)%N then String backslash "n"
  else if (n =? 13)%N then String backslash "r"
  else if ((n <? 32) || (127 <=? n))%N
       then String backslash (String "x" (String (hex_digit (n / 16)) (String (hex_digit (n mod 16)) EmptyString)))
  else String c EmptyString.

Fixpoint repr_body (quote : ascii) (s : string) : string :=
  match s with
  | EmptyString => EmptyString
  | String c r => repr_char quote c +:+ repr_body quote r
  end.

(** [repr(s)] of a byte string: single quotes unless the string holds a
    single quote and no double quote. *)
Definition repr (s : string) : string :=
  let quote := if has_char squote s && negb (has_char dquote s) then dquote else squote in
  String quote (repr_body quote s) +:+ String quote EmptyString.

(** [str(t)] of a pair of strings. *)
Definition str_pair (t : string * string) : string :=
  "(" +:+ repr t.1 +:+ ", " +:+ repr t.2 +:+ ")".

(** [needle in hay] on strings. *)
Fixpoint contains (needle hay : string) : bool :=
  String.prefix needle hay ||
  match hay with
  | EmptyString => false
  | String _ r => contains needle r
  end.

(** [s.split('.')]. *)
Fixpoint split_dot (s : string) : list string :=
  match s with
  | EmptyString => [EmptyString]
  | String c r =>
      if Ascii.eqb c "." then EmptyString :: split_dot r
      else match split_dot r with
           | [] => [String c EmptyString]
           | h :: t => String c h :: t
           end
  end.

(** The characters [re.split(',|\s|\n', ...)] splits at: the comma and
    the white space of [\s] on byte strings (space, tab, line feed,
    vertical tab, form feed, carriage return). *)
Definition is_separator (c : ascii) : bool :=
  let n := N_of_ascii c in
  ((n =? 44) || (n =? 32) || ((9 <=? n) && (n <=? 13)))%N.

(** [re.split(',|\s|\n', s)]: the pieces between the separators, empty
    ones included. *)
Fixpoint re_split (s : string) : list string :=
  match s with
  | EmptyString => [EmptyString]
  | String c r =>
      if is_separator c then EmptyString :: re_split r
      else match re_split r with
           | [] => [String c EmptyString]
           | h :: t => String c h :: t
           end
  end.

(** [s] with every separator replaced by a comma. *)
Fixpoint commas (s : string) : string :=
  match s with
  | EmptyString => EmptyString
  | String c r => String (if is_separator c then "," else c) (commas r)
  end.

(** ["{}".format(v)] for a string or [None]. *)
Definition format (v : option string) : string := default "None" v.

End Py.
Import Py.

(** ** The environment ([venv]) *)

Module Environment.

(** The two attributes of [venv] that [class Package] reads:
    [venv.nodes], a list of [(name, version)], and [venv.edges], a list
    of pairs of nodes. *)
Record t : Type := mk {
  nodes : list (string * string);
  edges : list ((string * string) * (string * string))
}.

End Environment.

(** ** Graph primitives and the distance engine ([class Package]) *)

Module Package.

(** A node is [(name, version)]; an edge is a pair of nodes. *)
Definition node : Type := string * string.
Definition edge : Type := node * node.

(** [str(nx)] of an edge. *)
Definition str_edge (nx : edge) : string :=
  "(" +:+ str_pair nx.1 +:+ ", " +:+ str_pair nx.2 +:+ ")".

(** [x[0][0].lower()] and [x[1][0].lower()]. *)
Definition head_key (x : edge) : string := lower x.1.1.
Definition tail_key (x : edge) : string := lower x.2.1.

(** The shape of the value [calc_node_distances] returns: a list of
    triples or a dict keyed by [(name, version)]. *)
Inductive node_distances : Type :=
| AsList (l : list (string * string * Z))
| AsDict (d : gmap (string * string) Z).

(** The attributes [__init__] sets.  [_node_distances] is the dict with
    the two keys ['list'] and ['dict']; the empty [_ancestor_trace] is the
    empty mapping. *)
Record t : Type := mk {
  name : string;
  key : string;
  version : option string;
  versions : gmap string string;
  _descendants : list edge;
  _ancestors : list edge;
  _node_distances : option node_distances * option node_distances;
  _ancestor_trace : gmap (string * string) Z
}.

(** [Package(name, version)]. *)
Definition init (name : string) (version : option string) : t :=
  {| name := name; key := lower name; version := version; versions := ∅;
     _descendants := []; _ancestors := [];
     _node_distances := (None, None); _ancestor_trace := ∅ |}.

(** [self._ancestors = r] and [self._descendants = r]. *)
Definition set_ancestors (self : t) (r : list edge) : t :=
  {| name := name self; key := key self; version := version self;
     versions := versions self;
     _descendants := _descendants self; _ancestors := r;
     _node_distances := _node_distances self; _ancestor_trace := _ancestor_trace self |}.

Definition set_descendants (self : t) (r : list edge) : t :=
  {| name := name self; key := key self; version := version self;
     versions := versions self;
     _descendants := r; _ancestors := _ancestors self;
     _node_distances := _node_distances self; _ancestor_trace := _ancestor_trace self |}.

(** [self.ancestors(edges)]: the updated object and the returned list. *)
Definition ancestors (self : t) (edges : list edge) : t * list edge :=
  match _ancestors self with
  | [] =>
      let self := set_ancestors self (filter (λ x, key self = tail_key x) edges) in
      (self, _ancestors self)
  | r => (self, r)
  end.

(** [self.descendants(edges)]. *)
Definition descendants (self : t) (edges : list edge) : t * list edge :=
  match _descendants self with
  | [] =>
      let self := set_descendants self (filter (λ x, key self = head_key x) edges) in
      (self, _descendants self)
  | r => (self, r)
  end.

(** [self.get_direct_links_to_package(edges)]. *)
Definition get_direct_links_to_package (self : t) (edges : list edge)
  : t * (list edge * list edge) :=
  let '(self, a) := ancestors self edges in
  let '(self, d) := descendants self edges in
  (self, (a, d)).

(** [Package.get_direct_links_to_any_package(package, edges)]. *)
Definition get_direct_links_to_any_package (package : string) (edges : list edge)
  : outcome (list edge * list edge) :=
  match edges with
  | [] => Raise InvalidEdges
  | _ =>
      Return (filter (λ x, lower package = tail_key x) edges,
              filter (λ x, lower package = head_key x) edges)
  end.

(** *** [Package.calc_node_distances] *)

(** The synthetic environment node. *)
Definition root_node : node := ("root", "0.0.0").

Definition start_distance : Z := -999.

(** The two dicts the nested [rec_fun] closes over and mutates. *)
Record search : Type := Search {
  dist_dict : gmap string Z;
  node_touched : gmap string bool
}.

(** [nx for nx in links if 'root' not in str(nx)]. *)
Definition without_root (links : list edge) : list edge :=
  filter (λ nx, contains "root" (str_edge nx) = false) links.

(** [[k(nx) for nx in links if not node_touched[k(nx)]]]. *)
Fixpoint untouched (k : edge → string) (touched : gmap string bool) (links : list edge)
  : outcome (list string) :=
  match links with
  | [] => Return []
  | nx :: rest =>
      b ← getitem touched (k nx);
      more ← untouched k touched rest;
      Return (if b : bool then more else k nx :: more)
  end.

(** [{x[0].lower(): v for x in nodes}], with ['root'] added on request. *)
Definition fresh_dict {A : Type} (v : A) (nodes : list node) (include_root : bool)
  : gmap string A :=
  let d := foldl (λ d (x : node), <[lower x.1 := v]> d) ∅ nodes in
  if include_root then <["root" := v]> d else d.

Section Engine.

(** Enumeration order of [list(set(...))]. *)
Variable set_order : gset string → list string.

Variable edges : list edge.
Variable include_root : bool.

(** One iteration of [for p in search_set] in [rec_fun]. *)
Definition visit (cur_level : Z) (p : string) (st : search * list string)
  : outcome (search * list string) :=
  let '(s, to_search_next) := st in
  d ← getitem (dist_dict s) p;
  let dd := if Z.abs d >? cur_level then <[p := cur_level]> (dist_dict s)
            else dist_dict s in
  let nt := <[p := true]> (node_touched s) in
  '(anc, dec) ← get_direct_links_to_any_package p edges;
  let anc := if include_root then anc else without_root anc in
  let dec := if include_root then dec else without_root dec in
  dec_search ← untouched tail_key nt dec;
  anc_search ← untouched head_key nt anc;
  Return (Search dd nt, to_search_next ++ (dec_search ++ anc_search)).

(** The whole [for] loop of one level. *)
Fixpoint sweep (cur_level : Z) (search_set : list string) (st : search * list string)
  : outcome (search * list string) :=
  match search_set with
  | [] => Return st
  | p :: rest => st' ← visit cur_level p st; sweep cur_level rest st'
  end.

(** [rec_fun(search_set, cur_level)]; [fuel] bounds the recursion
    depth. *)
Fixpoint rec_fun (fuel : nat) (search_set : list string) (cur_level : Z) (s : search)
  : outcome search :=
  match fuel with
  | O => OutOfFuel
  | S fuel' =>
      '(s', to_search_next) ← sweep cur_level search_set (s, []);
      match set_order (list_to_set to_search_next) with
      | [] => Return s'
      | next => rec_fun fuel' next (cur_level + 1) s'
      end
  end.

End Engine.

(** The result comprehension over [nodes], for either shape, before
    the root entry is added. *)
Fixpoint triples (dd : gmap string Z) (keep_untouched_nodes : bool) (nodes : list node)
  : outcome (list (string * string * Z)) :=
  match nodes with
  | [] => Return []
  | x :: rest =>
      d ← getitem dd (lower x.1);
      more ← triples dd keep_untouched_nodes rest;
      Return (if keep_untouched_nodes || (d >? start_distance)
              then (x.1, x.2, d) :: more else more)
  end.

(** [{(a, b): d for ...}]: later entries overwrite earlier ones. *)
Definition dict_of (l : list (string * string * Z)) : gmap (string * string) Z :=
  foldl (λ m (e : string * string * Z), <[e.1 := e.2]> m) ∅ l.

(** [Package.calc_node_distances(package_in, nodes, edges, include_root,
    keep_untouched_nodes, list_or_dict)].  [nodes] is a list, hence
    iterable: [InvalidNodes] is never raised.  A run of [rec_fun] touches
    a fresh key at every level but its last, so a depth of one more than
    the number of keys is never exhausted. *)
Definition calc_node_distances (set_order : gset string → list string)
    (package_in : string) (nodes : list node) (edges : list edge) (include_root : bool)
    (keep_untouched_nodes : bool) (list_or_dict : string) : outcome node_distances :=
  let package := lower package_in in
  let dd := fresh_dict start_distance nodes include_root in
  if decide (dd !! package = None) then
    Return (if decide (list_or_dict = "list") then AsList [] else AsDict ∅)
  else
    let nt := fresh_dict false nodes include_root in
    s ← rec_fun set_order edges include_root (S (size dd)) [lower package] 0 (Search dd nt);
    l ← triples (dist_dict s) keep_untouched_nodes nodes;
    if decide (list_or_dict = "list") then
      if include_root then
        r ← getitem (dist_dict s) "root";
        Return (AsList (l ++ [("root", "0.0.0", r)]))
      else Return (AsList l)
    else
      if include_root then
        r ← getitem (dist_dict s) "root";
        Return (AsDict (<[("root", "0.0.0") := r]> (dict_of l)))
      else Return (AsDict (dict_of l)).

(** The distance a result assigns to node [x], if it lists [x]. *)
Fixpoint assoc_triple (x : node) (l : list (string * string * Z)) : option Z :=
  match l with
  | [] => None
  | e :: rest => if decide (e.1 = x) then Some e.2 else assoc_triple x rest
  end.

Definition distance_of (r : node_distances) (x : node) : option Z :=
  match r with
  | AsList l => assoc_triple x l
  | AsDict d => d !! x
  end.

(** The distance a result assigns to [x], a node the result leaves out
    being unreached, which the code writes [-999]. *)
Definition assigned (r : node_distances) (x : node) : Z :=
  default start_distance (distance_of r x).

(** *** The graph the engine walks *)

(** The edges in use: all of them, or those that pass the ['root']
    filter. *)
Definition used_edges (edges : list edge) (include_root : bool) : list edge :=
  if include_root then edges else without_root edges.

(** One hop, along an edge in use, in either direction. *)
Definition adjacent (edges : list edge) (include_root : bool) (a b : string) : Prop :=
  ∃ nx, nx ∈ used_edges edges include_root ∧
        ((head_key nx = a ∧ tail_key nx = b) ∨ (tail_key nx = a ∧ head_key nx = b)).

(** [hops o n k]: a walk of [n] hops leads from [o] to [k]. *)
Inductive hops (edges : list edge) (include_root : bool) (o : string)
  : nat → string → Prop :=
| hops_here : hops edges include_root o 0 o
| hops_step n a b :
    hops edges include_root o n a → adjacent edges include_root a b →
    hops edges include_root o (S n) b.

Definition connected (edges : list edge) (include_root : bool) (o k : string) : Prop :=
  ∃ n, hops edges include_root o n k.

(** [m] is the minimum number of hops from [o] to [k]. *)
Definition min_hops (edges : list edge) (include_root : bool) (o : string)
    (m : nat) (k : string) : Prop :=
  hops edges include_root o m k ∧
  ∀ m', hops edges include_root o m' k → (m ≤ m')%nat.

(** The keys of [dist_dict]. *)
Definition known (nodes : list node) (include_root : bool) (k : string) : Prop :=
  is_Some (fresh_dict start_distance nodes include_root !! k).

(** Every edge in use joins two keys of [dist_dict]. *)
Definition drawn_from_nodes (nodes : list node) (edges : list edge)
    (include_root : bool) : Prop :=
  ∀ nx, nx ∈ used_edges edges include_root →
        known nodes include_root (head_key nx) ∧ known nodes include_root (tail_key nx).

(** An edge touches the environment's root node: one of its ends has the
    key ["root"]. *)
Definition touches_root (nx : edge) : Prop :=
  head_key nx = "root" ∨ tail_key nx = "root".

(** The edges the walk is meant to follow: all of them, or, with
    [include_root] unset, those that do not touch the root node. *)
Definition followed_edges (edges : list edge) (include_root : bool) : list edge :=
  if include_root then edges else filter (λ nx, ¬ touches_root nx) edges.

(** The ['root'] filter does what it is meant to do on [edges]: the
    printed form of an edge contains "root" exactly when the edge touches
    the root node. *)
Definition root_filter_exact (edges : list edge) : Prop :=
  ∀ nx, nx ∈ edges → (contains "root" (str_edge nx) = true ↔ touches_root nx).

(** One hop along one of [links], in either direction. *)
Definition linked (links : list edge) (a b : string) : Prop :=
  ∃ nx, nx ∈ links ∧
        ((head_key nx = a ∧ tail_key nx = b) ∨ (tail_key nx = a ∧ head_key nx = b)).

(** [path links o n k]: [n] hops along [links] lead from [o] to [k]. *)
Inductive path (links : list edge) (o : string) : nat → string → Prop :=
| path_here : path links o 0 o
| path_step n a b : path links o n a → linked links a b → path links o (S n) b.

Definition joined (links : list edge) (o k : string) : Prop :=
  ∃ n, path links o n k.

(** [m] is the minimum number of hops along [links] from [o] to [k]. *)
Definition shortest (links : list edge) (o : string) (m : nat) (k : string) : Prop :=
  path links o m k ∧ ∀ m', path links o m' k → (m ≤ m')%nat.

(** What [dist_dict] holds for a key whose minimum hop count is [m]:
    a level of 999 or more never replaces the initial [-999]. *)
Definition recorded (m : nat) : Z :=
  if (m <? 999)%nat then Z.of_nat m else start_distance.

(** [k] is fewer than [L] hops away from [o]. *)
Definition within (edges : list edge) (include_root : bool) (o : string)
    (L : nat) (k : string) : Prop :=
  ∃ m, (m < L)%nat ∧ hops edges include_root o m k.

(** The two dicts while level [L] is being swept, [P] being the part of
    the search set already visited: a key is touched when it is fewer
    than [L] hops away or was just visited; an untouched key still has
    the initial distance, a touched one has its minimum hop count
    recorded. *)
Definition flagged (nodes : list node) (edges : list edge) (include_root : bool)
    (o : string) (L : nat) (P : list string) (s : search) : Prop :=
  ∀ k, known nodes include_root k →
    ∃ b d, node_touched s !! k = Some b ∧ dist_dict s !! k = Some d ∧
           (b = true ↔ within edges include_root o L k ∨ k ∈ P) ∧
           (b = false → d = start_distance) ∧
           (b = true → ∃ m, min_hops edges include_root o m k ∧ d = recorded m).

(** [to_search_next] while level [L] is being swept. *)
Definition gathered (nodes : list node) (edges : list edge) (include_root : bool)
    (o : string) (L : nat) (P : list string) (acc : list string) : Prop :=
  (∀ q, q ∈ acc → known nodes include_root q ∧ ¬ within edges include_root o L q ∧
                  ∃ p, p ∈ P ∧ adjacent edges include_root p q) ∧
  (∀ p q, p ∈ P → adjacent edges include_root p q →
          within edges include_root o (S L) q ∨ q ∈ acc).

(** The state on entry to [rec_fun(search_set, L)]. *)
Definition level_inv (nodes : list node) (edges : list edge) (include_root : bool)
    (o : string) (L : nat) (search_set : list string) (s : search) : Prop :=
  flagged nodes edges include_root o L [] s ∧
  (∀ p, p ∈ search_set → known nodes include_root p ∧ within edges include_root o (S L) p) ∧
  (∀ k, within edges include_root o (S L) k →
        within edges include_root o L k ∨ k ∈ search_set).

(** The state when the walk is over. *)
Definition settled (nodes : list node) (edges : list edge) (include_root : bool)
    (o : string) (s : search) : Prop :=
  ∀ k, known nodes include_root k →
    ∃ b d, node_touched s !! k = Some b ∧ dist_dict s !! k = Some d ∧
           (b = true ↔ connected edges include_root o k) ∧
           (b = false → d = start_distance) ∧
           (b = true → ∃ m, min_hops edges include_root o m k ∧ d = recorded m).

(** On entry to any level, whatever the edges: the two dicts have the
    same keys, and a key of the search set that is already touched was
    visited one level up, so that each of its neighbours is touched or in
    the search set too. *)
Definition entry_inv (edges : list edge) (include_root : bool)
    (search_set : list string) (s : search) : Prop :=
  (∀ k, is_Some (dist_dict s !! k) → is_Some (node_touched s !! k)) ∧
  ∀ p, p ∈ search_set → node_touched s !! p = Some true →
       ∀ q, adjacent edges include_root (lower p) q →
            node_touched s !! q = Some true ∨ q ∈ search_set.

(** What one sweep over [Q] does to the flags and to [to_search_next],
    whatever the edges. *)
Definition swept (edges : list edge) (include_root : bool) (Q : list string)
    (s : search) (acc : list string) (r : search * list string) : Prop :=
  (∀ k, is_Some (dist_dict r.1 !! k) → is_Some (node_touched r.1 !! k)) ∧
  (∀ k, node_touched r.1 !! k = Some false → node_touched s !! k = Some false) ∧
  (∀ k, node_touched s !! k = Some true → node_touched r.1 !! k = Some true) ∧
  (∀ k, node_touched r.1 !! k = Some true → node_touched s !! k = Some true ∨ k ∈ Q) ∧
  (∀ p, p ∈ Q → is_Some (node_touched s !! p) ∧ node_touched r.1 !! p = Some true) ∧
  (∀ p q, p ∈ Q → adjacent edges include_root (lower p) q →
          node_touched r.1 !! q = Some true ∨ q ∈ r.2) ∧
  (∀ q, q ∈ r.2 → q ∈ acc ∨
        (node_touched s !! q = Some false ∧
         ∃ p, p ∈ Q ∧ adjacent edges include_root (lower p) q)) ∧
  (∀ q, q ∈ acc → q ∈ r.2).

(** The number of keys not yet touched. *)
Definition untouched_count (touched : gmap string bool) : nat :=
  size (filter (λ kv : string * bool, kv.2 = false) touched).

(** *** [Package.calc_self_node_distances] *)

(** [self._node_distances[list_or_dict]] and the assignment to it: the
    dict has the two keys ['list'] and ['dict']. *)
Definition node_distances_get (self : t) (list_or_dict : string)
  : outcome (option node_distances) :=
  if decide (list_or_dict = "list") then Return (_node_distances self).1
  else if decide (list_or_dict = "dict") then Return (_node_distances self).2
  else Raise (KeyError list_or_dict).

Definition node_distances_set (self : t) (list_or_dict : string) (r : node_distances) : t :=
  {| name := name self; key := key self; version := version self;
     versions := versions self;
     _descendants := _descendants self; _ancestors := _ancestors self;
     _node_distances :=
       if decide (list_or_dict = "list") then (Some r, (_node_distances self).2)
       else ((_node_distances self).1, Some r);
     _ancestor_trace := _ancestor_trace self |}.

(** Truth value of a cached result: [None], [[]] and [{}] are false. *)
Definition truthy (c : option node_distances) : bool :=
  match c with
  | None => false
  | Some (AsList l) => negb (bool_decide (l = []))
  | Some (AsDict d) => negb (bool_decide (d = ∅))
  end.

(** [self.calc_self_node_distances(venv, include_root,
    keep_untouched_nodes, list_or_dict, do_full_calc)]: the updated
    object and the value returned. *)
Definition calc_self_node_distances (set_order : gset string → list string)
    (self : t) (venv : Environment.t) (include_root keep_untouched_nodes : bool)
    (list_or_dict : string) (do_full_calc : bool) : outcome (t * option node_distances) :=
  cached ← node_distances_get self list_or_dict;
  if negb (truthy cached) || do_full_calc then
    r ← calc_node_distances set_order (name self) (Environment.nodes venv)
          (Environment.edges venv) include_root keep_untouched_nodes list_or_dict;
    let self := node_distances_set self list_or_dict r in
    r' ← node_distances_get self list_or_dict;
    Return (self, r')
  else Return (self, cached).

(** *** [Package.ancestor_trace] *)

(** One iteration of [for p in search_set] in the [rec_fun] of
    [ancestor_trace]: only the ancestor links are followed. *)
Definition trace_visit (edges : list edge) (include_root : bool)
    (cur_level : Z) (p : string) (st : search * list string)
  : outcome (search * list string) :=
  let '(s, to_search_next) := st in
  d ← getitem (dist_dict s) p;
  let dd := if Z.abs d >? cur_level then <[p := cur_level]> (dist_dict s)
            else dist_dict s in
  let nt := <[p := true]> (node_touched s) in
  '(anc, _) ← get_direct_links_to_any_package p edges;
  let anc := if include_root then anc else without_root anc in
  anc_search ← untouched head_key nt anc;
  Return (Search dd nt, to_search_next ++ anc_search).

Fixpoint trace_sweep (edges : list edge) (include_root : bool)
    (cur_level : Z) (search_set : list string) (st : search * list string)
  : outcome (search * list string) :=
  match search_set with
  | [] => Return st
  | p :: rest =>
      st' ← trace_visit edges include_root cur_level p st;
      trace_sweep edges include_root cur_level rest st'
  end.

(** The [rec_fun] of [ancestor_trace]; [fuel] bounds the recursion
    depth. *)
Fixpoint trace_rec_fun (set_order : gset string → list string)
    (edges : list edge) (include_root : bool)
    (fuel : nat) (search_set : list string) (cur_level : Z) (s : search)
  : outcome search :=
  match fuel with
  | O => OutOfFuel
  | S fuel' =>
      '(s', to_search_next) ← trace_sweep edges include_root cur_level search_set (s, []);
      match set_order (list_to_set to_search_next) with
      | [] => Return s'
      | next => trace_rec_fun set_order edges include_root fuel' next (cur_level + 1) s'
      end
  end.

Definition set_ancestor_trace (self : t) (r : gmap (string * string) Z) : t :=
  {| name := name self; key := key self; version := version self;
     versions := versions self;
     _descendants := _descendants self; _ancestors := _ancestors self;
     _node_distances := _node_distances self; _ancestor_trace := r |}.

(** [self.ancestor_trace(venv, keep_untouched_nodes, do_full_calc)]: the
    updated object and the dict returned.  [include_root] is fixed to
    [True] by the method.  As for [calc_node_distances], a depth of one
    more than the number of keys is never exhausted. *)
Definition ancestor_trace (set_order : gset string → list string)
    (self : t) (venv : Environment.t) (keep_untouched_nodes do_full_calc : bool)
  : outcome (t * gmap (string * string) Z) :=
  let include_root := true in
  if negb (bool_decide (_ancestor_trace self = ∅)) && negb do_full_calc then
    Return (self, _ancestor_trace self)
  else
    let dd := fresh_dict start_distance (Environment.nodes venv) include_root in
    let nt := fresh_dict false (Environment.nodes venv) include_root in
    s ← trace_rec_fun set_order (Environment.edges venv) include_root
          (S (size dd)) [key self] 0 (Search dd nt);
    l ← triples (dist_dict s) keep_untouched_nodes (Environment.nodes venv);
    r ← getitem (dist_dict s) "root";
    let anc_trace := <[("root", "0.0.0") := r]> (dict_of l) in
    Return (set_ancestor_trace self anc_trace, anc_trace).

(** *** [Package.resolve_package_list] *)

Section Resolve.

(** Enumeration order of [list(set(...))]. *)
Variable set_order : gset string → list string.
(** [open(p_file, 'rb').read()]; [None] when it raises [IOError]. *)
Variable read_file : string → option string.

(** [Package.resolve_package_list(venv, kwargs)], with
    [kwargs.get('packages', [])] and [kwargs.get('package_file', [])]
    ([None] when the key is absent). *)
Definition resolve_package_list (venv : Environment.t)
    (packages : list string) (package_file : option string) : list string :=
  let p_list := packages in
  let f_pkgs :=
    match package_file with
    | None => []
    | Some p_file =>
        if decide (p_file = "") then []
        else match read_file p_file with
             | Some contents => filter (λ x, x ≠ "") (re_split contents)
             | None => []
             end
    end in
  let pkg_list := set_order (list_to_set (p_list ++ f_pkgs)) in
  filter (λ p, filter (λ x : node, lower x.1 = lower p) (Environment.nodes venv) ≠ [])
         pkg_list.

End Resolve.

(** *** The lineage the tracer walks *)

(** One ancestor hop: from the second node of an edge to its first. *)
Definition upstream (edges : list edge) (a b : string) : Prop :=
  ∃ nx, nx ∈ edges ∧ tail_key nx = a ∧ head_key nx = b.

(** [climbs o n k]: [n] ancestor hops lead from [o] to [k]. *)
Inductive climbs (edges : list edge) (o : string) : nat → string → Prop :=
| climbs_here : climbs edges o 0 o
| climbs_step n a b :
    climbs edges o n a → upstream edges a b → climbs edges o (S n) b.

Definition min_climb (edges : list edge) (o : string) (m : nat) (k : string) : Prop :=
  climbs edges o m k ∧ ∀ m', climbs edges o m' k → (m ≤ m')%nat.

Definition climb_within (edges : list edge) (o : string) (L : nat) (k : string) : Prop :=
  ∃ m, (m < L)%nat ∧ climbs edges o m k.

(** The counterparts, for the tracer, of [flagged], [gathered],
    [level_inv] and [settled]. *)
Definition trace_flagged (nodes : list node) (edges : list edge)
    (o : string) (L : nat) (P : list string) (s : search) : Prop :=
  ∀ k, known nodes true k →
    ∃ b d, node_touched s !! k = Some b ∧ dist_dict s !! k = Some d ∧
           (b = true ↔ climb_within edges o L k ∨ k ∈ P) ∧
           (b = false → d = start_distance) ∧
           (b = true → ∃ m, min_climb edges o m k ∧ d = recorded m).

Definition trace_gathered (nodes : list node) (edges : list edge)
    (o : string) (L : nat) (P : list string) (acc : list string) : Prop :=
  (∀ q, q ∈ acc → known nodes true q ∧ ¬ climb_within edges o L q ∧
                  ∃ p, p ∈ P ∧ upstream edges p q) ∧
  (∀ p q, p ∈ P → upstream edges p q → climb_within edges o (S L) q ∨ q ∈ acc).

Definition trace_level_inv (nodes : list node) (edges : list edge)
    (o : string) (L : nat) (search_set : list string) (s : search) : Prop :=
  trace_flagged nodes edges o L [] s ∧
  (∀ p, p ∈ search_set → known nodes true p ∧ climb_within edges o (S L) p) ∧
  (∀ k, climb_within edges o (S L) k → climb_within edges o L k ∨ k ∈ search_set).

Definition trace_settled (nodes : list node) (edges : list edge)
    (o : string) (s : search) : Prop :=
  ∀ k, known nodes true k →
    ∃ b d, node_touched s !! k = Some b ∧ dist_dict s !! k = Some d ∧
           (b = true ↔ ∃ n, climbs edges o n k) ∧
           (b = false → d = start_distance) ∧
           (b = true → ∃ m, min_climb edges o m k ∧ d = recorded m).

(** The counterparts, for the tracer, of [entry_inv] and [swept]. *)
Definition trace_entry_inv (edges : list edge)
    (search_set : list string) (s : search) : Prop :=
  (∀ k, is_Some (dist_dict s !! k) → is_Some (node_touched s !! k)) ∧
  ∀ p, p ∈ search_set → node_touched s !! p = Some true →
       ∀ q, upstream edges (lower p) q →
            node_touched s !! q = Some true ∨ q ∈ search_set.

Definition trace_swept (edges : list edge) (Q : list string)
    (s : search) (acc : list string) (r : search * list string) : Prop :=
  (∀ k, is_Some (dist_dict r.1 !! k) → is_Some (node_touched r.1 !! k)) ∧
  (∀ k, node_touched r.1 !! k = Some false → node_touched s !! k = Some false) ∧
  (∀ k, node_touched s !! k = Some true → node_touched r.1 !! k = Some true) ∧
  (∀ k, node_touched r.1 !! k = Some true → node_touched s !! k = Some true ∨ k ∈ Q) ∧
  (∀ p, p ∈ Q → is_Some (node_touched s !! p) ∧ node_touched r.1 !! p = Some true) ∧
  (∀ p q, p ∈ Q → upstream edges (lower p) q →
          node_touched r.1 !! q = Some true ∨ q ∈ r.2) ∧
  (∀ q, q ∈ r.2 → q ∈ acc ∨
        (node_touched s !! q = Some false ∧ ∃ p, p ∈ Q ∧ upstream edges (lower p) q)) ∧
  (∀ q, q ∈ acc → q ∈ r.2).

End Package.

(** ** Version staleness ([Package.check_latest_major_minor_versions]) *)

Module Versions.

(** [{"outdated": ..., "latest": ...}]. *)
Record status : Type := Status {
  outdated : option bool;
  latest : option string
}.

(** The [return_info] dict. *)
Record verdict : Type := Verdict {
  major_version : status;
  minor_version : status;
  code : Z
}.

(** [[x for x in versions if x.split('.')[0] == major_v
      and x.split('.')[1] == minor_v]]; [and] short-circuits. *)
Fixpoint same_major_minor (major_v minor_v : string) (versions : list string)
  : outcome (list string) :=
  match versions with
  | [] => Return []
  | x :: rest =>
      a ← index (split_dot x) 0;
      keep ← (if decide (a = major_v)
              then b ← index (split_dot x) 1; Return (bool_decide (b = minor_v))
              else Return false);
      more ← same_major_minor major_v minor_v rest;
      Return (if keep : bool then x :: more else more)
  end.

Section Classifier.

(** [yarg.get(package).release_ids]; [None] when the lookup raises. *)
Variable release_ids : string → option (list string).
(** [rels.sort(key=LooseVersion)]. *)
Variable loose_sort : list string → list string.
(** [parse_version(a) > parse_version(b)] and
    [parse_version(a) < parse_version(b)]. *)
Variable version_gt : string → string → bool.
Variable version_lt : string → string → bool.

(** [Package.get_package_versions_from_pypi(package)]. *)
Definition get_package_versions_from_pypi (package : string) : option (list string) :=
  match release_ids package with
  | None => None
  | Some rels =>
      match loose_sort rels with
      | [] => None
      | rels => Some rels
      end
  end.

(** [Package.check_latest_major_minor_versions(package, version)]. *)
Definition check_latest_major_minor_versions (package : string) (version : option string)
  : outcome verdict :=
  let return_info := Verdict (Status None None) (Status None None) (-1) in
  match get_package_versions_from_pypi package with
  | None => Return return_info
  | Some versions =>
      latest_major_version ← index_last versions;
      match version with
      | None =>
          Return (Verdict (Status (Some true) (Some latest_major_version))
                          (Status (Some true) (Some latest_major_version))
                          (code return_info))
      | Some version =>
          if version_gt version latest_major_version then
            Return (Verdict (Status (Some false) (Some version))
                            (Status (Some false) (Some version)) 999)
          else if version_lt version latest_major_version then
            major_v ← index (split_dot version) 0;
            minor_v ← index (split_dot version) 1;
            minor_versions ← same_major_minor major_v minor_v versions;
            match last minor_versions with
            | None =>
                Return (Verdict (Status (Some true) (Some latest_major_version))
                                (Status None None) 1)
            | Some latest_minor_version =>
                Return (Verdict (Status (Some true) (Some latest_major_version))
                                (Status (Some (version_lt version latest_minor_version))
                                        (Some latest_minor_version)) 1)
            end
          else
            Return (Verdict (Status (Some false) (Some latest_major_version))
                            (Status (Some false) (Some latest_major_version)) 0)
      end
  end.

(** [self.check_versions()]. *)
Definition check_versions (self : Package.t) : outcome verdict :=
  check_latest_major_minor_versions (Package.name self) (Package.version self).

End Classifier.

(** [Package.detail_version_info(version_info, package, version)]: the
    texts handed to [print_col], in order. *)
Definition detail_version_info (version_info : verdict) (package : string)
    (version : option string) : list string :=
  ["Analysing " +:+ package +:+ " " +:+ format version] ++
  let status := code version_info in
  if decide (status = -1) then
    ["There was an error, see [super] verbose output for details"]
  else if decide (status = 0) then
    ["Up to date."]
  else if decide (status = 999) then
    [format version +:+ " is BEYOND latest PyPI version " +:+
     format (latest (minor_version version_info))]
  else
    let maj_out := outdated (major_version version_info) in
    let min_out := outdated (minor_version version_info) in
    (if decide (maj_out = Some true)
     then ["Major version outdated " +:+ format (latest (major_version version_info)) +:+
           " > " +:+ format version]
     else []) ++
    (if decide (min_out = Some true)
     then ["Minor version outdated " +:+ format (latest (minor_version version_info)) +:+
           " > " +:+ format version]
     else []).

Section Reporting.

Variable release_ids : string → option (list string).
Variable loose_sort : list string → list string.
Variable version_gt : string → string → bool.
Variable version_lt : string → string → bool.

(** The loop of [Package.check_outdated_packages]: what is printed, and
    how the loop ends. *)
Fixpoint report_packages (packages : list Package.t) : list string * outcome unit :=
  match packages with
  | [] => ([], Return ())
  | p :: rest =>
      match check_versions release_ids loose_sort version_gt version_lt p with
      | Return version_info =>
          let out := detail_version_info version_info (Package.name p) (Package.version p) in
          let '(more, r) := report_packages rest in
          (out ++ more, r)
      | Raise e => ([], Raise e)
      | OutOfFuel => ([], OutOfFuel)
      end
  end.

(** [Package.check_outdated_packages(package_list)], [dict_order] being
    the order in which [package_list.items()] comes. *)
Definition check_outdated_packages (dict_order : gset string → list string)
    (package_list : gmap string Package.t) : list string * outcome unit :=
  report_packages (omap (λ k, package_list !! k) (dict_order (dom package_list))).

End Reporting.

(** *** A lenient comparator to run the classifier on examples *)

Fixpoint digits_value (acc : N) (s : string) : option N :=
  match s with
  | EmptyString => Some acc
  | String c r =>
      let n := N_of_ascii c in
      if ((48 <=? n) && (n <=? 57))%N then digits_value (10 * acc + (n - 48)) r else None
  end.

Definition token_value (s : string) : option N :=
  match s with
  | EmptyString => None
  | _ => digits_value 0 s
  end.

Definition token_lt (a b : string) : bool :=
  match token_value a, token_value b with
  | Some x, Some y => (x <? y)%N
  | _, _ => String.ltb a b
  end.

Fixpoint tokens_lt (l1 l2 : list string) : bool :=
  match l1, l2 with
  | [], [] => false
  | [], _ :: _ => true
  | _ :: _, [] => false
  | a :: r1, b :: r2 =>
      if token_lt a b then true
      else if token_lt b a then false
      else tokens_lt r1 r2
  end.

(** Modelled from the spec: the lenient version ordering supplied by
    the packaging libraries the module imports ([parse_version],
    [LooseVersion]), which are not part of the repository: a tokenized
    comparison of the dot-separated tokens, numeric where both tokens
    are numbers and lexicographic otherwise. *)
Definition lenient_lt (a b : string) : bool := tokens_lt (split_dot a) (split_dot b).
Definition lenient_gt (a b : string) : bool := lenient_lt b a.

Fixpoint lenient_insert (x : string) (l : list string) : list string :=
  match l with
  | [] => [x]
  | y :: r => if lenient_lt y x then y :: lenient_insert x r else x :: l
  end.

Definition lenient_sort (l : list string) : list string :=
  foldr lenient_insert [] l.

End Versions.

(** ** Manifest reconciliation ([class Requirements]) *)

Module Requirements.

(** A parsed requirement: [x.key], [x.project_name], [x.specs]. *)
Record requirement : Type := Requirement {
  key : string;
  project_name : string;
  specs : list (string * string)
}.

Definition req_no_version : string := "-1".

(** The four lists returned. *)
Record comparison : Type := Comparison {
  same : list (string * option string);
  verdiff : list (string * string * option string);
  req_only : list string;
  env_only : list string
}.

(** [[x[1] for x in specs if x[0] == '==']]. *)
Definition pinned (specs : list (string * string)) : list string :=
  (filter (λ x : string * string, x.1 = "==") specs).*2.

(** The manifest version the loop body resolves from [specs]. *)
Definition resolve (specs : list (string * string)) : outcome string :=
  match specs with
  | [] => Return req_no_version
  | _ =>
      req_ver ← index (pinned specs) 0;
      Return (if decide (req_ver = "") then req_no_version else req_ver)
  end.

(** The version a manifest entry pins: that of its first [==]
    constraint, or the sentinel when it has none or an empty one. *)
Definition first_pin (specs : list (string * string)) : string :=
  match pinned specs with
  | [] => req_no_version
  | v :: _ => if decide (v = "") then req_no_version else v
  end.

Section Reconciler.

(** Enumeration order of the keys of a dict. *)
Variable dict_order : gset string → list string.

(** [{x.key: {'project_name': ..., 'specs': ...} for x in parsed_req}]. *)
Definition all_reqs_of (parsed_req : list requirement)
  : gmap string (string * list (string * string)) :=
  foldl (λ d x, <[key x := (project_name x, specs x)]> d) ∅ parsed_req.

(** The body of [for package in ver_check]. *)
Definition check_one (all_reqs : gmap string (string * list (string * string)))
    (all_packages : gmap string Package.t) (package : string)
    (acc : list (string * option string) * list (string * string * option string))
  : outcome (list (string * option string) * list (string * string * option string)) :=
  p ← getitem all_packages package;
  let env_ver := Package.version p in
  info ← getitem all_reqs package;
  req_ver ← resolve info.2;
  Return (if decide (Some req_ver = env_ver)
          then (acc.1 ++ [(package, env_ver)], acc.2)
          else (acc.1, acc.2 ++ [(package, req_ver, env_ver)])).

Fixpoint check_all (all_reqs : gmap string (string * list (string * string)))
    (all_packages : gmap string Package.t) (ver_check : list string)
    (acc : list (string * option string) * list (string * string * option string))
  : outcome (list (string * option string) * list (string * string * option string)) :=
  match ver_check with
  | [] => Return acc
  | package :: rest =>
      acc' ← check_one all_reqs all_packages package acc;
      check_all all_reqs all_packages rest acc'
  end.

(** [Requirements.compare_req_file_to_env(req_file, venv)], on the
    parsed requirements ([None] when [parse_req_file] returns [None];
    otherwise a generator, which is never falsy) and
    [venv.all_packages]. *)
Definition compare_req_file_to_env (parsed_req : option (list requirement))
    (all_packages : gmap string Package.t) : outcome (option comparison) :=
  match parsed_req with
  | None => Return None
  | Some parsed_req =>
      let all_reqs := all_reqs_of parsed_req in
      let req_only := filter (λ x, all_packages !! x = None) (dict_order (dom all_reqs)) in
      let env_only := filter (λ x, all_reqs !! x = None) (dict_order (dom all_packages)) in
      let ver_check := filter (λ x, x ∉ req_only) (dict_order (dom all_reqs)) in
      r ← check_all all_reqs all_packages ver_check ([], []);
      Return (Some (Comparison r.1 r.2 req_only env_only))
  end.

End Reconciler.

(** The entry pinned to the version of its last constraint; none for an
    entry without constraints. *)
Definition as_pin (p : requirement) : option requirement :=
  (λ spec : string * string, Requirement (key p) (project_name p) [("==", spec.2)])
    <$> last (specs p).

Section Outdated.

Variable release_ids : string → option (list string).
Variable loose_sort : list string → list string.
Variable version_gt : string → string → bool.
Variable version_lt : string → string → bool.

(** The loop of [check_outdated_requirements_file]: what is printed, and
    how the loop ends.  [p.specs[-1][-1]] raises [IndexError] on an entry
    without constraints, which the loop catches to go on with the next
    entry. *)
Fixpoint report_requirements (parsed_req : list requirement) : list string * outcome unit :=
  match parsed_req with
  | [] => ([], Return ())
  | p :: rest =>
      match last (specs p) with
      | None => report_requirements rest
      | Some spec =>
          let version := spec.2 in
          match Versions.check_latest_major_minor_versions
                  release_ids loose_sort version_gt version_lt (key p) (Some version) with
          | Return ver_info =>
              let out := Versions.detail_version_info ver_info (key p) (Some version) in
              let '(more, r) := report_requirements rest in
              (out ++ more, r)
          | Raise e => ([], Raise e)
          | OutOfFuel => ([], OutOfFuel)
          end
      end
  end.

(** [Requirements.check_outdated_requirements_file(req_file)], on the
    parsed requirements ([None] when [parse_req_file] returns [None]). *)
Definition check_outdated_requirements_file (parsed_req : option (list requirement))
  : list string * outcome unit :=
  match parsed_req with
  | None => ([], Return ())
  | Some parsed_req => report_requirements parsed_req
  end.

End Outdated.

End Requirements.

(** ** Example inputs *)

Module Examples.

(** An index knowing one package, ["pkg"], with three releases. *)
Definition pkg_index (package : string) : option (list string) :=
  if decide (package = "pkg") then Some ["2.0.0"; "1.0.0"; "1.5.0"] else None.

Definition classify : string → option string → outcome Versions.verdict :=
  Versions.check_latest_major_minor_versions
    pkg_index Versions.lenient_sort Versions.lenient_gt Versions.lenient_lt.

(** A manifest entry pinned twice, and an environment holding the
    second pin. *)
Definition twice_pinned : list Requirements.requirement :=
  [Requirements.Requirement "a" "A" [("==", "1.0"); ("==", "2.0")]].

Definition env_a2 : gmap string Package.t :=
  {[ "a" := Package.init "a" (Some "2.0") ]}.

Definition two_nodes : list Package.node := [("rootpy", "4.0"); ("numpy", "1.9")].
Definition one_edge : list Package.edge := [(("rootpy", "4.0"), ("numpy", "1.9"))].

Definition root_edge : list Package.edge := [(("root", "0.0.0"), ("a", "1"))].

(** A chain a - B - c, and a node d on its own. *)
Definition chain_nodes : list Package.node :=
  [("a", "1"); ("B", "2"); ("c", "3"); ("d", "4")].
Definition chain_edges : list Package.edge :=
  [(("a", "1"), ("B", "2")); (("c", "3"), ("B", "2"))].

(** The same chain, hung on the root node. *)
Definition rooted_edges : list Package.edge :=
  (("root", "0.0.0"), ("a", "1")) :: chain_edges.

End Examples.

(** * Properties *)

Import Package.

(** ** The memo accessors *)

Lemma ancestors_cached (self : Package.t) (e : list edge) :
  _ancestors self ≠ [] → ancestors self e = (self, _ancestors self).
Proof. unfold ancestors. destruct (_ancestors self); [done | reflexivity]. Qed.

Lemma descendants_cached (self : Package.t) (e : list edge) :
  _descendants self ≠ [] → descendants self e = (self, _descendants self).
Proof. unfold descendants. destruct (_descendants self); [done | reflexivity]. Qed.

Lemma ancestors_stores (self : Package.t) (e : list edge) :
  _ancestors (ancestors self e).1 = (ancestors self e).2.
Proof. unfold ancestors. destruct (_ancestors self) eqn:E; simpl; [reflexivity | done]. Qed.

Lemma descendants_stores (self : Package.t) (e : list edge) :
  _descendants (descendants self e).1 = (descendants self e).2.
Proof. unfold descendants. destruct (_descendants self) eqn:E; simpl; [reflexivity | done]. Qed.

Lemma descendants_keeps_ancestors (self : Package.t) (e : list edge) :
  _ancestors (descendants self e).1 = _ancestors self.
Proof. unfold descendants. destruct (_descendants self); reflexivity. Qed.

Lemma ancestors_keeps_descendants (self : Package.t) (e : list edge) :
  _descendants (ancestors self e).1 = _descendants self.
Proof. unfold ancestors. destruct (_ancestors self); reflexivity. Qed.

(** C10. On a new [Package] the accessors filter the edges they are given;
    once a call has produced a non-empty list, every later call, with any
    edge collection and whether or not the other accessor ran in between,
    returns that list again and leaves the object as it is; and both
    accept the empty edge collection, returning the empty list, where
    [get_direct_links_to_any_package] raises [InvalidEdges]. *)
Theorem accessors_memoize_first_nonempty_result
    (n : string) (v : option string) (e1 e2 e3 : list edge) :
  let a := ancestors (init n v) e1 in
  let d := descendants (init n v) e1 in
  a.2 = filter (λ x, lower n = tail_key x) e1 ∧
  d.2 = filter (λ x, lower n = head_key x) e1 ∧
  (a.2 ≠ [] →
     ancestors a.1 e2 = (a.1, a.2) ∧
     (ancestors (descendants a.1 e3).1 e2).2 = a.2) ∧
  (d.2 ≠ [] →
     descendants d.1 e2 = (d.1, d.2) ∧
     (descendants (ancestors d.1 e3).1 e2).2 = d.2) ∧
  ancestors (init n v) [] = (init n v, []) ∧
  descendants (init n v) [] = (init n v, []) ∧
  get_direct_links_to_any_package n [] = Raise InvalidEdges.
Proof.
  intros a d.
  split; [reflexivity |]. split; [reflexivity |].
  split; [| split; [| repeat split; reflexivity]].
  - subst a. intros Ha. rewrite <- (ancestors_stores (init n v) e1) in Ha |- *.
    set (self := (ancestors (init n v) e1).1) in *. split.
    + apply ancestors_cached, Ha.
    + rewrite ancestors_cached; [apply descendants_keeps_ancestors |].
      by rewrite descendants_keeps_ancestors.
  - subst d. intros Hd. rewrite <- (descendants_stores (init n v) e1) in Hd |- *.
    set (self := (descendants (init n v) e1).1) in *. split.
    + apply descendants_cached, Hd.
    + rewrite descendants_cached; [apply ancestors_keeps_descendants |].
      by rewrite ancestors_keeps_descendants.
Qed.

Lemma accessors_memoize_witness :
  ancestors (ancestors (init "numpy" None) Examples.one_edge).1 [] =
  ((ancestors (init "numpy" None) Examples.one_edge).1,
   (ancestors (init "numpy" None) Examples.one_edge).2).
Proof.
  destruct (accessors_memoize_first_nonempty_result
              "numpy" None Examples.one_edge [] []) as (_ & _ & H & _).
  apply H. vm_compute. discriminate.
Defined.

(** ** The version classifier *)

Section ClassifierFacts.

Import Versions.

Variable release_ids : string → option (list string).
Variable loose_sort : list string → list string.
Variable version_gt version_lt : string → string → bool.

Let lookup := get_package_versions_from_pypi release_ids loose_sort.
Let check := check_latest_major_minor_versions release_ids loose_sort version_gt version_lt.

(** A successful lookup never hands over an empty list, so
    [versions[-1]] exists. *)
Lemma lookup_nonempty (package : string) (versions : list string) :
  lookup package = Some versions → ∃ latest_version, last versions = Some latest_version.
Proof.
  unfold lookup, get_package_versions_from_pypi.
  destruct (release_ids package) as [rels|]; [| discriminate].
  destruct (loose_sort rels) as [|x l] eqn:E; [discriminate |].
  intros [= <-]. destruct (last (x :: l)) eqn:El; [eauto |].
  by apply last_None in El.
Qed.

Lemma lookup_failure (package : string) (version : option string) :
  lookup package = None →
  check package version = Return (Verdict (Status None None) (Status None None) (-1)).
Proof.
  unfold lookup, check, check_latest_major_minor_versions. by intros ->.
Qed.

(** C3 (amended). When the lookup succeeds and no installed version is
    given, both sub-records are marked outdated with the last version of
    the index as latest, and the status code is left at its initial
    value -1. *)
Theorem no_installed_version_keeps_code_minus_one
    (package : string) (versions : list string) (latest_version : string) :
  lookup package = Some versions →
  last versions = Some latest_version →
  check package None =
    Return (Verdict (Status (Some true) (Some latest_version))
                    (Status (Some true) (Some latest_version)) (-1)).
Proof.
  unfold lookup, check, check_latest_major_minor_versions, index_last.
  by intros -> ->.
Qed.

(** C7. When the lookup succeeds and the installed version compares
    greater than the last version of the index, the verdict has status
    999 and both sub-records report not outdated with the installed
    version as latest. *)
Theorem beyond_latest_gives_999
    (package version : string) (versions : list string) (latest_version : string) :
  lookup package = Some versions →
  last versions = Some latest_version →
  version_gt version latest_version = true →
  check package (Some version) =
    Return (Verdict (Status (Some false) (Some version))
                    (Status (Some false) (Some version)) 999).
Proof.
  unfold lookup, check, check_latest_major_minor_versions, index_last.
  intros -> -> Hgt. simpl. by rewrite Hgt.
Qed.

(** C2 (amended). With the index holding 1.0.0, 1.5.0 and 2.0.0, the
    installed 1.0.0 is major outdated against 2.0.0 with status 1; the
    minor candidates are the versions whose first two segments are "1"
    and "0", that is 1.0.0 alone, so minor is not outdated and its
    latest is 1.0.0. *)
Theorem pkg_1_0_0_major_outdated_minor_current :
  lookup "pkg" = Some ["1.0.0"; "1.5.0"; "2.0.0"] →
  version_gt "1.0.0" "2.0.0" = false →
  version_lt "1.0.0" "2.0.0" = true →
  version_lt "1.0.0" "1.0.0" = false →
  check "pkg" (Some "1.0.0") =
    Return (Verdict (Status (Some true) (Some "2.0.0"))
                    (Status (Some false) (Some "1.0.0")) 1).
Proof.
  unfold lookup, check, check_latest_major_minor_versions, index_last.
  intros -> Hgt Hlt Hirr. simpl. rewrite Hgt, Hlt. simpl. by rewrite Hirr.
Qed.

(** An installed version without a dot that is behind the index makes
    [version.split('.')[1]] raise. *)
Lemma single_segment_raises
    (package version : string) (versions : list string) (latest_version : string) :
  lookup package = Some versions →
  last versions = Some latest_version →
  version_gt version latest_version = false →
  version_lt version latest_version = true →
  length (split_dot version) = 1%nat →
  check package (Some version) = Raise IndexError.
Proof.
  unfold lookup, check, check_latest_major_minor_versions, index_last.
  intros -> -> Hgt Hlt Hlen. simpl. rewrite Hgt, Hlt.
  destruct (split_dot version) as [|a [|b l]]; try discriminate. reflexivity.
Qed.

End ClassifierFacts.

Lemma no_installed_version_witness :
  Examples.classify "pkg" None =
    Return (Versions.Verdict (Versions.Status (Some true) (Some "2.0.0"))
                             (Versions.Status (Some true) (Some "2.0.0")) (-1)).
Proof.
  apply (no_installed_version_keeps_code_minus_one
           Examples.pkg_index Versions.lenient_sort Versions.lenient_gt Versions.lenient_lt
           "pkg" ["1.0.0"; "1.5.0"; "2.0.0"] "2.0.0"); reflexivity.
Defined.

(** C3, as stated, fails: the verdict for an absent installed version does
    not carry status 0. *)
Lemma no_installed_version_is_not_status_0 :
  ¬ ∃ r, Examples.classify "pkg" None = Return r ∧
         Versions.code r = 0 ∧
         Versions.major_version r = Versions.Status (Some true) (Some "2.0.0") ∧
         Versions.minor_version r = Versions.Status (Some true) (Some "2.0.0").
Proof. intros (r & Hr & Hc & _). vm_compute in Hr. by injection Hr as <-. Qed.

Lemma beyond_latest_witness :
  Examples.classify "pkg" (Some "3.0.0") =
    Return (Versions.Verdict (Versions.Status (Some false) (Some "3.0.0"))
                             (Versions.Status (Some false) (Some "3.0.0")) 999).
Proof.
  apply (beyond_latest_gives_999
           Examples.pkg_index Versions.lenient_sort Versions.lenient_gt Versions.lenient_lt
           "pkg" "3.0.0" ["1.0.0"; "1.5.0"; "2.0.0"] "2.0.0"); reflexivity.
Defined.

Lemma pkg_1_0_0_witness :
  Examples.classify "pkg" (Some "1.0.0") =
    Return (Versions.Verdict (Versions.Status (Some true) (Some "2.0.0"))
                             (Versions.Status (Some false) (Some "1.0.0")) 1).
Proof.
  apply (pkg_1_0_0_major_outdated_minor_current
           Examples.pkg_index Versions.lenient_sort Versions.lenient_gt Versions.lenient_lt);
    reflexivity.
Defined.

(** C2, as stated, fails: 1.5.0 in the index does not make the minor
    sub-record of 1.0.0 outdated. *)
Lemma pkg_1_0_0_minor_is_not_outdated :
  ¬ ∃ r, Examples.classify "pkg" (Some "1.0.0") = Return r ∧
         Versions.code r = 1 ∧
         Versions.major_version r = Versions.Status (Some true) (Some "2.0.0") ∧
         Versions.outdated (Versions.minor_version r) = Some true.
Proof. intros (r & Hr & _ & _ & Hm). vm_compute in Hr. by injection Hr as <-. Qed.

(** C6 fails on the code: the installed version "1", behind an index whose
    latest is 2.0.0, makes the classifier raise [IndexError]. *)
Theorem classify_single_segment_raises_IndexError :
  Examples.classify "pkg" (Some "1") = Raise IndexError.
Proof. vm_compute. reflexivity. Qed.

(** ** The manifest reconciler *)

Section ReconcilerFacts.

Import Requirements.

Variable dict_order : gset string → list string.
Hypothesis dict_order_enumerates : ∀ (X : gset string) k, k ∈ dict_order X ↔ k ∈ X.

Lemma resolve_first_pin (specs : list (string * string)) :
  specs = [] ∨ pinned specs ≠ [] → resolve specs = Return (first_pin specs).
Proof.
  unfold resolve, first_pin. intros [-> | Hp]; [reflexivity |].
  destruct specs as [|s0 specs]; [done |].
  destruct (pinned (s0 :: specs)) as [|v l]; [done | reflexivity].
Qed.

Lemma check_all_records
    (all_reqs : gmap string (string * list (string * string)))
    (all_packages : gmap string Package.t) (l : list string)
    (acc : list (string * option string) * list (string * string * option string)) :
  (∀ k, k ∈ l → ∃ info p, all_reqs !! k = Some info ∧ all_packages !! k = Some p ∧
                   (info.2 = [] ∨ pinned info.2 ≠ [])) →
  ∃ acc', check_all all_reqs all_packages l acc = Return acc' ∧
    (∀ e, e ∈ acc.1 → e ∈ acc'.1) ∧ (∀ e, e ∈ acc.2 → e ∈ acc'.2) ∧
    ∀ k info p, k ∈ l → all_reqs !! k = Some info → all_packages !! k = Some p →
      if decide (Some (first_pin info.2) = Package.version p)
      then (k, Package.version p) ∈ acc'.1
      else (k, first_pin info.2, Package.version p) ∈ acc'.2.
Proof.
  revert acc. induction l as [|k0 l IH]; intros acc Hl.
  - exists acc. repeat split; try done. intros k info p Hk. by apply elem_of_nil in Hk.
  - destruct (Hl k0) as (info0 & p0 & Hi0 & Hp0 & Hr0); [left |].
    simpl. unfold check_one, getitem. rewrite Hp0, Hi0. simpl.
    rewrite (resolve_first_pin _ Hr0). simpl.
    match goal with |- ∃ _, check_all _ _ _ ?a = _ ∧ _ => set (acc1 := a) end.
    destruct (IH acc1) as (acc' & Hrun & H1 & H2 & Hall).
    { intros k Hk. apply Hl. by right. }
    assert (Hhead : if decide (Some (first_pin info0.2) = Package.version p0)
                    then (k0, Package.version p0) ∈ acc1.1
                    else (k0, first_pin info0.2, Package.version p0) ∈ acc1.2).
    { subst acc1. destruct (decide (Some (first_pin info0.2) = Package.version p0));
        simpl; apply elem_of_app; right; left. }
    assert (Hmono1 : ∀ e, e ∈ acc.1 → e ∈ acc1.1).
    { subst acc1. intros e He. destruct (decide _); simpl; [apply elem_of_app |]; auto. }
    assert (Hmono2 : ∀ e, e ∈ acc.2 → e ∈ acc1.2).
    { subst acc1. intros e He. destruct (decide _); simpl; [| apply elem_of_app]; auto. }
    exists acc'. split; [exact Hrun |]. split; [auto |]. split; [auto |].
    intros k info p Hk Hi Hp. apply elem_of_cons in Hk as [-> | Hk].
    + rewrite Hi0 in Hi. rewrite Hp0 in Hp. injection Hi as <-. injection Hp as <-.
      destruct (decide _); auto.
    + by apply Hall.
Qed.

(** C4 (amended). Provided every manifest entry that is also in the
    environment has no constraints at all or at least one [==]
    constraint, the comparison returns its four lists, and for every
    key in both the manifest and the environment the manifest version is
    that of the FIRST [==] constraint of the entry, or the sentinel
    ["-1"] when the entry has no constraints (or that version is the
    empty string); if it equals the installed version the key is listed
    in [same], otherwise in [verdiff] with both versions. *)
Theorem common_keys_resolve_first_pin
    (parsed_req : list requirement) (all_packages : gmap string Package.t) :
  (∀ k info, all_reqs_of parsed_req !! k = Some info → is_Some (all_packages !! k) →
             info.2 = [] ∨ pinned info.2 ≠ []) →
  ∃ c, compare_req_file_to_env dict_order (Some parsed_req) all_packages = Return (Some c) ∧
    ∀ k info p, all_reqs_of parsed_req !! k = Some info → all_packages !! k = Some p →
      (info.2 = [] → first_pin info.2 = "-1") ∧
      (∀ v rest, pinned info.2 = v :: rest → v ≠ "" → first_pin info.2 = v) ∧
      if decide (Some (first_pin info.2) = Package.version p)
      then (k, Package.version p) ∈ same c
      else (k, first_pin info.2, Package.version p) ∈ verdiff c.
Proof.
  intros Hres. unfold compare_req_file_to_env.
  set (all_reqs := all_reqs_of parsed_req) in *.
  set (req_only := filter (λ x, all_packages !! x = None) (dict_order (dom all_reqs))).
  set (ver_check := filter (λ x, x ∉ req_only) (dict_order (dom all_reqs))).
  assert (Hvc : ∀ k, k ∈ ver_check ↔ is_Some (all_reqs !! k) ∧ is_Some (all_packages !! k)).
  { intros k. subst ver_check req_only.
    rewrite list_elem_of_filter, list_elem_of_filter, dict_order_enumerates, elem_of_dom.
    split.
    - intros [Hn Hd]. split; [done |].
      destruct (all_packages !! k) eqn:E; [eauto |]. exfalso. apply Hn. done.
    - intros [Hd [p Hp]]. split; [| done]. intros [Hnone _]. congruence. }
  destruct (check_all_records all_reqs all_packages ver_check ([], []))
    as (acc' & Hrun & _ & _ & Hall).
  { intros k Hk. apply Hvc in Hk as [[info Hi] [p Hp]].
    exists info, p. repeat split; try done. apply (Hres k); eauto. }
  rewrite Hrun. simpl. eexists. split; [reflexivity |]. simpl.
  intros k info p Hi Hp. split; [| split].
  - unfold first_pin. by intros ->.
  - unfold first_pin. intros v rest -> Hv. by destruct (decide (v = "")).
  - apply Hall; try done. apply Hvc. eauto.
Qed.

End ReconcilerFacts.

Lemma common_keys_witness :
  ∃ c, Requirements.compare_req_file_to_env elements (Some Examples.twice_pinned) Examples.env_a2
       = Return (Some c) ∧
       ("a", "1.0", Some "2.0") ∈ Requirements.verdiff c.
Proof.
  destruct (common_keys_resolve_first_pin elements
              (λ X k, elem_of_elements X k) Examples.twice_pinned Examples.env_a2)
    as (c & Hc & Hall).
  - intros k info Hi _. right.
    assert (Hk : k = "a").
    { destruct (decide (k = "a")) as [|Hne]; [done |]. exfalso.
      unfold Examples.twice_pinned, Requirements.all_reqs_of in Hi. simpl in Hi.
      rewrite lookup_insert_ne in Hi by done. by rewrite lookup_empty in Hi. }
    subst k. unfold Examples.twice_pinned, Requirements.all_reqs_of in Hi. simpl in Hi.
    rewrite lookup_insert_eq in Hi. injection Hi as <-. vm_compute. discriminate.
  - exists c. split; [exact Hc |].
    destruct (Hall "a" ("A", [("==", "1.0"); ("==", "2.0")]) (Package.init "a" (Some "2.0")))
      as (_ & _ & H).
    + unfold Examples.twice_pinned, Requirements.all_reqs_of. simpl.
      by rewrite lookup_insert_eq.
    + unfold Examples.env_a2. by rewrite lookup_singleton_eq.
    + exact H.
Defined.

(** C4, as stated, fails: of two [==] constraints the code honours the
    first, so an environment holding the version of the last one is not
    reported as [same]. *)
Lemma last_pin_is_not_honoured :
  ¬ ∃ c, Requirements.compare_req_file_to_env elements (Some Examples.twice_pinned) Examples.env_a2
         = Return (Some c) ∧
         ("a", Some "2.0") ∈ Requirements.same c.
Proof.
  intros (c & Hc & Hin). vm_compute in Hc. injection Hc as <-.
  simpl in Hin. by apply elem_of_nil in Hin.
Qed.

(** ** The distance engine *)

Lemma lower_ascii_idem (c : ascii) : lower_ascii (lower_ascii c) = lower_ascii c.
Proof.
  destruct c as [[] [] [] [] [] [] [] []]; vm_compute; reflexivity.
Qed.

Lemma lower_idem (s : string) : lower (lower s) = lower s.
Proof.
  induction s as [|c s IH]; simpl; [reflexivity |].
  by rewrite lower_ascii_idem, IH.
Qed.

Lemma fresh_fold_lookup {A : Type} (v : A) (nodes : list node) (d0 : gmap string A) (k : string) :
  foldl (λ d (x : node), <[lower x.1 := v]> d) d0 nodes !! k =
    if decide (k ∈ (λ x : node, lower x.1) <$> nodes) then Some v else d0 !! k.
Proof.
  revert d0. induction nodes as [|x nodes IH]; intros d0.
  - simpl. done.
  - rewrite fmap_cons. cbn [foldl]. rewrite IH.
    destruct (decide (k ∈ (λ x : node, lower x.1) <$> nodes)) as [H|H].
    + rewrite decide_True; [done | by right].
    + destruct (decide (k = lower x.1)) as [->|Hne].
      * rewrite lookup_insert_eq. rewrite decide_True; [done | left].
      * rewrite lookup_insert_ne by done. rewrite decide_False; [done |].
        intros [?|?]%elem_of_cons; done.
Qed.

Lemma fresh_dict_lookup {A : Type} (v : A) (nodes : list node) (ir : bool) (k : string) :
  fresh_dict v nodes ir !! k =
    if decide (k ∈ (λ x : node, lower x.1) <$> nodes) then Some v
    else if ir && bool_decide (k = "root") then Some v else None.
Proof.
  unfold fresh_dict. destruct ir; simpl.
  - destruct (decide (k = "root")) as [->|Hne].
    + rewrite lookup_insert_eq. rewrite bool_decide_eq_true_2 by done.
      by destruct (decide _).
    + rewrite lookup_insert_ne by done. rewrite fresh_fold_lookup, lookup_empty.
      by rewrite bool_decide_eq_false_2.
  - by rewrite fresh_fold_lookup, lookup_empty.
Qed.

Lemma fresh_dict_is_Some {A B : Type} (v : A) (w : B) (nodes : list node) (ir : bool) (k : string) :
  is_Some (fresh_dict v nodes ir !! k) → fresh_dict w nodes ir !! k = Some w.
Proof.
  rewrite !fresh_dict_lookup. destruct (decide _); [done |].
  destruct (ir && bool_decide (k = "root")); [done |]. by intros [? ?].
Qed.

Lemma known_node (nodes : list node) (ir : bool) (x : node) :
  x ∈ nodes → known nodes ir (lower x.1).
Proof.
  intros Hx. unfold known. rewrite fresh_dict_lookup.
  rewrite decide_True; [done |]. apply list_elem_of_fmap. eauto.
Qed.

Lemma known_root (nodes : list node) : known nodes true "root".
Proof.
  unfold known. rewrite fresh_dict_lookup. destruct (decide _); [done |].
  rewrite bool_decide_eq_true_2 by done. done.
Qed.

Lemma known_lower (nodes : list node) (ir : bool) (k : string) :
  known nodes ir k → lower k = k.
Proof.
  unfold known. rewrite fresh_dict_lookup.
  destruct (decide _) as [H|H].
  - intros _. apply list_elem_of_fmap in H as (x & -> & _). apply lower_idem.
  - destruct ir; simpl; [| by intros [? ?]].
    destruct (bool_decide (k = "root")) eqn:E; [| by intros [? ?]].
    apply bool_decide_eq_true in E as ->. reflexivity.
Qed.

(** C9 (amended). When the lowercased origin is the key of no node and,
    if [include_root] is set, is not ["root"] either, the result is empty
    in the requested shape, whatever the edges. *)
Theorem absent_origin_gives_empty_result
    (set_order : gset string → list string) (edges : list edge) (include_root : bool)
    (package_in : string) (nodes : list node) (keep_untouched_nodes : bool)
    (list_or_dict : string) :
  (∀ x, x ∈ nodes → lower x.1 ≠ lower package_in) →
  include_root = false ∨ lower package_in ≠ "root" →
  calc_node_distances set_order package_in nodes edges include_root
                      keep_untouched_nodes list_or_dict =
    Return (if decide (list_or_dict = "list") then AsList [] else AsDict ∅).
Proof.
  intros Habs Hroot. unfold calc_node_distances.
  rewrite decide_True; [reflexivity |].
  rewrite fresh_dict_lookup. rewrite decide_False.
  - destruct Hroot as [-> | Hne]; [reflexivity |].
    rewrite bool_decide_eq_false_2 by done. by rewrite andb_false_r.
  - intros (x & Hx & Hin)%list_elem_of_fmap. by apply (Habs x).
Qed.

Lemma absent_origin_witness :
  calc_node_distances elements "Django" Examples.two_nodes Examples.one_edge true false "list"
  = Return (AsList []).
Proof.
  apply (absent_origin_gives_empty_result
           elements Examples.one_edge true "Django" Examples.two_nodes false "list").
  - intros x Hx. vm_compute.
    apply elem_of_cons in Hx as [-> | Hx]; [discriminate |].
    apply elem_of_cons in Hx as [-> | Hx]; [discriminate |].
    by apply elem_of_nil in Hx.
  - right. vm_compute. discriminate.
Defined.

(** C9, as stated, fails: with [include_root] set, the origin ["root"] is
    a key of [dist_dict] though no node carries it, and the walk runs. *)
Lemma root_origin_is_not_absent :
  ¬ (calc_node_distances elements "root" [("a", "1")] Examples.root_edge true false "list"
     = Return (AsList [])).
Proof. vm_compute. discriminate. Qed.

Lemma untouched_count_decreases (T T' : gmap string bool) (p : string) :
  (∀ k, T' !! k = Some false → T !! k = Some false) →
  T !! p = Some false → T' !! p ≠ Some false →
  (untouched_count T' < untouched_count T)%nat.
Proof.
  intros Hmono Hp Hp'. unfold untouched_count. apply map_subset_size. split.
  - apply map_subseteq_spec. intros k b [Hk Hb]%map_lookup_filter_Some.
    simpl in Hb. subst b. apply map_lookup_filter_Some. split; [by apply Hmono | done].
  - intros Hsub. apply Hp'.
    rewrite map_subseteq_spec in Hsub. specialize (Hsub p false).
    rewrite !map_lookup_filter_Some in Hsub. by apply Hsub.
Qed.

Lemma fresh_dict_size {A B : Type} (v : A) (w : B) (nodes : list node) (ir : bool) :
  size (fresh_dict v nodes ir) = size (fresh_dict w nodes ir).
Proof.
  rewrite <- !size_dom. f_equal. apply set_eq. intros k. rewrite !elem_of_dom.
  split; intros H; erewrite fresh_dict_is_Some; eauto.
Qed.

Lemma direct_links (edges : list edge) (p : string) :
  edges ≠ [] →
  get_direct_links_to_any_package p edges =
    Return (filter (λ x, lower p = tail_key x) edges,
            filter (λ x, lower p = head_key x) edges).
Proof. unfold get_direct_links_to_any_package. by destruct edges. Qed.

Lemma used_links (edges : list edge) (include_root : bool)
    (P : edge → Prop) `{!∀ x, Decision (P x)} (nx : edge) :
  nx ∈ (if include_root then filter P edges else without_root (filter P edges))
  ↔ nx ∈ used_edges edges include_root ∧ P nx.
Proof.
  unfold used_edges, without_root. destruct include_root.
  - by rewrite list_elem_of_filter, (and_comm (P nx)).
  - rewrite !list_elem_of_filter. tauto.
Qed.

Section EngineFacts.

Variable set_order : gset string → list string.
Hypothesis set_order_enumerates : ∀ (X : gset string) k, k ∈ set_order X ↔ k ∈ X.
Variable nodes : list node.
Variable edges : list edge.
Variable include_root : bool.
Hypothesis edges_nonempty : edges ≠ [].
Hypothesis edges_drawn : drawn_from_nodes nodes edges include_root.
Variable o : string.
Hypothesis o_known : known nodes include_root o.

Local Abbreviation adj := (adjacent edges include_root).
Local Abbreviation walk := (hops edges include_root o).
Local Abbreviation is_known := (known nodes include_root).
Local Abbreviation near := (within edges include_root o).

Lemma adjacent_sym (a b : string) : adj a b → adj b a.
Proof. intros (nx & Hnx & H). exists nx. split; [done |]. tauto. Qed.

Lemma adjacent_known (a b : string) : adj a b → is_known a ∧ is_known b.
Proof.
  intros (nx & Hnx & H). destruct (edges_drawn nx Hnx) as [Hh Ht].
  destruct H as [[<- <-] | [<- <-]]; done.
Qed.

Lemma walk_known (n : nat) (k : string) : walk n k → is_known k.
Proof.
  intros H. inversion H as [|n' a b _ Hadj]; subst; [exact o_known |].
  exact (proj2 (adjacent_known _ _ Hadj)).
Qed.

Lemma within_mono (L L' : nat) (k : string) : (L ≤ L')%nat → near L k → near L' k.
Proof. intros HL (m & Hm & Hw). exists m. split; [lia | done]. Qed.

Lemma within_step (L : nat) (a b : string) : near L a → adj a b → near (S L) b.
Proof.
  intros (m & Hm & Hw) Hadj. exists (S m). split; [lia |]. by eapply hops_step.
Qed.

Lemma within_origin (L : nat) : near (S L) o.
Proof. exists 0%nat. split; [lia | constructor]. Qed.

(** A key first met at level [L] has [L] as its minimum hop count. *)
Lemma min_hops_at_level (L : nat) (k : string) :
  near (S L) k → ¬ near L k → min_hops edges include_root o L k.
Proof.
  intros (m & Hm & Hw) Hfar.
  assert (m = L) as ->.
  { destruct (decide (m < L)%nat); [| lia]. exfalso. apply Hfar. by exists m. }
  split; [done |]. intros m' Hw'.
  destruct (decide (m' < L)%nat); [| lia]. exfalso. apply Hfar. by exists m'.
Qed.

Lemma min_hops_unique (m m' : nat) (k : string) :
  min_hops edges include_root o m k → min_hops edges include_root o m' k → m = m'.
Proof. intros [H1 H2] [H1' H2']. apply H2 in H1'. apply H2' in H1. lia. Qed.

Lemma untouched_spec (f : edge → string) (T : gmap string bool) (links : list edge) :
  (∀ nx, nx ∈ links → is_Some (T !! f nx)) →
  ∃ res, untouched f T links = Return res ∧
         ∀ q, q ∈ res ↔ ∃ nx, nx ∈ links ∧ f nx = q ∧ T !! q = Some false.
Proof.
  induction links as [|nx links IH]; intros Hall.
  - exists []. split; [done |]. intros q. split.
    + by intros ?%elem_of_nil.
    + by intros (? & ?%elem_of_nil & _).
  - destruct IH as (res & Hres & Hspec); [intros ? ?; apply Hall; by right |].
    destruct (Hall nx) as [b Hb]; [left |].
    simpl. unfold getitem. rewrite Hb. simpl. rewrite Hres. simpl.
    eexists. split; [reflexivity |]. intros q. destruct b.
    + rewrite Hspec. split.
      * intros (nx' & ? & ? & ?). exists nx'. split; [by right | done].
      * intros (nx' & [-> | ?]%elem_of_cons & Hf & Hq); [congruence | eauto].
    + rewrite elem_of_cons, Hspec. split.
      * intros [-> | (nx' & ? & ? & ?)]; [exists nx; split; [left | done] |].
        exists nx'. split; [by right | done].
      * intros (nx' & [-> | ?]%elem_of_cons & Hf & Hq); [by left | right; eauto].
Qed.

(** One visit: the distance is lowered to the level when its magnitude
    exceeds it, the key is touched, and the untouched neighbours are
    appended to [to_search_next]. *)
Lemma visit_spec (L : nat) (p : string) (D : gmap string Z) (T : gmap string bool)
    (acc : list string) (d : Z) :
  is_known p →
  (∀ k, is_known k → is_Some (T !! k)) →
  D !! p = Some d →
  ∃ new,
    visit edges include_root (Z.of_nat L) p (Search D T, acc) =
      Return (Search (if Z.abs d >? Z.of_nat L then <[p := Z.of_nat L]> D else D)
                     (<[p := true]> T), acc ++ new) ∧
    ∀ q, q ∈ new ↔ adj p q ∧ <[p := true]> T !! q = Some false.
Proof.
  intros Hp HT Hd.
  assert (HT' : ∀ k, is_known k → is_Some (<[p := true]> T !! k)).
  { intros k Hk. destruct (decide (p = k)) as [->|Hne].
    - rewrite lookup_insert_eq. eauto.
    - rewrite lookup_insert_ne by done. by apply HT. }
  pose proof (known_lower _ _ _ Hp) as Hlow.
  destruct (untouched_spec tail_key (<[p := true]> T)
              (if include_root then filter (λ x, lower p = head_key x) edges
               else without_root (filter (λ x, lower p = head_key x) edges)))
    as (ds & Hds & Hdspec).
  { intros nx [Hu _]%used_links. apply HT'. by apply edges_drawn. }
  destruct (untouched_spec head_key (<[p := true]> T)
              (if include_root then filter (λ x, lower p = tail_key x) edges
               else without_root (filter (λ x, lower p = tail_key x) edges)))
    as (az & Haz & Hazspec).
  { intros nx [Hu _]%used_links. apply HT'. by apply edges_drawn. }
  exists (ds ++ az). split.
  - unfold visit, getitem. simpl. rewrite Hd. simpl. rewrite direct_links by done. simpl.
    rewrite Hds. simpl. rewrite Haz. reflexivity.
  - intros q. rewrite elem_of_app, Hdspec, Hazspec. rewrite Hlow. split.
    + intros [(nx & [Hu Hh]%used_links & Ht & Hq) | (nx & [Hu Hh]%used_links & Ht & Hq)].
      * split; [| done]. exists nx. split; [done |]. left. done.
      * split; [| done]. exists nx. split; [done |]. right. done.
    + intros [(nx & Hu & [[Hh Ht] | [Ht Hh]]) Hq].
      * left. exists nx. split; [apply used_links; split; done | done].
      * right. exists nx. split; [apply used_links; split; done | done].
Qed.

Lemma first_visit_records (L : nat) :
  (if (Z.abs start_distance >? Z.of_nat L) then Z.of_nat L else start_distance) = recorded L.
Proof.
  unfold recorded, start_distance. change (Z.abs (-999)) with 999.
  destruct (Nat.ltb_spec L 999); destruct (Z.gtb_spec 999 (Z.of_nat L)); lia.
Qed.

Lemma later_visit_keeps (L m : nat) :
  (m ≤ L)%nat → (Z.abs (recorded m) >? Z.of_nat L) = false.
Proof.
  intros Hm. unfold recorded, start_distance.
  destruct (Nat.ltb_spec m 999).
  - destruct (Z.gtb_spec (Z.abs (Z.of_nat m)) (Z.of_nat L)); lia.
  - change (Z.abs (-999)) with 999. destruct (Z.gtb_spec 999 (Z.of_nat L)); lia.
Qed.

(** The [for] loop of level [L], from any point of the search set on. *)
Lemma sweep_spec (L : nat) (S0 : list string) (s0 : search) :
  level_inv nodes edges include_root o L S0 s0 →
  ∀ (Q P : list string) (s : search) (acc : list string),
    (∀ p, p ∈ P → p ∈ S0) → (∀ p, p ∈ Q → p ∈ S0) →
    flagged nodes edges include_root o L P s →
    gathered nodes edges include_root o L P acc →
    (∀ k, node_touched s !! k = Some false → node_touched s0 !! k = Some false) →
    ∃ s' acc',
      sweep edges include_root (Z.of_nat L) Q (s, acc) = Return (s', acc') ∧
      flagged nodes edges include_root o L (P ++ Q) s' ∧
      gathered nodes edges include_root o L (P ++ Q) acc' ∧
      (∀ k, node_touched s' !! k = Some false → node_touched s0 !! k = Some false).
Proof.
  intros (_ & HS0 & _). induction Q as [|p Q IH]; intros P s acc HP HQ Hfl Hga Hmono.
  - exists s, acc. rewrite app_nil_r. done.
  - destruct (HS0 p) as [Hp Hnear]; [apply HQ; left |].
    destruct s as [D T].
    destruct (Hfl p Hp) as (b & d & HTp & HDp & Hb & Hfalse & Htrue). simpl in HTp, HDp.
    destruct (visit_spec L p D T acc d Hp) as (new & Hvisit & Hnew); [| done |].
    { intros k Hk. destruct (Hfl k Hk) as (? & ? & HTk & _). simpl in HTk. eauto. }
    set (D' := if Z.abs d >? Z.of_nat L then <[p := Z.of_nat L]> D else D) in *.
    assert (HD'ne : ∀ k, k ≠ p → D' !! k = D !! k).
    { intros k Hk. subst D'. destruct (_ >? _); [by rewrite lookup_insert_ne | done]. }
    assert (HD'p : ∃ m, min_hops edges include_root o m p ∧ D' !! p = Some (recorded m)).
    { destruct b.
      - destruct Htrue as (m & Hmin & ->); [done |]. exists m. split; [done |].
        assert (m ≤ L)%nat as Hm.
        { destruct Hnear as (m' & Hm' & Hw). apply Hmin in Hw. lia. }
        subst D'. rewrite later_visit_keeps; done.
      - assert (d = start_distance) as -> by (by apply Hfalse). exists L. split.
        + apply min_hops_at_level; [done |]. intros Hn.
          assert (false = true); [apply Hb; by left | done].
        + subst D'. rewrite <- first_visit_records.
          destruct (_ >? _); [by rewrite lookup_insert_eq | done]. }
    destruct (IH (P ++ [p]) (Search D' (<[p := true]> T)) (acc ++ new))
      as (s' & acc' & Hrun & Hfl' & Hga' & Hmono').
    + intros q [Hq | ->%list_elem_of_singleton]%elem_of_app; [by apply HP |].
      apply HQ. left.
    + intros q Hq. apply HQ. by right.
    + intros k Hk. destruct (decide (k = p)) as [-> | Hne].
      * destruct HD'p as (m & Hmin & HD'). exists true, (recorded m). simpl.
        rewrite lookup_insert_eq. repeat split; try done.
        -- intros _. right. apply elem_of_app. right. left.
        -- intros _. eauto.
      * destruct (Hfl k Hk) as (bk & dk & HTk & HDk & Hbk & Hfk & Htk). simpl in HTk, HDk.
        exists bk, dk. simpl. rewrite lookup_insert_ne by done. rewrite HD'ne by done.
        repeat split; try done.
        -- intros Hbt. apply Hbk in Hbt as [? | ?]; [by left |].
           right. apply elem_of_app. by left.
        -- intros [? | [? | ?%list_elem_of_singleton]%elem_of_app]; [| | done];
             apply Hbk; auto.
    + destruct Hga as [Hacc Hcomplete]. split.
      * intros q [Hq | Hq]%elem_of_app.
        -- destruct (Hacc q Hq) as (? & ? & p' & ? & ?). repeat split; try done.
           exists p'. split; [apply elem_of_app; by left | done].
        -- apply Hnew in Hq as [Hadj HTq].
           destruct (adjacent_known _ _ Hadj) as [_ Hkq].
           assert (q ≠ p) as Hne.
           { intros ->. by rewrite lookup_insert_eq in HTq. }
           rewrite lookup_insert_ne in HTq by done.
           destruct (Hfl q Hkq) as (bq & dq & HTq' & _ & Hbq & _). simpl in HTq'.
           rewrite HTq in HTq'. injection HTq' as <-.
           repeat split; [done | |].
           ++ intros Hn. assert (false = true); [apply Hbq; by left | done].
           ++ exists p. split; [apply elem_of_app; right; left | done].
      * intros p' q [Hp' | ->%list_elem_of_singleton]%elem_of_app Hadj.
        -- destruct (Hcomplete p' q Hp' Hadj); [by left |].
           right. apply elem_of_app. by left.
        -- destruct (adjacent_known _ _ Hadj) as [_ Hkq].
           destruct (decide (q = p)) as [-> | Hne]; [by left |].
           destruct (Hfl q Hkq) as (bq & dq & HTq & _ & Hbq & _). simpl in HTq.
           destruct bq.
           ++ left. destruct Hbq as [Hbq _]. destruct Hbq as [Hn | HqP]; [done | |].
              ** eapply within_mono; [| exact Hn]. lia.
              ** apply HS0. by apply HP.
           ++ right. apply elem_of_app. right. apply Hnew. split; [done |].
              by rewrite lookup_insert_ne.
    + intros k Hk. simpl in Hk. apply Hmono. simpl.
      destruct (decide (k = p)) as [-> | Hne]; [by rewrite lookup_insert_eq in Hk |].
      by rewrite lookup_insert_ne in Hk.
    + exists s', acc'. split; [| by rewrite <- app_assoc in Hfl', Hga'].
      cbn [sweep]. rewrite Hvisit. exact Hrun.
Qed.

(** [rec_fun] from level [L] on: with more fuel than untouched keys it
    returns, and the two dicts are then settled. *)
Lemma rec_fun_spec (fuel : nat) :
  ∀ (L : nat) (S0 : list string) (s : search),
    level_inv nodes edges include_root o L S0 s →
    (untouched_count (node_touched s) < fuel)%nat →
    ∃ s', rec_fun set_order edges include_root fuel S0 (Z.of_nat L) s = Return s' ∧
          settled nodes edges include_root o s'.
Proof.
  induction fuel as [|fuel IH]; intros L S0 s Hinv Hfuel; [lia |].
  destruct (sweep_spec L S0 s Hinv S0 [] s []) as (s' & acc' & Hrun & Hfl & Hga & Hmono).
  { by intros p ?%elem_of_nil. }
  { done. }
  { apply Hinv. }
  { split; [by intros q ?%elem_of_nil | by intros p q ?%elem_of_nil]. }
  { done. }
  rewrite app_nil_l in Hfl, Hga.
  destruct Hinv as (Hfl0 & HS0 & Hcover). destruct Hga as [Hacc Hcomplete].
  assert (Hnext : ∀ q, q ∈ set_order (list_to_set acc') ↔ q ∈ acc').
  { intros q. by rewrite set_order_enumerates, elem_of_list_to_set. }
  cbn [rec_fun]. rewrite Hrun. cbn [mbind outcome_bind bind].
  destruct (set_order (list_to_set acc')) as [|q0 next] eqn:Enext.
  - exists s'. split; [done |].
    assert (Hclosed : ∀ n k, walk n k → near (S L) k).
    { intros n k Hw. induction Hw as [|n a b _ IHa Hadj]; [apply within_origin |].
      destruct (Hcover a IHa) as [Ha | Ha]; [by eapply within_step |].
      destruct (Hcomplete a b Ha Hadj) as [? | Hb]; [done |].
      apply Hnext in Hb. by apply elem_of_nil in Hb. }
    intros k Hk. destruct (Hfl k Hk) as (b & d & HT & HD & Hb & Hf & Ht).
    exists b, d. repeat split; try done.
    + intros Hbt. apply Hb in Hbt as [(m & _ & Hw) | Hin]; [by exists m |].
      destruct (HS0 k Hin) as [_ (m & _ & Hw)]. by exists m.
    + intros [n Hw]. apply Hb. apply Hcover. by eapply Hclosed.
  - replace (Z.of_nat L + 1) with (Z.of_nat (S L)) by lia.
    apply IH.
    + split; [| split].
      * intros k Hk. destruct (Hfl k Hk) as (b & d & HT & HD & Hb & Hf & Ht).
        exists b, d. repeat split; try done.
        -- intros Hbt. left. apply Hb in Hbt as [Hn | Hin].
           ++ eapply within_mono; [| exact Hn]. lia.
           ++ by apply HS0.
        -- intros [Hn | Hin%elem_of_nil]; [| done]. apply Hb. by apply Hcover.
      * intros p Hp. apply Hnext in Hp.
        destruct (Hacc p Hp) as (Hkp & _ & p0 & Hp0 & Hadj). split; [done |].
        eapply within_step; [| exact Hadj]. by apply HS0.
      * intros k (m & Hm & Hw).
        destruct (decide (m < S L)%nat) as [Hlt | Hge]; [left; by exists m |].
        assert (m = S L) as -> by lia.
        inversion Hw as [|n a b Hwa Hadj]; subst.
        destruct (Hcover a) as [Ha | Ha]; [exists L; split; [lia | done] | |].
        -- left. by eapply within_step.
        -- destruct (Hcomplete a k Ha Hadj) as [? | Hk]; [by left |].
           right. by apply Hnext.
    + assert (∃ p, p ∈ S0 ∧ node_touched s !! p = Some false) as (p & Hp & HTp).
      { destruct (decide (Exists (λ p, node_touched s !! p = Some false) S0)) as [He | Hne].
        - by apply Exists_exists in He.
        - exfalso.
          assert (Hall : ∀ p, p ∈ S0 → near L p).
          { intros p Hp. destruct (HS0 p Hp) as [Hkp _].
            destruct (Hfl0 p Hkp) as (b & d & HT & _ & Hb & _).
            destruct b.
            - destruct Hb as [Hb _]. destruct Hb as [? | ?%elem_of_nil]; done.
            - exfalso. apply Hne. apply Exists_exists. eauto. }
          assert (Hq0 : q0 ∈ acc') by (apply Hnext; left).
          destruct (Hacc q0 Hq0) as (_ & Hfar & p0 & Hp0 & Hadj).
          apply Hfar. destruct (Hcover q0) as [? | Hin]; [| done | by apply Hall].
          eapply within_step; [| exact Hadj]. by apply Hall. }
      destruct (HS0 p Hp) as [Hkp _].
      destruct (Hfl p Hkp) as (b & d & HT & _ & Hb & _).
      assert (b = true) as -> by (apply Hb; by right).
      pose proof (untouched_count_decreases (node_touched s) (node_touched s') p Hmono HTp)
        as Hdec.
      rewrite HT in Hdec. specialize (Hdec ltac:(done)). lia.
Qed.

(** The walk from the origin returns, with the dicts settled. *)
Lemma walk_settles :
  ∃ s', rec_fun set_order edges include_root
          (S (size (fresh_dict start_distance nodes include_root))) [lower o] 0
          (Search (fresh_dict start_distance nodes include_root)
                  (fresh_dict false nodes include_root)) = Return s' ∧
        settled nodes edges include_root o s'.
Proof.
  rewrite (known_lower _ _ _ o_known).
  apply (rec_fun_spec _ 0%nat).
  - split; [| split].
    + intros k Hk. exists false, start_distance. simpl.
      rewrite (fresh_dict_is_Some start_distance false) by exact Hk.
      rewrite (fresh_dict_is_Some start_distance start_distance) by exact Hk.
      repeat split; try done.
      intros [(m & Hm & _) | ?%elem_of_nil]; [lia | done].
    + intros p ->%list_elem_of_singleton. split; [done | apply within_origin].
    + intros k (m & Hm & Hw). right. assert (m = 0%nat) as -> by lia.
      inversion Hw; subst. left.
  - simpl. unfold untouched_count.
    pose proof (map_size_filter (λ kv : string * bool, kv.2 = false)
                  (fresh_dict false nodes include_root)) as Hle.
    rewrite (fresh_dict_size start_distance false). lia.
Qed.

End EngineFacts.

(** *** The recursion budget is adequate on every input *)

Lemma unless_raised_bind {A B : Type} (m : outcome A) (f : A → outcome B)
    (P : A → Prop) (Q : B → Prop) :
  unless_raised m P → (∀ a, P a → unless_raised (f a) Q) → unless_raised (m ≫= f) Q.
Proof. destruct m; simpl; auto. Qed.

Lemma unless_raised_weaken {A : Type} (m : outcome A) (P Q : A → Prop) :
  unless_raised m P → (∀ a, P a → Q a) → unless_raised m Q.
Proof. destruct m; simpl; auto. Qed.

Lemma untouched_total (f : edge → string) (T : gmap string bool) (links : list edge) :
  unless_raised (untouched f T links)
    (λ res, (∀ nx, nx ∈ links → is_Some (T !! f nx)) ∧
            ∀ q, q ∈ res ↔ ∃ nx, nx ∈ links ∧ f nx = q ∧ T !! q = Some false).
Proof.
  induction links as [|nx links IH]; cbn [untouched].
  - simpl. split; [by intros ? ?%elem_of_nil |]. intros q. split.
    + by intros ?%elem_of_nil.
    + by intros (? & ?%elem_of_nil & _).
  - unfold getitem. destruct (T !! f nx) as [b|] eqn:Hb; [| exact I].
    cbn [mbind outcome_bind bind].
    eapply unless_raised_bind; [exact IH |]. intros more [Hsome Hspec]. simpl. split.
    + intros nx' [-> | ?]%elem_of_cons; [eauto | by apply Hsome].
    + intros q. destruct b.
      * rewrite Hspec. split.
        -- intros (nx' & ? & ? & ?). exists nx'. split; [by right | done].
        -- intros (nx' & [-> | ?]%elem_of_cons & Hf & Hq); [congruence | eauto].
      * rewrite elem_of_cons, Hspec. split.
        -- intros [-> | (nx' & ? & ? & ?)]; [exists nx; split; [left | done] |].
           exists nx'. split; [by right | done].
        -- intros (nx' & [-> | ?]%elem_of_cons & Hf & Hq); [by left | right; eauto].
Qed.

Section Budget.

Variable set_order : gset string → list string.
Hypothesis set_order_enumerates : ∀ (X : gset string) k, k ∈ set_order X ↔ k ∈ X.
Variable edges : list edge.
Variable include_root : bool.

Local Abbreviation adj := (adjacent edges include_root).

Lemma visit_total (L : Z) (p : string) (D : gmap string Z) (T : gmap string bool)
    (acc : list string) :
  unless_raised (visit edges include_root L p (Search D T, acc))
    (λ r, is_Some (D !! p) ∧
          (∀ k, is_Some (dist_dict r.1 !! k) ↔ is_Some (D !! k)) ∧
          node_touched r.1 = <[p := true]> T ∧
          (∀ q, adj (lower p) q → is_Some (<[p := true]> T !! q)) ∧
          ∃ new, r.2 = acc ++ new ∧
                 ∀ q, q ∈ new ↔ adj (lower p) q ∧ <[p := true]> T !! q = Some false).
Proof.
  unfold visit, getitem. cbn [dist_dict node_touched].
  destruct (D !! p) as [d|] eqn:Hd; [| exact I].
  cbn [mbind outcome_bind bind].
  destruct (decide (edges = [])) as [He | He].
  { unfold get_direct_links_to_any_package. rewrite He. exact I. }
  rewrite (direct_links edges p He). cbn [mbind outcome_bind bind].
  eapply unless_raised_bind; [apply untouched_total |]. intros ds [Hds Hdspec].
  eapply unless_raised_bind; [apply untouched_total |]. intros az [Haz Hazspec].
  simpl. split; [eauto |]. split; [| split; [done | split]].
  - intros k. destruct (_ >? _); [| done].
    destruct (decide (k = p)) as [-> | Hne];
      [rewrite lookup_insert_eq; split; eauto | by rewrite lookup_insert_ne].
  - intros q (nx & Hu & [[Hh Ht] | [Ht Hh]]).
    + rewrite <- Ht. apply Hds. apply used_links. done.
    + rewrite <- Hh. apply Haz. apply used_links. done.
  - exists (ds ++ az). split; [done |]. intros q.
    rewrite elem_of_app, Hdspec, Hazspec. split.
    + intros [(nx & [Hu Hh]%used_links & Ht & Hq) | (nx & [Hu Hh]%used_links & Ht & Hq)].
      * split; [| done]. exists nx. split; [done |]. left. done.
      * split; [| done]. exists nx. split; [done |]. right. done.
    + intros [(nx & Hu & [[Hh Ht] | [Ht Hh]]) Hq].
      * left. exists nx. split; [apply used_links; split; done | done].
      * right. exists nx. split; [apply used_links; split; done | done].
Qed.

Lemma sweep_total (L : Z) (Q : list string) :
  ∀ (s : search) (acc : list string),
    (∀ k, is_Some (dist_dict s !! k) → is_Some (node_touched s !! k)) →
    unless_raised (sweep edges include_root L Q (s, acc))
                  (swept edges include_root Q s acc).
Proof.
  induction Q as [|p Q IH]; intros s acc Hdom.
  - simpl. unfold swept. simpl.
    split; [done |]. split; [done |]. split; [done |]. split; [by left |].
    split; [by intros p ?%elem_of_nil |]. split; [by intros p q ?%elem_of_nil |].
    split; [by left | done].
  - cbn [sweep]. destruct s as [D T]. simpl in Hdom.
    eapply unless_raised_bind; [apply visit_total |].
    intros [[D1 T1] acc1] (HDp & HD1 & HT1 & Hnb & new & Hacc1 & Hnew).
    simpl in HD1, HT1, Hacc1. subst T1 acc1.
    destruct (Hdom p HDp) as [bp HTp].
    assert (Hdom1 : ∀ k, is_Some (D1 !! k) → is_Some (<[p := true]> T !! k)).
    { intros k Hk%HD1%Hdom. destruct (decide (k = p)) as [-> | Hne];
        [rewrite lookup_insert_eq | rewrite lookup_insert_ne by done]; eauto. }
    eapply unless_raised_weaken;
      [apply (IH (Search D1 (<[p := true]> T)) (acc ++ new) Hdom1) |].
    intros [[D2 T2] acc2] (Hd & Hmono & Hup & Hback & Hvis & Hcomp & Hsrc & Hkeep).
    unfold swept in *. simpl in *.
    assert (HT2p : T2 !! p = Some true) by (apply Hup; by rewrite lookup_insert_eq).
    split; [exact Hd |]. split; [| split; [| split; [| split; [| split; [| split]]]]].
    + intros k Hk%Hmono. destruct (decide (k = p)) as [-> | Hne];
        [by rewrite lookup_insert_eq in Hk | by rewrite lookup_insert_ne in Hk].
    + intros k Hk. apply Hup. destruct (decide (k = p)) as [-> | Hne];
        [by rewrite lookup_insert_eq | by rewrite lookup_insert_ne].
    + intros k Hk. destruct (decide (k = p)) as [-> | Hne]; [right; left |].
      destruct (Hback k Hk) as [Hk' | ?]; [| right; by right].
      left. by rewrite lookup_insert_ne in Hk'.
    + intros p' [-> | Hin]%elem_of_cons; [eauto |].
      destruct (Hvis _ Hin) as [Hs Ht]. split; [| done].
      destruct (decide (p' = p)) as [-> | Hne]; [eauto |].
      by rewrite lookup_insert_ne in Hs.
    + intros p' q [-> | Hin]%elem_of_cons Hadj; [| by eapply Hcomp].
      destruct (Hnb q Hadj) as [[] Hb].
      * left. by apply Hup.
      * right. apply Hkeep. apply elem_of_app. right. by apply Hnew.
    + intros q Hq. destruct (Hsrc q Hq) as [[Hin | Hin]%elem_of_app | [Hf (p' & Hp' & Hadj)]].
      * by left.
      * right. apply Hnew in Hin as [Hadj Hf]. split.
        -- destruct (decide (q = p)) as [-> | Hne];
             [by rewrite lookup_insert_eq in Hf | by rewrite lookup_insert_ne in Hf].
        -- exists p. split; [left | done].
      * right. split.
        -- destruct (decide (q = p)) as [-> | Hne];
             [by rewrite lookup_insert_eq in Hf | by rewrite lookup_insert_ne in Hf].
        -- exists p'. split; [by right | done].
    + intros q Hq. apply Hkeep. apply elem_of_app. by left.
Qed.

(** With more fuel than untouched keys, [rec_fun] never runs out of it. *)
Lemma rec_fun_total (fuel : nat) :
  ∀ (L : Z) (S0 : list string) (s : search),
    entry_inv edges include_root S0 s →
    (untouched_count (node_touched s) < fuel)%nat →
    rec_fun set_order edges include_root fuel S0 L s ≠ OutOfFuel.
Proof.
  induction fuel as [|fuel IH]; intros L S0 s [Hdom Hentry] Hfuel; [lia |].
  cbn [rec_fun]. pose proof (sweep_total L S0 s [] Hdom) as Hsweep.
  destruct (sweep edges include_root L S0 (s, [])) as [[s' acc'] | e |]; [| done | done].
  destruct Hsweep as (Hd & Hmono & Hup & Hback & Hvis & Hcomp & Hsrc & _). simpl in *.
  cbn [mbind outcome_bind bind].
  assert (Hnext : ∀ q, q ∈ set_order (list_to_set acc') ↔ q ∈ acc').
  { intros q. by rewrite set_order_enumerates, elem_of_list_to_set. }
  destruct (set_order (list_to_set acc')) as [|q0 next] eqn:Enext; [done |].
  apply IH.
  - split; [exact Hd |]. intros p Hp%Hnext Htp q Hadj.
    destruct (Hsrc p Hp) as [?%elem_of_nil | [Hfp _]]; [done |].
    destruct (Hback p Htp) as [? | HpS]; [congruence |].
    destruct (Hcomp p q HpS Hadj) as [? | Hq]; [by left |]. right. by apply Hnext.
  - assert (∃ p, node_touched s !! p = Some false ∧ node_touched s' !! p = Some true)
      as (p & Hf & Ht).
    { assert (Hq0 : q0 ∈ acc') by (apply Hnext; left).
      destruct (Hsrc q0 Hq0) as [?%elem_of_nil | [Hfq (p & Hp & Hadj)]]; [done |].
      destruct (Hvis p Hp) as [[[] Hbp] Htp]; [| eauto].
      destruct (Hentry p Hp Hbp q0 Hadj) as [? | Hin]; [congruence |].
      exists q0. split; [done |]. by apply Hvis. }
    pose proof (untouched_count_decreases (node_touched s) (node_touched s') p Hmono Hf)
      as Hdec.
    rewrite Ht in Hdec. specialize (Hdec ltac:(done)). lia.
Qed.

End Budget.

Lemma fresh_dict_value {A : Type} (v w : A) (nodes : list node) (ir : bool) (k : string) :
  fresh_dict v nodes ir !! k = Some w → w = v.
Proof.
  rewrite fresh_dict_lookup. destruct (decide _); [congruence |].
  destruct (ir && bool_decide (k = "root")); congruence.
Qed.

Lemma triples_total (D : gmap string Z) (keep : bool) (nodes : list node) :
  triples D keep nodes ≠ OutOfFuel.
Proof.
  induction nodes as [|x nodes IH]; [done |].
  cbn [triples]. unfold getitem. destruct (D !! lower x.1); [| done].
  cbn [mbind outcome_bind bind]. by destruct (triples D keep nodes).
Qed.

(** Whatever the input, [calc_node_distances] returns or raises: the
    depth allowed to [rec_fun] is never exhausted. *)
Lemma calc_node_distances_total (set_order : gset string → list string)
    (package_in : string) (nodes : list node) (edges : list edge) (include_root : bool)
    (keep : bool) (list_or_dict : string) :
  (∀ (X : gset string) k, k ∈ set_order X ↔ k ∈ X) →
  calc_node_distances set_order package_in nodes edges include_root keep list_or_dict
    ≠ OutOfFuel.
Proof.
  intros Henum. unfold calc_node_distances.
  destruct (decide _); [done |].
  pose proof (rec_fun_total set_order Henum edges include_root
                (S (size (fresh_dict start_distance nodes include_root))) 0
                [lower (lower package_in)]
                (Search (fresh_dict start_distance nodes include_root)
                        (fresh_dict false nodes include_root))) as Htotal.
  destruct (rec_fun _ _ _ _ _ _ _) as [s | e |]; [| done |].
  - cbn [mbind outcome_bind bind].
    pose proof (triples_total (dist_dict s) keep nodes) as Htr.
    destruct (triples _ _ _) as [l | e |]; [| done | done].
    cbn [mbind outcome_bind bind]. unfold getitem.
    destruct (decide _), include_root; try done;
      destruct (dist_dict s !! "root"); done.
  - exfalso. apply Htotal; [| | done].
    + split; simpl.
      * intros k Hk. erewrite fresh_dict_is_Some; eauto.
      * intros p _ Hp. by apply fresh_dict_value in Hp.
    + simpl. unfold untouched_count.
      pose proof (map_size_filter (λ kv : string * bool, kv.2 = false)
                    (fresh_dict false nodes include_root)) as Hle.
      rewrite (fresh_dict_size start_distance false). lia.
Qed.

(** *** Reading a result *)

Lemma assoc_triple_elem (x : node) (d : Z) (l : list (string * string * Z)) :
  assoc_triple x l = Some d → (x, d) ∈ l.
Proof.
  induction l as [|[y e] l IH]; simpl; [done |].
  destruct (decide (y = x)) as [-> | Hne].
  - intros [= ->]. left.
  - intros H. right. by apply IH.
Qed.

Lemma assoc_triple_first (x : node) (d : Z) (l : list (string * string * Z)) :
  (∀ d', (x, d') ∈ l → d' = d) → (x, d) ∈ l → assoc_triple x l = Some d.
Proof.
  induction l as [|[y e] l IH]; intros Hfun Hin; [by apply elem_of_nil in Hin |].
  simpl. destruct (decide (y = x)) as [-> | Hne].
  - f_equal. apply Hfun. left.
  - apply IH.
    + intros d' Hd'. apply Hfun. by right.
    + apply elem_of_cons in Hin as [[= <- <-] | Hin]; done.
Qed.

Lemma dict_of_snoc (l : list (string * string * Z)) (e : string * string * Z) :
  dict_of (l ++ [e]) = <[e.1 := e.2]> (dict_of l).
Proof. unfold dict_of. by rewrite foldl_app. Qed.

Lemma dict_of_elem (x : node) (d : Z) (l : list (string * string * Z)) :
  dict_of l !! x = Some d → (x, d) ∈ l.
Proof.
  induction l as [|[y e] l IH] using rev_ind; [done |].
  rewrite dict_of_snoc. simpl. destruct (decide (y = x)) as [-> | Hne].
  - rewrite lookup_insert_eq. intros [= ->]. apply elem_of_app. right. left.
  - rewrite lookup_insert_ne by done. intros H. apply elem_of_app. left. by apply IH.
Qed.

Lemma dict_of_last (x : node) (d : Z) (l : list (string * string * Z)) :
  (∀ d', (x, d') ∈ l → d' = d) → (x, d) ∈ l → dict_of l !! x = Some d.
Proof.
  induction l as [|[y e] l IH] using rev_ind; intros Hfun Hin; [by apply elem_of_nil in Hin |].
  rewrite dict_of_snoc. simpl. destruct (decide (y = x)) as [-> | Hne].
  - rewrite lookup_insert_eq. f_equal. apply Hfun. apply elem_of_app. right. left.
  - rewrite lookup_insert_ne by done. apply IH.
    + intros d' Hd'. apply Hfun. apply elem_of_app. by left.
    + apply elem_of_app in Hin as [Hin | [= <- <-]%list_elem_of_singleton]; done.
Qed.

(** Both shapes list the same entries. *)
Lemma distance_of_entries (D : gmap string Z) (l : list (string * string * Z))
    (r : node_distances) (x : node) (d : Z) :
  (∀ e, e ∈ l → D !! lower e.1.1 = Some e.2) →
  r = AsList l ∨ r = AsDict (dict_of l) →
  distance_of r x = Some d ↔ (x, d) ∈ l.
Proof.
  intros Hl Hr.
  assert (Hfun : (x, d) ∈ l → ∀ d', (x, d') ∈ l → d' = d).
  { intros H d' H'. apply Hl in H, H'. simpl in H, H'. congruence. }
  destruct Hr as [-> | ->]; simpl; split.
  - apply assoc_triple_elem.
  - intros H. by apply assoc_triple_first; [apply Hfun |].
  - apply dict_of_elem.
  - intros H. by apply dict_of_last; [apply Hfun |].
Qed.

Lemma triples_spec (D : gmap string Z) (keep : bool) (nodes : list node) :
  (∀ x, x ∈ nodes → is_Some (D !! lower x.1)) →
  ∃ l, triples D keep nodes = Return l ∧
       ∀ x d, (x, d) ∈ l ↔
              x ∈ nodes ∧ D !! lower x.1 = Some d ∧ (keep = true ∨ d > start_distance).
Proof.
  induction nodes as [|[n v] nodes IH]; intros Hall.
  - exists []. split; [done |]. intros x d. split.
    + by intros ?%elem_of_nil.
    + by intros [?%elem_of_nil _].
  - destruct IH as (l & Hl & Hspec); [intros x Hx; apply Hall; by right |].
    destruct (Hall (n, v)) as [d0 Hd0]; [left |]. simpl in Hd0.
    cbn [triples]. unfold getitem. simpl. rewrite Hd0. cbn [mbind outcome_bind bind].
    rewrite Hl. cbn [mbind outcome_bind bind].
    eexists. split; [reflexivity |]. intros x d.
    assert (Hcond : keep || (d0 >? start_distance) = true ↔ keep = true ∨ d0 > start_distance).
    { rewrite orb_true_iff. destruct (Z.gtb_spec d0 start_distance); split;
        intros [? | ?]; auto; try lia; try discriminate. }
    destruct (keep || (d0 >? start_distance)) eqn:E.
    + rewrite elem_of_cons, Hspec. split.
      * intros [[= -> ->] | (? & ? & ?)].
        -- split; [left | split; [done | by apply Hcond]].
        -- split; [by right | done].
      * intros ([-> | ?]%elem_of_cons & HD & Hk).
        -- left. simpl in HD. congruence.
        -- right. done.
    + rewrite Hspec. split.
      * intros (? & ? & ?). split; [by right | done].
      * intros ([-> | ?]%elem_of_cons & HD & Hk); [| done].
        simpl in HD. rewrite Hd0 in HD. injection HD as <-.
        apply Hcond in Hk. discriminate.
Qed.

(** *** The whole computation *)

Lemma calc_spec (set_order : gset string → list string)
    (nodes : list node) (edges : list edge) (include_root : bool)
    (package_in : string) (keep : bool) (list_or_dict : string) :
  (∀ (X : gset string) k, k ∈ set_order X ↔ k ∈ X) →
  edges ≠ [] →
  drawn_from_nodes nodes edges include_root →
  known nodes include_root (lower package_in) →
  ∃ s r,
    calc_node_distances set_order package_in nodes edges include_root keep list_or_dict
      = Return r ∧
    settled nodes edges include_root (lower package_in) s ∧
    ∀ x d, distance_of r x = Some d ↔
           dist_dict s !! lower x.1 = Some d ∧
           ((x ∈ nodes ∧ (keep = true ∨ d > start_distance)) ∨
            (include_root = true ∧ x = root_node)).
Proof.
  intros Henum Hne Hdrawn Hknown.
  destruct (walk_settles set_order Henum nodes edges include_root Hne Hdrawn
              (lower package_in) Hknown) as (s & Hrun & Hsettled).
  destruct (triples_spec (dist_dict s) keep nodes) as (l & Hl & Hlspec).
  { intros x Hx. destruct (Hsettled (lower x.1)) as (b & d & _ & HD & _);
      [by apply known_node | eauto]. }
  exists s. unfold calc_node_distances.
  rewrite decide_False by (intros Hnone; destruct Hknown as [? ?]; congruence).
  rewrite Hrun. cbn [mbind outcome_bind bind]. rewrite Hl. cbn [mbind outcome_bind bind].
  destruct include_root.
  - destruct (Hsettled "root") as (b & r & _ & HDr & _); [apply known_root |].
    unfold getitem. rewrite HDr. cbn [mbind outcome_bind bind].
    set (l' := l ++ [("root", "0.0.0", r)]).
    assert (Hl' : ∀ e, e ∈ l' → dist_dict s !! lower e.1.1 = Some e.2).
    { intros [x d] [Hin | ->%list_elem_of_singleton]%elem_of_app; [| exact HDr].
      by apply Hlspec in Hin as (_ & ? & _). }
    assert (Hin' : ∀ x d, (x, d) ∈ l' ↔
               dist_dict s !! lower x.1 = Some d ∧
               ((x ∈ nodes ∧ (keep = true ∨ d > start_distance)) ∨
                (true = true ∧ x = root_node))).
    { intros x d. subst l'. rewrite elem_of_app, Hlspec, list_elem_of_singleton. split.
      - intros [(? & ? & ?) | [= -> ->]]; [split; [done | by left] |].
        split; [exact HDr | by right].
      - intros [HD [[? ?] | [_ ->]]]; [by left |]. right.
        change (lower root_node.1) with "root" in HD. rewrite HDr in HD. by injection HD as ->. }
    exists (if decide (list_or_dict = "list") then AsList l' else AsDict (dict_of l')).
    split.
    { destruct (decide (list_or_dict = "list")); [reflexivity |].
      subst l'. by rewrite dict_of_snoc. }
    split; [done |]. intros x d. rewrite <- Hin'.
    apply (distance_of_entries (dist_dict s)); [done |].
    destruct (decide (list_or_dict = "list")); [by left | by right].
  - assert (Hl' : ∀ e, e ∈ l → dist_dict s !! lower e.1.1 = Some e.2).
    { intros [x d] Hin. by apply Hlspec in Hin as (_ & ? & _). }
    exists (if decide (list_or_dict = "list") then AsList l else AsDict (dict_of l)).
    split; [destruct (decide (list_or_dict = "list")); reflexivity |].
    split; [done |]. intros x d.
    transitivity ((x, d) ∈ l).
    + apply (distance_of_entries (dist_dict s)); [done |].
      destruct (decide (list_or_dict = "list")); [by left | by right].
    + rewrite Hlspec. split.
      * intros (? & ? & ?). split; [done | by left].
      * intros [? [[? ?] | [? _]]]; done.
Qed.

(** With no edges at all the first visit raises [InvalidEdges]. *)
Lemma calc_without_edges (set_order : gset string → list string)
    (nodes : list node) (include_root : bool)
    (package_in : string) (keep : bool) (list_or_dict : string) :
  known nodes include_root (lower package_in) →
  calc_node_distances set_order package_in nodes [] include_root keep list_or_dict
    = Raise InvalidEdges.
Proof.
  intros Hknown. unfold calc_node_distances.
  rewrite decide_False by (intros Hnone; destruct Hknown as [? ?]; congruence).
  cbn [rec_fun sweep]. unfold visit, getitem. cbn [dist_dict].
  rewrite lower_idem. destruct Hknown as [d ->]. reflexivity.
Qed.

(** *** Walks read backwards *)

Lemma adjacent_swap (edges : list edge) (ir : bool) (a b : string) :
  adjacent edges ir a b → adjacent edges ir b a.
Proof. intros (nx & Hnx & H). exists nx. split; [done |]. tauto. Qed.

Lemma hops_prepend (edges : list edge) (ir : bool) (o a k : string) (n : nat) :
  adjacent edges ir o a → hops edges ir a n k → hops edges ir o (S n) k.
Proof.
  intros Hadj Hw. induction Hw as [|n x y _ IH Hxy].
  - eapply hops_step; [constructor | done].
  - eapply hops_step; [exact IH | done].
Qed.

Lemma hops_reverse (edges : list edge) (ir : bool) (o k : string) (n : nat) :
  hops edges ir o n k → hops edges ir k n o.
Proof.
  intros Hw. induction Hw as [|n a b _ IH Hadj]; [constructor |].
  eapply hops_prepend; [by apply adjacent_swap | done].
Qed.

Lemma min_hops_reverse (edges : list edge) (ir : bool) (o k : string) (m : nat) :
  min_hops edges ir o m k → min_hops edges ir k m o.
Proof.
  intros [Hw Hmin]. split; [by apply hops_reverse |].
  intros m' Hw'. apply Hmin. by apply hops_reverse.
Qed.

(** *** The claims on the distance engine *)

Lemma filter_agree {A : Type} (P Q : A → Prop)
    `{!∀ x, Decision (P x)} `{!∀ x, Decision (Q x)} (l : list A) :
  (∀ x, x ∈ l → (P x ↔ Q x)) → filter P l = filter Q l.
Proof.
  induction l as [|a l IH]; intros Hagree; [done |].
  rewrite !filter_cons. rewrite IH by (intros x Hx; apply Hagree; by right).
  destruct (Hagree a) as [H1 H2]; [left |].
  destruct (decide (P a)), (decide (Q a)); tauto.
Qed.

Lemma used_edges_followed (edges : list edge) (include_root : bool) :
  (include_root = false → root_filter_exact edges) →
  used_edges edges include_root = followed_edges edges include_root.
Proof.
  intros Hexact. destruct include_root; [done |].
  unfold used_edges, followed_edges, without_root.
  apply filter_agree. intros nx Hnx. destruct (Hexact eq_refl nx Hnx) as [H1 H2]. split.
  - intros Hc Ht. apply H2 in Ht. congruence.
  - intros Hnt. destruct (contains "root" (str_edge nx)); [| done].
    exfalso. by apply Hnt, H1.
Qed.

Lemma hops_path (edges : list edge) (include_root : bool) (o k : string) (n : nat) :
  hops edges include_root o n k ↔ path (used_edges edges include_root) o n k.
Proof.
  split.
  - induction 1 as [|n a b _ IH Hadj]; [constructor |].
    eapply path_step; [exact IH | exact Hadj].
  - induction 1 as [|n a b _ IH Hlink]; [constructor |].
    eapply hops_step; [exact IH | exact Hlink].
Qed.

(** C1 (amended). For a non-empty edge collection on which, when
    [include_root] is unset, the ['root'] filter drops exactly the edges
    touching the root node, whose followed edges (all of them, or those
    not touching the root node) join keys of [dist_dict], and an origin
    that is such a key, the computation returns; every node with the
    origin's key gets 0; every node joined to the origin by followed edges
    has a minimum hop count, which is its distance when below 999; and
    with [keep_untouched_nodes] every node not joined is listed with
    -999. *)
Theorem origin_zero_and_minimum_hops (set_order : gset string → list string)
    (nodes : list node) (edges : list edge) (include_root : bool)
    (package_in : string) (keep : bool) (list_or_dict : string) :
  (∀ (X : gset string) k, k ∈ set_order X ↔ k ∈ X) →
  edges ≠ [] →
  (include_root = false → root_filter_exact edges) →
  (∀ nx, nx ∈ followed_edges edges include_root →
         known nodes include_root (head_key nx) ∧ known nodes include_root (tail_key nx)) →
  known nodes include_root (lower package_in) →
  ∃ r,
    calc_node_distances set_order package_in nodes edges include_root keep list_or_dict
      = Return r ∧
    (∀ x, x ∈ nodes → lower x.1 = lower package_in → distance_of r x = Some 0) ∧
    (∀ x, x ∈ nodes →
          joined (followed_edges edges include_root) (lower package_in) (lower x.1) →
          ∃ m, shortest (followed_edges edges include_root) (lower package_in) m (lower x.1) ∧
               ((m < 999)%nat → distance_of r x = Some (Z.of_nat m))) ∧
    (keep = true →
     ∀ x, x ∈ nodes →
          ¬ joined (followed_edges edges include_root) (lower package_in) (lower x.1) →
          distance_of r x = Some start_distance).
Proof.
  intros Henum Hne Hexact Hjoin Hknown.
  pose proof (used_edges_followed edges include_root Hexact) as Heq.
  assert (Hdrawn : drawn_from_nodes nodes edges include_root).
  { intros nx Hnx. apply Hjoin. by rewrite <- Heq. }
  assert (Hpath : ∀ n k, hops edges include_root (lower package_in) n k ↔
                         path (followed_edges edges include_root) (lower package_in) n k).
  { intros n k. rewrite <- Heq. apply hops_path. }
  destruct (calc_spec set_order nodes edges include_root package_in keep list_or_dict
              Henum Hne Hdrawn Hknown) as (s & r & Hrun & Hsettled & Hread).
  exists r. split; [exact Hrun |].
  assert (Hconn : ∀ x, x ∈ nodes →
            joined (followed_edges edges include_root) (lower package_in) (lower x.1) →
            ∃ m, shortest (followed_edges edges include_root) (lower package_in) m
                   (lower x.1) ∧
                 ((m < 999)%nat → distance_of r x = Some (Z.of_nat m))).
  { intros x Hx [n Hn].
    destruct (Hsettled (lower x.1)) as (b & d & _ & HD & Hb & _ & Ht); [by apply known_node |].
    destruct Ht as (m & [Hw Hmin] & ->); [apply Hb; exists n; by apply Hpath |].
    exists m. split.
    - split; [by apply Hpath |]. intros m' Hm'. by apply Hmin, Hpath.
    - intros Hm. apply Hread.
      unfold recorded in HD. rewrite (proj2 (Nat.ltb_lt m 999) Hm) in HD.
      split; [done |]. left. split; [done |]. right. unfold start_distance. lia. }
  split; [| split].
  - intros x Hx Hkey.
    destruct (Hconn x Hx) as (m & [Hw Hmin] & Hm).
    { rewrite Hkey. exists 0%nat. constructor. }
    assert (m = 0%nat) as ->.
    { rewrite Hkey in Hmin. specialize (Hmin 0%nat (path_here _ _)). lia. }
    apply Hm. lia.
  - exact Hconn.
  - intros -> x Hx Hnc.
    destruct (Hsettled (lower x.1)) as (b & d & _ & HD & Hb & Hf & _); [by apply known_node |].
    destruct b.
    + exfalso. apply Hnc. destruct (proj1 Hb eq_refl) as [n Hn]. exists n. by apply Hpath.
    + apply Hread. rewrite Hf in HD by done. split; [done |]. left. split; [done | by left].
Qed.

Lemma chain_drawn_from_nodes (ir : bool) :
  drawn_from_nodes Examples.chain_nodes Examples.chain_edges ir.
Proof.
  intros nx Hnx.
  assert (Hin : nx ∈ Examples.chain_edges).
  { destruct ir; [exact Hnx |]. unfold used_edges, without_root in Hnx.
    by apply list_elem_of_filter in Hnx as [_ ?]. }
  unfold Examples.chain_edges in Hin.
  apply elem_of_cons in Hin as [-> | Hin];
    [split; unfold known; destruct ir; vm_compute; eauto |].
  apply elem_of_cons in Hin as [-> | Hin];
    [split; unfold known; destruct ir; vm_compute; eauto |].
  by apply elem_of_nil in Hin.
Qed.

Lemma origin_zero_witness :
  ∃ r, calc_node_distances elements "A" Examples.chain_nodes Examples.rooted_edges false
         true "list" = Return r ∧
       distance_of r ("a", "1") = Some 0.
Proof.
  destruct (origin_zero_and_minimum_hops elements Examples.chain_nodes Examples.rooted_edges
              false "A" true "list") as (r & Hr & H0 & _).
  - intros X k. apply elem_of_elements.
  - discriminate.
  - intros _ nx Hnx. unfold Examples.rooted_edges, Examples.chain_edges in Hnx.
    apply elem_of_cons in Hnx as [-> | Hnx]; [split; [by left | reflexivity] |].
    apply elem_of_cons in Hnx as [-> | Hnx];
      [split; [discriminate | intros [H | H]; discriminate H] |].
    apply elem_of_cons in Hnx as [-> | Hnx];
      [split; [discriminate | intros [H | H]; discriminate H] |].
    by apply elem_of_nil in Hnx.
  - intros nx Hnx. apply (chain_drawn_from_nodes false nx).
    change (nx ∈ Examples.chain_edges). exact Hnx.
  - unfold known. vm_compute. eauto.
  - exists r. split; [exact Hr |]. apply H0; [left | reflexivity].
Defined.

(** C1, as stated, fails: with an empty edge collection the origin gets
    no distance, the first visit raises [InvalidEdges]. *)
Lemma empty_edges_give_no_distance :
  ¬ ∃ r, calc_node_distances elements "a" [("a", "1")] [] false false "list" = Return r ∧
         distance_of r ("a", "1") = Some 0.
Proof. intros (r & Hr & _). vm_compute in Hr. discriminate. Qed.

(** [root_filter_exact] sets aside the graphs on which the filter drops
    an edge between two packages: the rootpy edge is one. *)
Lemma rootpy_edge_is_outside_the_proviso : ¬ root_filter_exact Examples.one_edge.
Proof.
  intros H. destruct (H (("rootpy", "4.0"), ("numpy", "1.9"))) as [H1 _]; [left |].
  destruct H1 as [H1 | H1]; [reflexivity | discriminate H1 | discriminate H1].
Qed.

(** C8. On a graph whose edges in use join keys of [dist_dict], for nodes
    [A] and [B] of the collection and the same settings, the distance the
    run from [A] assigns to [B] is the one the run from [B] assigns to
    [A] (a node left out of a result being unreached, -999).  The two
    entries are equal as read from the results, present or absent alike,
    except possibly for the root node when [include_root] is set and
    unreached nodes are not kept, whose entry is always added.  Without
    edges both runs raise [InvalidEdges]. *)
Theorem distance_is_symmetric (set_order : gset string → list string)
    (nodes : list node) (edges : list edge) (include_root : bool)
    (keep : bool) (list_or_dict : string) (A B : node) :
  (∀ (X : gset string) k, k ∈ set_order X ↔ k ∈ X) →
  drawn_from_nodes nodes edges include_root →
  A ∈ nodes → B ∈ nodes →
  let run := λ X : node,
    calc_node_distances set_order X.1 nodes edges include_root keep list_or_dict in
  (edges = [] → run A = Raise InvalidEdges ∧ run B = Raise InvalidEdges) ∧
  (edges ≠ [] →
   ∃ rA rB, run A = Return rA ∧ run B = Return rB ∧
            assigned rA B = assigned rB A ∧
            (keep = true ∨ include_root = false ∨ (A ≠ root_node ∧ B ≠ root_node) →
             distance_of rA B = distance_of rB A)).
Proof.
  intros Henum Hdrawn HA HB run. subst run. cbn beta.
  pose proof (known_node nodes include_root A HA) as HkA.
  pose proof (known_node nodes include_root B HB) as HkB.
  split.
  { intros ->. split; apply calc_without_edges; done. }
  intros Hne.
  destruct (calc_spec set_order nodes edges include_root A.1 keep list_or_dict
              Henum Hne Hdrawn HkA) as (sA & rA & HrunA & HsetA & HreadA).
  destruct (calc_spec set_order nodes edges include_root B.1 keep list_or_dict
              Henum Hne Hdrawn HkB) as (sB & rB & HrunB & HsetB & HreadB).
  exists rA, rB. split; [exact HrunA |]. split; [exact HrunB |].
  destruct (HsetA (lower B.1) HkB) as (bA & dA & _ & HDA & HbA & HfA & HtA).
  destruct (HsetB (lower A.1) HkA) as (bB & dB & _ & HDB & HbB & HfB & HtB).
  assert (Hsame : dA = dB ∧ start_distance ≤ dA).
  { destruct bA, bB.
    - destruct HtA as (mA & HminA & ->); [done |].
      destruct HtB as (mB & HminB & ->); [done |].
      apply min_hops_reverse in HminB.
      rewrite (min_hops_unique edges include_root _ _ _ _ HminA HminB).
      split; [done |]. unfold recorded, start_distance. destruct (_ <? _)%nat; lia.
    - exfalso. destruct HbA as [HbA _]. destruct (HbA eq_refl) as [n Hw].
      assert (false = true); [| done]. apply HbB. exists n. by apply hops_reverse.
    - exfalso. destruct HbB as [HbB _]. destruct (HbB eq_refl) as [n Hw].
      assert (false = true); [| done]. apply HbA. exists n. by apply hops_reverse.
    - rewrite HfA, HfB by done. split; [done | lia]. }
  destruct Hsame as [<- Hlow].
  assert (HA' : ∀ C : Prop, C → (A ∈ nodes ∧ C ∨ include_root = true ∧ A = root_node)) by auto.
  assert (HB' : ∀ C : Prop, C → (B ∈ nodes ∧ C ∨ include_root = true ∧ B = root_node)) by auto.
  assert (HsomeA : ∀ d, distance_of rA B = Some d → d = dA).
  { intros d [Hd _]%HreadA. congruence. }
  assert (HsomeB : ∀ d, distance_of rB A = Some d → d = dA).
  { intros d [Hd _]%HreadB. congruence. }
  assert (HnoneA : distance_of rA B = None → keep = false ∧ dA = start_distance ∧
                    (include_root = true → B ≠ root_node)).
  { intros Hn. assert (Hno : ¬ distance_of rA B = Some dA) by congruence.
    rewrite HreadA in Hno. repeat split.
    - destruct keep; [| done]. exfalso. apply Hno. split; [done |]. left. auto.
    - destruct (decide (dA > start_distance)); [| lia].
      exfalso. apply Hno. split; [done |]. left. auto.
    - intros -> ->. apply Hno. split; [done |]. by right. }
  assert (HnoneB : distance_of rB A = None → keep = false ∧ dA = start_distance ∧
                    (include_root = true → A ≠ root_node)).
  { intros Hn. assert (Hno : ¬ distance_of rB A = Some dA) by congruence.
    rewrite HreadB in Hno. repeat split.
    - destruct keep; [| done]. exfalso. apply Hno. split; [done |]. left. auto.
    - destruct (decide (dA > start_distance)); [| lia].
      exfalso. apply Hno. split; [done |]. left. auto.
    - intros -> ->. apply Hno. split; [done |]. by right. }
  unfold assigned.
  destruct (distance_of rA B) as [a|] eqn:EA; destruct (distance_of rB A) as [b|] eqn:EB.
  - rewrite (HsomeA a eq_refl), (HsomeB b eq_refl). done.
  - pose proof (HsomeA a eq_refl) as ->. destruct (HnoneB eq_refl) as (Hk & Hd & Hr).
    split; [simpl; lia |]. intros Hcases. exfalso.
    apply HreadA in EA as [_ [[_ [? | ?]] | [Hir ->]]]; [congruence | lia |].
    destruct Hcases as [? | [? | [_ ?]]]; congruence.
  - pose proof (HsomeB b eq_refl) as ->. destruct (HnoneA eq_refl) as (Hk & Hd & Hr).
    split; [simpl; lia |]. intros Hcases. exfalso.
    apply HreadB in EB as [_ [[_ [? | ?]] | [Hir ->]]]; [congruence | lia |].
    destruct Hcases as [? | [? | [? _]]]; congruence.
  - done.
Qed.

Lemma distance_is_symmetric_witness :
  ∃ rA rB,
    calc_node_distances elements "a" Examples.chain_nodes Examples.chain_edges false
      false "dict" = Return rA ∧
    calc_node_distances elements "c" Examples.chain_nodes Examples.chain_edges false
      false "dict" = Return rB ∧
    distance_of rA ("c", "3") = distance_of rB ("a", "1").
Proof.
  destruct (distance_is_symmetric elements Examples.chain_nodes Examples.chain_edges
              false false "dict" ("a", "1") ("c", "3")) as [_ H].
  - intros X k. apply elem_of_elements.
  - apply chain_drawn_from_nodes.
  - left.
  - right. right. left.
  - destruct H as (rA & rB & HA & HB & _ & Heq); [discriminate |].
    exists rA, rB. split; [exact HA |]. split; [exact HB |]. apply Heq. right. by left.
Defined.

(** C5 fails on the code: the only edge of this graph joins the packages
    rootpy and numpy, neither of which is the root node, yet with
    [include_root] unset it is dropped, and rootpy stays unreached. *)
Theorem edge_of_rootpy_is_dropped :
  head_key (("rootpy", "4.0"), ("numpy", "1.9")) ≠ "root" ∧
  tail_key (("rootpy", "4.0"), ("numpy", "1.9")) ≠ "root" ∧
  without_root Examples.one_edge = [] ∧
  calc_node_distances elements "numpy" Examples.two_nodes Examples.one_edge false true "list"
    = Return (AsList [("rootpy", "4.0", -999); ("numpy", "1.9", 0)]).
Proof. vm_compute. repeat split; discriminate. Qed.

(** A manifest entry with constraints but no [==] among them makes the
    comparison raise. *)
Example range_only_entry_raises :
  Requirements.compare_req_file_to_env elements
    (Some [Requirements.Requirement "b" "b" [(">=", "2.0")]])
    {[ "b" := Package.init "b" (Some "3.0") ]}
  = Raise IndexError.
Proof. vm_compute. reflexivity. Qed.

(** *** Names that contain "root" *)

Lemma prefix_append (n a b : string) :
  String.prefix n a = true → String.prefix n (a +:+ b) = true.
Proof.
  revert a. induction n as [|c n IH]; intros a; [by destruct (a +:+ b) |].
  destruct a as [|d a]; simpl; [done |].
  destruct (ascii_dec c d); [apply IH | done].
Qed.

Lemma contains_append_l (n a b : string) :
  contains n a = true → contains n (a +:+ b) = true.
Proof.
  induction a as [|c a IH].
  - simpl. rewrite orb_false_r. intros H.
    destruct n; [by destruct b | done].
  - cbn [contains String.append]. intros [H | H]%orb_true_iff; apply orb_true_iff.
    + left. by apply (prefix_append n (String c a) b).
    + right. by apply IH.
Qed.

Lemma contains_append_r (n a b : string) :
  contains n b = true → contains n (a +:+ b) = true.
Proof.
  intros H. induction a as [|c a IH]; [done |].
  cbn [contains String.append]. apply orb_true_iff. by right.
Qed.

Lemma repr_body_keeps_root (quote : ascii) (s : string) :
  quote = squote ∨ quote = dquote →
  contains "root" s = true → contains "root" (repr_body quote s) = true.
Proof.
  intros Hq. induction s as [|c s IH]; [done |].
  cbn [contains repr_body]. intros [H | H]%orb_true_iff.
  - revert H. destruct s as [|c2 [|c3 [|c4 t]]]; cbn [String.prefix];
      repeat (destruct (ascii_dec _ _) as [<- |]; try done).
    intros _. destruct Hq as [-> | ->]; cbn; by destruct (repr_body _ t).
  - apply contains_append_r. by apply IH.
Qed.

Lemma repr_keeps_root (s : string) :
  contains "root" s = true → contains "root" (repr s) = true.
Proof.
  intros H. unfold repr.
  set (quote := if has_char squote s && negb (has_char dquote s) then dquote else squote).
  assert (Hq : quote = squote ∨ quote = dquote).
  { subst quote. destruct (_ && _); auto. }
  change (String quote (repr_body quote s) +:+ String quote "")
    with (String quote "" +:+ (repr_body quote s +:+ String quote "")).
  apply contains_append_r, contains_append_l. by apply repr_body_keeps_root.
Qed.

(** With [include_root] unset, every edge one of whose two package names
    contains "root" is dropped, whether or not it touches the root
    node. *)
Lemma name_containing_root_is_dropped (links : list edge) (nx : edge) :
  contains "root" nx.1.1 = true ∨ contains "root" nx.2.1 = true →
  nx ∉ without_root links.
Proof.
  intros Hname [Hkept _]%list_elem_of_filter.
  assert (contains "root" (str_edge nx) = true) as Hin; [| congruence].
  unfold str_edge, str_pair. destruct Hname as [H | H].
  - apply contains_append_r, contains_append_l, contains_append_r, contains_append_l.
    by apply repr_keeps_root.
  - do 3 apply contains_append_r. apply contains_append_l, contains_append_r, contains_append_l.
    by apply repr_keeps_root.
Qed.

(** *** Beyond 998 hops *)

(** A node connected to the origin at 999 hops or more keeps the initial
    -999: no level that high passes [abs(dist_dict[p]) > cur_level]. *)
Lemma far_nodes_keep_start_distance (set_order : gset string → list string)
    (nodes : list node) (edges : list edge) (include_root : bool)
    (package_in : string) (list_or_dict : string) :
  (∀ (X : gset string) k, k ∈ set_order X ↔ k ∈ X) →
  edges ≠ [] →
  drawn_from_nodes nodes edges include_root →
  known nodes include_root (lower package_in) →
  ∃ r,
    calc_node_distances set_order package_in nodes edges include_root true list_or_dict
      = Return r ∧
    ∀ x m, x ∈ nodes → min_hops edges include_root (lower package_in) m (lower x.1) →
           (999 ≤ m)%nat → distance_of r x = Some start_distance.
Proof.
  intros Henum Hne Hdrawn Hknown.
  destruct (calc_spec set_order nodes edges include_root package_in true list_or_dict
              Henum Hne Hdrawn Hknown) as (s & r & Hrun & Hsettled & Hread).
  exists r. split; [exact Hrun |]. intros x m Hx Hmin Hm.
  destruct (Hsettled (lower x.1)) as (b & d & _ & HD & Hb & Hf & Ht); [by apply known_node |].
  apply Hread. split; [| left; split; [done | by left]].
  destruct b; [| by rewrite Hf in HD].
  destruct Ht as (m' & Hmin' & ->); [done |].
  rewrite (min_hops_unique edges include_root _ _ _ _ Hmin' Hmin) in HD.
  unfold recorded in HD. by rewrite (proj2 (Nat.ltb_ge m 999) Hm) in HD.
Qed.

(** * Further properties of the module *)

(** ** Direct links *)

(** For a non-empty edge collection the static lookup returns, in edge
    order, the edges whose second node carries the package's key and
    those whose first node does, comparing names without regard to
    case. *)
Theorem direct_links_select_by_lowered_name (package : string) (edges : list edge) :
  edges ≠ [] →
  ∃ anc dec,
    get_direct_links_to_any_package package edges = Return (anc, dec) ∧
    get_direct_links_to_any_package (lower package) edges = Return (anc, dec) ∧
    anc `sublist_of` edges ∧ dec `sublist_of` edges ∧
    (∀ nx, nx ∈ anc ↔ nx ∈ edges ∧ lower nx.2.1 = lower package) ∧
    (∀ nx, nx ∈ dec ↔ nx ∈ edges ∧ lower nx.1.1 = lower package).
Proof.
  intros Hne. eexists _, _. split; [by apply direct_links |].
  split; [rewrite direct_links by done; by rewrite lower_idem |].
  split; [apply sublist_filter |]. split; [apply sublist_filter |].
  split; intros nx; rewrite list_elem_of_filter; unfold tail_key, head_key;
    (split; intros [? ?]; split; done).
Qed.

Lemma direct_links_witness :
  ∃ anc dec,
    get_direct_links_to_any_package "NumPy" Examples.one_edge = Return (anc, dec) ∧
    ∀ nx, nx ∈ anc ↔ nx ∈ Examples.one_edge ∧ lower nx.2.1 = lower "NumPy".
Proof.
  destruct (direct_links_select_by_lowered_name "NumPy" Examples.one_edge)
    as (anc & dec & H & _ & _ & _ & Ha & _); [discriminate |].
  exists anc, dec. split; [exact H | exact Ha].
Defined.

(** ** The shape of a distance result *)

Lemma triples_kept (D : gmap string Z) (nodes : list node) (l : list (string * string * Z)) :
  triples D true nodes = Return l → l.*1 = nodes.
Proof.
  revert l. induction nodes as [|[n v] nodes IH]; intros l; cbn [triples].
  - by intros [= <-].
  - unfold getitem. destruct (D !! lower (n, v).1); [| done].
    cbn [mbind outcome_bind bind].
    destruct (triples D true nodes) as [more | |]; [| done | done].
    cbn [mbind outcome_bind bind orb]. intros [= <-]. simpl. f_equal. by apply IH.
Qed.

Lemma triples_dropped (D : gmap string Z) (nodes : list node) (l : list (string * string * Z)) :
  triples D false nodes = Return l →
  l.*1 `sublist_of` nodes ∧ ∀ e, e ∈ l → e.2 > start_distance.
Proof.
  revert l. induction nodes as [|[n v] nodes IH]; intros l; cbn [triples].
  - intros [= <-]. split; [done |]. by intros e ?%elem_of_nil.
  - unfold getitem. destruct (D !! lower (n, v).1) as [d|]; [| done].
    cbn [mbind outcome_bind bind].
    destruct (triples D false nodes) as [more | |]; [| done | done].
    destruct (IH more eq_refl) as [Hsub Hgt].
    cbn [mbind outcome_bind bind orb].
    destruct (Z.gtb_spec d start_distance) as [Hd | Hd]; intros [= <-].
    + split; [simpl; by constructor |].
      intros e [-> | He]%elem_of_cons; [simpl; lia | by apply Hgt].
    + split; [by constructor | done].
Qed.

(** Whenever [calc_node_distances] returns a list with
    [keep_untouched_nodes] set: if the origin is not a key of
    [dist_dict] the list is empty; otherwise it has exactly one entry per
    node, in the order of the node collection, followed by the root entry
    when [include_root] is set. *)
Theorem kept_list_follows_the_nodes (set_order : gset string → list string)
    (package_in : string) (nodes : list node) (edges : list edge) (include_root : bool)
    (l : list (string * string * Z)) :
  calc_node_distances set_order package_in nodes edges include_root true "list"
    = Return (AsList l) →
  (¬ known nodes include_root (lower package_in) ∧ l = []) ∨
  (known nodes include_root (lower package_in) ∧
   l.*1 = nodes ++ (if include_root then [root_node] else [])).
Proof.
  unfold calc_node_distances, known.
  destruct (decide (fresh_dict start_distance nodes include_root !! lower package_in = None))
    as [Hnone | Hsome].
  - rewrite decide_True by done. intros [= <-]. left. split; [| done].
    rewrite Hnone. by intros [? ?].
  - intros Hrun. right. split; [by destruct (_ !! lower package_in); [eexists |] |].
    revert Hrun.
    destruct (rec_fun _ _ _ _ _ _ _) as [s | |]; [| done | done].
    cbn [mbind outcome_bind bind].
    destruct (triples (dist_dict s) true nodes) as [l0 | |] eqn:Hl0; [| done | done].
    apply triples_kept in Hl0. cbn [mbind outcome_bind bind].
    rewrite decide_True by done. destruct include_root.
    + unfold getitem. destruct (dist_dict s !! "root"); [| done].
      cbn [mbind outcome_bind bind]. intros [= <-]. by rewrite fmap_app, Hl0.
    + intros [= <-]. by rewrite app_nil_r.
Qed.

Lemma kept_list_witness :
  ∃ l, calc_node_distances elements "a" Examples.chain_nodes Examples.chain_edges true
         true "list" = Return (AsList l) ∧
       l.*1 = Examples.chain_nodes ++ [root_node].
Proof.
  destruct (calc_node_distances elements "a" Examples.chain_nodes Examples.chain_edges true
              true "list") as [[l | m] | |] eqn:E; try (vm_compute in E; discriminate).
  exists l. split; [reflexivity |].
  destruct (kept_list_follows_the_nodes elements "a" Examples.chain_nodes
              Examples.chain_edges true l E) as [[Hunknown _] | [_ H]]; [| exact H].
  exfalso. apply Hunknown. unfold known. vm_compute. eauto.
Defined.

(** Whenever [calc_node_distances] returns a list with
    [keep_untouched_nodes] unset: if the origin is not a key of
    [dist_dict] the list is empty, without a root entry; otherwise the
    entries before the root entry are nodes of the collection in their
    order, each with a distance above -999, and the root entry, added
    last when [include_root] is set, is the only one that can carry
    -999. *)
Theorem dropped_list_has_no_sentinel_but_root (set_order : gset string → list string)
    (package_in : string) (nodes : list node) (edges : list edge) (include_root : bool)
    (l : list (string * string * Z)) :
  calc_node_distances set_order package_in nodes edges include_root false "list"
    = Return (AsList l) →
  (¬ known nodes include_root (lower package_in) ∧ l = []) ∨
  (known nodes include_root (lower package_in) ∧
   ∃ l0, l0.*1 `sublist_of` nodes ∧ (∀ e, e ∈ l0 → e.2 > start_distance) ∧
         if include_root then ∃ r, l = l0 ++ [(root_node, r)] else l = l0).
Proof.
  unfold calc_node_distances, known.
  destruct (decide (fresh_dict start_distance nodes include_root !! lower package_in = None))
    as [Hnone | Hsome].
  - rewrite decide_True by done. intros [= <-]. left. split; [| done].
    rewrite Hnone. by intros [? ?].
  - intros Hrun. right. split; [by destruct (_ !! lower package_in); [eexists |] |].
    revert Hrun.
    destruct (rec_fun _ _ _ _ _ _ _) as [s | |]; [| done | done].
    cbn [mbind outcome_bind bind].
    destruct (triples (dist_dict s) false nodes) as [l0 | |] eqn:Hl0; [| done | done].
    apply triples_dropped in Hl0 as [Hsub Hgt]. cbn [mbind outcome_bind bind].
    rewrite decide_True by done. destruct include_root.
    + unfold getitem. destruct (dist_dict s !! "root") as [r|]; [| done].
      cbn [mbind outcome_bind bind]. intros [= <-]. exists l0. eauto.
    + intros [= <-]. exists l0. eauto.
Qed.

Lemma dropped_list_witness :
  ∃ l, calc_node_distances elements "a" Examples.chain_nodes Examples.chain_edges false
         false "list" = Return (AsList l) ∧
       ∃ l0, l0.*1 `sublist_of` Examples.chain_nodes ∧
             (∀ e, e ∈ l0 → e.2 > start_distance) ∧ l = l0.
Proof.
  destruct (calc_node_distances elements "a" Examples.chain_nodes Examples.chain_edges false
              false "list") as [[l | m] | |] eqn:E; try (vm_compute in E; discriminate).
  exists l. split; [reflexivity |].
  destruct (dropped_list_has_no_sentinel_but_root elements "a" Examples.chain_nodes
              Examples.chain_edges false l E) as [[Hunknown _] | [_ H]]; [| exact H].
  exfalso. apply Hunknown. unfold known. vm_compute. eauto.
Defined.

(** ** More on the version classifier *)

Lemma lookup_has_last (release_ids : string → option (list string))
    (loose_sort : list string → list string) (package : string) (versions : list string) :
  Versions.get_package_versions_from_pypi release_ids loose_sort package = Some versions →
  ∃ latest_version, last versions = Some latest_version.
Proof.
  unfold Versions.get_package_versions_from_pypi.
  destruct (release_ids package) as [rels|]; [| discriminate].
  destruct (loose_sort rels) as [|x l] eqn:E; [discriminate |].
  intros [= <-]. destruct (last (x :: l)) eqn:El; [eauto |].
  by apply last_None in El.
Qed.

Lemma lookup_failure_witness :
  Examples.classify "unknown" (Some "1.0") =
    Return (Versions.Verdict (Versions.Status None None) (Versions.Status None None) (-1)).
Proof.
  apply (lookup_failure Examples.pkg_index Versions.lenient_sort
           Versions.lenient_gt Versions.lenient_lt "unknown" (Some "1.0")).
  reflexivity.
Defined.

Lemma single_segment_witness : Examples.classify "pkg" (Some "1") = Raise IndexError.
Proof.
  apply (single_segment_raises Examples.pkg_index Versions.lenient_sort
           Versions.lenient_gt Versions.lenient_lt
           "pkg" "1" ["1.0.0"; "1.5.0"; "2.0.0"] "2.0.0"); reflexivity.
Defined.

Lemma split_dot_nonempty (s : string) : ∃ h t, split_dot s = h :: t.
Proof.
  induction s as [|c s (h & t & IH)]; simpl; [eauto |].
  destruct (Ascii.eqb c "."); [eauto |]. rewrite IH. eauto.
Qed.

Lemma same_major_minor_filter (major_v minor_v : string) (versions l : list string) :
  Versions.same_major_minor major_v minor_v versions = Return l →
  l = filter (λ x, split_dot x !! 0%nat = Some major_v ∧ split_dot x !! 1%nat = Some minor_v)
             versions.
Proof.
  revert l. induction versions as [|x versions IH]; intros l; cbn [Versions.same_major_minor].
  - by intros [= <-].
  - destruct (split_dot_nonempty x) as (a & t & Hx). unfold index. rewrite Hx.
    cbn [lookup list_lookup mbind outcome_bind bind].
    rewrite filter_cons, Hx. cbn [lookup list_lookup].
    destruct (decide (a = major_v)) as [-> | Hne].
    + destruct t as [|b t]; cbn [lookup list_lookup mbind outcome_bind bind]; [done |].
      destruct (Versions.same_major_minor major_v minor_v versions) as [more | |];
        [| done | done].
      cbn [mbind outcome_bind bind]. rewrite (IH more eq_refl).
      destruct (decide (b = minor_v)) as [-> | Hb].
      * rewrite bool_decide_eq_true_2 by done. intros [= <-].
        by rewrite decide_True.
      * rewrite bool_decide_eq_false_2 by done. intros [= <-].
        rewrite decide_False; [done |]. intros [_ [= ?]]. done.
    + cbn [mbind outcome_bind bind].
      destruct (Versions.same_major_minor major_v minor_v versions) as [more | |];
        [| done | done].
      cbn [mbind outcome_bind bind]. rewrite (IH more eq_refl). intros [= <-].
      rewrite decide_False; [done |]. intros [[= ?] _]. done.
Qed.

Lemma same_major_minor_returns (major_v minor_v : string) (versions : list string) :
  Forall (λ x, (2 ≤ length (split_dot x))%nat) versions →
  ∃ l, Versions.same_major_minor major_v minor_v versions = Return l.
Proof.
  induction 1 as [|x versions Hx _ (more & IH)]; cbn [Versions.same_major_minor]; [eauto |].
  unfold index. destruct (split_dot x) as [|a [|b t]]; simpl in Hx; try lia.
  cbn [lookup list_lookup mbind outcome_bind bind]. rewrite IH.
  destruct (decide (a = major_v)); cbn [lookup list_lookup mbind outcome_bind bind]; eauto.
Qed.

Section ClassifierMore.

Import Versions.

Variable release_ids : string → option (list string).
Variable loose_sort : list string → list string.
Variable version_gt version_lt : string → string → bool.

Let lookup := get_package_versions_from_pypi release_ids loose_sort.
Let check := check_latest_major_minor_versions release_ids loose_sort version_gt version_lt.

(** When the installed version, if given, and every version of the index
    have at least two dot-separated segments, the classifier returns a
    verdict, and its status code is -1, 0, 1 or 999. *)
Theorem dotted_versions_never_raise (package : string) (version : option string) :
  (∀ v, version = Some v → (2 ≤ length (split_dot v))%nat) →
  (∀ versions, lookup package = Some versions →
               Forall (λ x, (2 ≤ length (split_dot x))%nat) versions) →
  ∃ r, check package version = Return r ∧
       (code r = -1 ∨ code r = 0 ∨ code r = 1 ∨ code r = 999).
Proof.
  intros Hv Hix. unfold check, check_latest_major_minor_versions.
  fold (lookup package). destruct (lookup package) as [versions|] eqn:Hl; [| eauto].
  destruct (lookup_has_last release_ids loose_sort package versions Hl) as [lv Hlast].
  unfold index_last. rewrite Hlast. cbn [mbind outcome_bind bind].
  destruct version as [v|]; [| simpl; eauto].
  destruct (version_gt v lv); [simpl; eauto 6 |].
  destruct (version_lt v lv); [| simpl; eauto 6].
  specialize (Hv v eq_refl). unfold index.
  destruct (split_dot v) as [|a [|b t]]; simpl in Hv; try lia.
  simpl. destruct (same_major_minor_returns a b versions (Hix versions eq_refl)) as [l ->].
  simpl. destruct (last l); simpl; eauto 6.
Qed.

(** An installed version that is neither above nor below the last
    version of the index is up to date: status 0, nothing outdated, both
    latest fields the last version of the index. *)
Theorem level_with_latest_is_status_0 (package version : string)
    (versions : list string) (latest_version : string) :
  lookup package = Some versions →
  last versions = Some latest_version →
  version_gt version latest_version = false →
  version_lt version latest_version = false →
  check package (Some version) =
    Return (Verdict (Status (Some false) (Some latest_version))
                    (Status (Some false) (Some latest_version)) 0).
Proof.
  unfold lookup, check, check_latest_major_minor_versions, index_last.
  intros -> -> Hgt Hlt. simpl. by rewrite Hgt, Hlt.
Qed.

(** In every verdict returned for an installed version, status 1 goes
    with major outdated, and then: major's latest is the last version of
    the index; minor's latest, when there is one, is the last version of
    the index whose first two segments are those of the installed
    version, and minor is outdated exactly when the installed version is
    below it; when there is none, minor's outdated flag is unknown. *)
Theorem status_1_verdict (package version : string)
    (versions : list string) (latest_version : string) (r : verdict) :
  lookup package = Some versions →
  last versions = Some latest_version →
  check package (Some version) = Return r →
  (code r = 1 ↔ outdated (major_version r) = Some true) ∧
  (code r = 1 →
   latest (major_version r) = Some latest_version ∧
   ∃ major_v minor_v,
     split_dot version !! 0%nat = Some major_v ∧ split_dot version !! 1%nat = Some minor_v ∧
     latest (minor_version r) =
       last (filter (λ x, split_dot x !! 0%nat = Some major_v ∧
                          split_dot x !! 1%nat = Some minor_v) versions) ∧
     outdated (minor_version r) = version_lt version <$> latest (minor_version r)).
Proof.
  unfold lookup, check, check_latest_major_minor_versions, index_last.
  intros -> -> . cbn [mbind outcome_bind bind].
  destruct (version_gt version latest_version); [intros [= <-]; simpl; split; done |].
  destruct (version_lt version latest_version); [| intros [= <-]; simpl; split; done].
  unfold index. destruct (split_dot version) as [|a [|b t]] eqn:Hsplit;
    simpl; [done | done |].
  destruct (same_major_minor a b versions) as [l | |] eqn:Hl; [| done | done].
  apply same_major_minor_filter in Hl as ->. simpl.
  destruct (last _) as [lm|] eqn:Hlast; intros [= <-]; simpl;
    (split; [done |]; intros _; split; [done |]; exists a, b; by rewrite Hlast).
Qed.

End ClassifierMore.

Lemma dotted_versions_witness :
  ∃ r, Examples.classify "pkg" (Some "1.5.0") = Return r ∧
       (Versions.code r = -1 ∨ Versions.code r = 0 ∨ Versions.code r = 1 ∨
        Versions.code r = 999).
Proof.
  apply (dotted_versions_never_raise Examples.pkg_index Versions.lenient_sort
           Versions.lenient_gt Versions.lenient_lt "pkg" (Some "1.5.0")).
  - intros v [= <-]. vm_compute. lia.
  - intros versions [= <-]. repeat constructor.
Defined.

Lemma level_with_latest_witness :
  Examples.classify "pkg" (Some "2.0.0") =
    Return (Versions.Verdict (Versions.Status (Some false) (Some "2.0.0"))
                             (Versions.Status (Some false) (Some "2.0.0")) 0).
Proof.
  apply (level_with_latest_is_status_0 Examples.pkg_index Versions.lenient_sort
           Versions.lenient_gt Versions.lenient_lt
           "pkg" "2.0.0" ["1.0.0"; "1.5.0"; "2.0.0"] "2.0.0"); reflexivity.
Defined.

Lemma status_1_witness :
  Versions.latest
    (Versions.minor_version
       (Versions.Verdict (Versions.Status (Some true) (Some "2.0.0"))
                         (Versions.Status (Some false) (Some "1.0.0")) 1)) = Some "1.0.0".
Proof.
  destruct (status_1_verdict Examples.pkg_index Versions.lenient_sort
              Versions.lenient_gt Versions.lenient_lt
              "pkg" "1.0.0" ["1.0.0"; "1.5.0"; "2.0.0"] "2.0.0"
              (Versions.Verdict (Versions.Status (Some true) (Some "2.0.0"))
                                (Versions.Status (Some false) (Some "1.0.0")) 1)
              eq_refl eq_refl eq_refl) as [_ H].
  destruct (H eq_refl) as (_ & a & b & Ha & Hb & Hlat & _).
  injection Ha as <-. injection Hb as <-. rewrite Hlat. reflexivity.
Defined.

(** ** More on the manifest reconciler *)

Lemma resolve_returns (specs : list (string * string)) (v : string) :
  Requirements.resolve specs = Return v →
  v = Requirements.first_pin specs ∧ (specs = [] ∨ Requirements.pinned specs ≠ []).
Proof.
  unfold Requirements.resolve, Requirements.first_pin.
  destruct specs as [|s0 specs]; [intros [= <-]; split; [done | by left] |].
  unfold index. destruct (Requirements.pinned (s0 :: specs)) as [|w l]; simpl; [done |].
  intros [= <-]. split; [done | by right].
Qed.

Lemma resolve_raises (specs : list (string * string)) :
  specs ≠ [] → Requirements.pinned specs = [] → Requirements.resolve specs = Raise IndexError.
Proof.
  unfold Requirements.resolve. intros Hne Hp.
  destruct specs as [|s0 specs]; [done |]. by rewrite Hp.
Qed.

Lemma resolve_outcomes (specs : list (string * string)) :
  (∃ v, Requirements.resolve specs = Return v) ∨ Requirements.resolve specs = Raise IndexError.
Proof.
  unfold Requirements.resolve. destruct specs as [|s0 specs]; [eauto |].
  unfold index. destruct (Requirements.pinned (s0 :: specs)); simpl; eauto.
Qed.

Section ReconcilerMore.

Import Requirements.

Variable dict_order : gset string → list string.
Hypothesis dict_order_enumerates : ∀ (X : gset string) k, k ∈ dict_order X ↔ k ∈ X.

Lemma check_all_sound
    (all_reqs : gmap string (string * list (string * string)))
    (all_packages : gmap string Package.t) (l : list string)
    (acc acc' : list (string * option string) * list (string * string * option string)) :
  check_all all_reqs all_packages l acc = Return acc' →
  (∀ k v, (k, v) ∈ acc'.1 → (k, v) ∈ acc.1 ∨
     ∃ info p, k ∈ l ∧ all_reqs !! k = Some info ∧ all_packages !! k = Some p ∧
               v = Package.version p ∧ Some (first_pin info.2) = v) ∧
  (∀ k r v, (k, r, v) ∈ acc'.2 → (k, r, v) ∈ acc.2 ∨
     ∃ info p, k ∈ l ∧ all_reqs !! k = Some info ∧ all_packages !! k = Some p ∧
               v = Package.version p ∧ r = first_pin info.2 ∧ Some r ≠ v).
Proof.
  revert acc. induction l as [|k0 l IH]; intros acc; cbn [check_all].
  - intros [= <-]. split; intros; by left.
  - unfold check_one, getitem.
    destruct (all_packages !! k0) as [p0|] eqn:Hp0; [| done].
    cbn [mbind outcome_bind bind].
    destruct (all_reqs !! k0) as [info0|] eqn:Hi0; [| done].
    cbn [mbind outcome_bind bind].
    destruct (resolve info0.2) as [r0 | |] eqn:Hr0; [| done | done].
    apply resolve_returns in Hr0 as [-> _]. cbn [mbind outcome_bind bind].
    intros Hrun. apply IH in Hrun as [H1 H2].
    destruct (decide (Some (first_pin info0.2) = Package.version p0)) as [Heq | Hne];
      simpl in H1, H2; split.
    + intros k v Hin. destruct (H1 k v Hin) as [[? | [= -> ->]%list_elem_of_singleton]%elem_of_app | H].
      * by left.
      * right. exists info0, p0. repeat split; try done. left.
      * right. destruct H as (info & p & ? & ?). exists info, p. split; [by right | done].
    + intros k r v Hin. destruct (H2 k r v Hin) as [? | H]; [by left |].
      right. destruct H as (info & p & ? & ?). exists info, p. split; [by right | done].
    + intros k v Hin. destruct (H1 k v Hin) as [? | H]; [by left |].
      right. destruct H as (info & p & ? & ?). exists info, p. split; [by right | done].
    + intros k r v Hin.
      destruct (H2 k r v Hin) as [[? | [= -> -> ->]%list_elem_of_singleton]%elem_of_app | H].
      * by left.
      * right. exists info0, p0. repeat split; try done. left.
      * right. destruct H as (info & p & ? & ?). exists info, p. split; [by right | done].
Qed.

Lemma check_all_raises
    (all_reqs : gmap string (string * list (string * string)))
    (all_packages : gmap string Package.t) (l : list string)
    (acc : list (string * option string) * list (string * string * option string))
    (k : string) (info : string * list (string * string)) :
  (∀ k', k' ∈ l → is_Some (all_reqs !! k') ∧ is_Some (all_packages !! k')) →
  k ∈ l → all_reqs !! k = Some info → info.2 ≠ [] → pinned info.2 = [] →
  check_all all_reqs all_packages l acc = Raise IndexError.
Proof.
  intros Hall Hk Hinfo Hne Hpin. revert acc Hall Hk.
  induction l as [|k0 l IH]; intros acc Hall Hk; [by apply elem_of_nil in Hk |].
  cbn [check_all]. unfold check_one, getitem.
  destruct (Hall k0) as [[info0 Hi0] [p0 Hp0]]; [left |].
  rewrite Hp0, Hi0. cbn [mbind outcome_bind bind].
  destruct (resolve_outcomes info0.2) as [[r0 Hr0] | Hr0]; rewrite Hr0; [| done].
  cbn [mbind outcome_bind bind]. apply IH.
  - intros k' Hk'. apply Hall. by right.
  - apply elem_of_cons in Hk as [-> | Hk]; [| done].
    rewrite Hinfo in Hi0. injection Hi0 as <-.
    rewrite resolve_raises in Hr0 by done. done.
Qed.

Lemma ver_check_keys
    (all_reqs : gmap string (string * list (string * string)))
    (all_packages : gmap string Package.t) (k : string) :
  k ∈ filter (λ x, x ∉ filter (λ x, all_packages !! x = None) (dict_order (dom all_reqs)))
             (dict_order (dom all_reqs))
  ↔ is_Some (all_reqs !! k) ∧ is_Some (all_packages !! k).
Proof.
  rewrite list_elem_of_filter, list_elem_of_filter, dict_order_enumerates, elem_of_dom.
  split.
  - intros [Hn Hd]. split; [done |].
    destruct (all_packages !! k) eqn:E; [eauto |]. exfalso. apply Hn. done.
  - intros [Hd [p Hp]]. split; [| done]. intros [Hnone _]. congruence.
Qed.

(** Whenever the comparison returns its four lists: [req_only] holds
    exactly the manifest keys the environment lacks, [env_only] exactly
    the environment keys the manifest lacks; every entry of [same] is a
    key of both with the installed version, equal to the pinned one;
    every entry of [verdiff] is a key of both with the pinned version (or
    the sentinel) and a different installed version. *)
Theorem four_lists_account_for_every_key
    (parsed_req : list requirement) (all_packages : gmap string Package.t) (c : comparison) :
  compare_req_file_to_env dict_order (Some parsed_req) all_packages = Return (Some c) →
  (∀ k, k ∈ req_only c ↔ is_Some (all_reqs_of parsed_req !! k) ∧ all_packages !! k = None) ∧
  (∀ k, k ∈ env_only c ↔ is_Some (all_packages !! k) ∧ all_reqs_of parsed_req !! k = None) ∧
  (∀ k v, (k, v) ∈ same c →
     ∃ info p, all_reqs_of parsed_req !! k = Some info ∧ all_packages !! k = Some p ∧
               v = Package.version p ∧ Some (first_pin info.2) = v) ∧
  (∀ k r v, (k, r, v) ∈ verdiff c →
     ∃ info p, all_reqs_of parsed_req !! k = Some info ∧ all_packages !! k = Some p ∧
               v = Package.version p ∧ r = first_pin info.2 ∧ Some r ≠ v).
Proof.
  unfold compare_req_file_to_env.
  destruct (check_all _ _ _ _) as [acc' | |] eqn:Hrun; [| done | done].
  cbn [mbind outcome_bind bind]. intros [= <-]. cbn [req_only env_only same verdiff].
  apply check_all_sound in Hrun as [H1 H2]. simpl in H1, H2.
  split; [| split; [| split]].
  - intros k. rewrite list_elem_of_filter, dict_order_enumerates, elem_of_dom. tauto.
  - intros k. rewrite list_elem_of_filter, dict_order_enumerates, elem_of_dom. tauto.
  - intros k v Hin. destruct (H1 k v Hin) as [?%elem_of_nil | (info & p & _ & H)]; [done |].
    by exists info, p.
  - intros k r v Hin. destruct (H2 k r v Hin) as [?%elem_of_nil | (info & p & _ & H)]; [done |].
    by exists info, p.
Qed.

(** One manifest entry that is also in the environment and has
    constraints, none of them [==], makes the whole comparison raise
    [IndexError]: no list is returned for any package. *)
Theorem unpinned_common_entry_raises
    (parsed_req : list requirement) (all_packages : gmap string Package.t)
    (k : string) (info : string * list (string * string)) :
  all_reqs_of parsed_req !! k = Some info →
  is_Some (all_packages !! k) →
  info.2 ≠ [] → pinned info.2 = [] →
  compare_req_file_to_env dict_order (Some parsed_req) all_packages = Raise IndexError.
Proof.
  intros Hinfo Hp Hne Hpin. unfold compare_req_file_to_env.
  erewrite check_all_raises; [done | | | exact Hinfo | done | done].
  - intros k' Hk'. by apply ver_check_keys.
  - apply ver_check_keys. eauto.
Qed.

End ReconcilerMore.

Lemma four_lists_witness :
  ∃ info p, Requirements.all_reqs_of Examples.twice_pinned !! "a" = Some info ∧
            Examples.env_a2 !! "a" = Some p ∧
            Some "2.0" = Package.version p ∧ "1.0" = Requirements.first_pin info.2 ∧
            Some "1.0" ≠ Some "2.0".
Proof.
  destruct (four_lists_account_for_every_key elements (λ X k, elem_of_elements X k)
              Examples.twice_pinned Examples.env_a2
              (Requirements.Comparison [] [("a", "1.0", Some "2.0")] [] []))
    as (_ & _ & _ & H).
  - vm_compute. reflexivity.
  - apply (H "a" "1.0" (Some "2.0")). left.
Defined.

Lemma unpinned_common_entry_witness :
  Requirements.compare_req_file_to_env elements
    (Some [Requirements.Requirement "b" "b" [(">=", "2.0")]])
    {[ "b" := Package.init "b" (Some "3.0") ]}
  = Raise IndexError.
Proof.
  apply (unpinned_common_entry_raises elements (λ X k, elem_of_elements X k)
           [Requirements.Requirement "b" "b" [(">=", "2.0")]]
           {[ "b" := Package.init "b" (Some "3.0") ]} "b" ("b", [(">=", "2.0")])).
  - unfold Requirements.all_reqs_of. simpl. by rewrite lookup_insert_eq.
  - rewrite lookup_singleton_eq. eauto.
  - discriminate.
  - reflexivity.
Defined.

(** ** The cached distances of a package *)

Lemma node_distances_get_set (self : Package.t) (k : string) (r : node_distances)
    (c : option node_distances) :
  node_distances_get self k = Return c →
  node_distances_get (node_distances_set self k r) k = Return (Some r).
Proof.
  unfold node_distances_get, node_distances_set. simpl.
  destruct (decide (k = "list")); [done |]. by destruct (decide (k = "dict")).
Qed.

(** Once a call has returned a non-empty result for a shape, every later
    call for that shape that does not force the computation returns that
    result and leaves the object as it is, whatever environment and
    flags it is given. *)
Theorem cached_distances_ignore_later_arguments (set_order : gset string → list string)
    (self self1 : Package.t) (venv venv' : Environment.t)
    (include_root keep include_root' keep' do_full_calc : bool)
    (list_or_dict : string) (c : option node_distances) :
  calc_self_node_distances set_order self venv include_root keep list_or_dict do_full_calc
    = Return (self1, c) →
  truthy c = true →
  calc_self_node_distances set_order self1 venv' include_root' keep' list_or_dict false
    = Return (self1, c).
Proof.
  unfold calc_self_node_distances at 1.
  destruct (node_distances_get self list_or_dict) as [cached | |] eqn:Hget; [| done | done].
  cbn [mbind outcome_bind bind]. intros Hcall Hc.
  assert (Hget1 : node_distances_get self1 list_or_dict = Return c).
  { destruct (negb (truthy cached) || do_full_calc).
    - destruct (calc_node_distances _ _ _ _ _ _ _) as [r | |]; [| done | done].
      cbn [mbind outcome_bind bind] in Hcall.
      rewrite (node_distances_get_set self list_or_dict r cached Hget) in Hcall.
      cbn [mbind outcome_bind bind] in Hcall. injection Hcall as <- <-.
      by eapply node_distances_get_set.
    - by injection Hcall as <- <-. }
  unfold calc_self_node_distances. rewrite Hget1. cbn [mbind outcome_bind bind].
  by rewrite Hc.
Qed.

Lemma cached_distances_witness :
  ∃ self1 c,
    calc_self_node_distances elements (init "a" None)
      (Environment.mk Examples.chain_nodes Examples.chain_edges) false true "list" false
    = Return (self1, c) ∧
    calc_self_node_distances elements self1 (Environment.mk [] []) true false "list" false
    = Return (self1, c).
Proof.
  destruct (calc_self_node_distances elements (init "a" None)
              (Environment.mk Examples.chain_nodes Examples.chain_edges)
              false true "list" false) as [[self1 c] | |] eqn:E;
    [| vm_compute in E; discriminate | vm_compute in E; discriminate].
  exists self1, c. split; [reflexivity |].
  apply (cached_distances_ignore_later_arguments elements (init "a" None) self1
           (Environment.mk Examples.chain_nodes Examples.chain_edges) (Environment.mk [] [])
           false true true false false "list" c E).
  vm_compute in E. injection E as <- <-. reflexivity.
Defined.

(** A shape other than ['list'] and ['dict'] makes the method raise
    [KeyError], although the static computation it wraps takes every
    shape other than ['list'] for ['dict']. *)
Theorem unknown_shape_raises_KeyError (set_order : gset string → list string)
    (self : Package.t) (venv : Environment.t)
    (include_root keep do_full_calc : bool) (list_or_dict : string) :
  list_or_dict ≠ "list" → list_or_dict ≠ "dict" →
  calc_self_node_distances set_order self venv include_root keep list_or_dict do_full_calc
    = Raise (KeyError list_or_dict) ∧
  calc_node_distances set_order (name self) (Environment.nodes venv) (Environment.edges venv)
    include_root keep list_or_dict
  = calc_node_distances set_order (name self) (Environment.nodes venv) (Environment.edges venv)
      include_root keep "dict".
Proof.
  intros Hl Hd. split.
  - unfold calc_self_node_distances, node_distances_get.
    by rewrite !decide_False.
  - unfold calc_node_distances.
    destruct (decide (_ !! _ = None)); [by rewrite decide_False |].
    destruct (rec_fun _ _ _ _ _ _ _); [| done | done]. cbn [mbind outcome_bind bind].
    destruct (triples _ _ _); [| done | done]. cbn [mbind outcome_bind bind].
    by rewrite decide_False.
Qed.

Lemma unknown_shape_witness :
  calc_self_node_distances elements (init "a" None)
    (Environment.mk Examples.chain_nodes Examples.chain_edges) false true "tuple" false
  = Raise (KeyError "tuple").
Proof.
  apply (unknown_shape_raises_KeyError elements (init "a" None)
           (Environment.mk Examples.chain_nodes Examples.chain_edges)
           false true false "tuple"); discriminate.
Defined.

(** ** Splitting a package file *)

Lemma re_split_nonempty (s : string) : ∃ h t, re_split s = h :: t.
Proof.
  induction s as [|c s (h & t & IH)]; simpl; [eauto |].
  destruct (is_separator c); [eauto |]. rewrite IH. eauto.
Qed.

(** Joining the pieces of [re.split] with commas gives the text back
    with each separator turned into a comma: nothing but the kind of
    separator is lost, and a text separated by commas alone is
    restored. *)
Theorem re_split_joined_by_commas (s : string) :
  String.concat "," (re_split s) = commas s ∧
  ((∀ c, has_char c s = true → is_separator c = true → c = ","%char) →
   String.concat "," (re_split s) = s).
Proof.
  assert (Hjoin : String.concat "," (re_split s) = commas s).
  { induction s as [|c s IH]; [done |].
    cbn [re_split commas].
    destruct (re_split_nonempty s) as (h & t & Hs). rewrite Hs in IH |- *.
    destruct (is_separator c).
    - change (String.concat "," ("" :: h :: t))
        with (String "," (String.concat "," (h :: t))).
      by rewrite IH.
    - rewrite <- IH. by destruct t. }
  split; [exact Hjoin |]. rewrite Hjoin. clear Hjoin.
  induction s as [|c s IH]; intros Hsep; [done |].
  cbn [commas]. rewrite IH.
  - destruct (is_separator c) eqn:Hc; [| done].
    f_equal. symmetry. apply Hsep; [| done]. simpl. by rewrite Ascii.eqb_refl.
  - intros c' Hin. apply Hsep. simpl. rewrite Hin. by rewrite orb_true_r.
Qed.

Lemma re_split_witness : String.concat "," (re_split "numpy,Django,six") = "numpy,Django,six".
Proof.
  apply (re_split_joined_by_commas "numpy,Django,six").
  intros c. destruct c as [[] [] [] [] [] [] [] []]; vm_compute; intros;
    solve [reflexivity | discriminate].
Defined.

(** No piece of [re.split] holds a separator. *)
Lemma re_split_pieces_are_clean (s t : string) (c : ascii) :
  t ∈ re_split s → has_char c t = true → is_separator c = false.
Proof.
  revert t. induction s as [|d s IH]; intros t; cbn [re_split].
  - intros ->%list_elem_of_singleton. done.
  - destruct (is_separator d) eqn:Hd.
    + intros [-> | Hin]%elem_of_cons; [done | by apply IH].
    + destruct (re_split_nonempty s) as (h & tl & Hs). rewrite Hs in *.
      intros [-> | Hin]%elem_of_cons.
      * simpl. intros [Heq | Hin]%orb_true_iff.
        -- apply Ascii.eqb_eq in Heq as ->. done.
        -- apply (IH h); [left | done].
      * apply IH. by right.
Qed.

(** ** Resolving the packages asked for *)

Lemma filter_not_nil {A : Type} (P : A → Prop) `{!∀ x, Decision (P x)} (l : list A) :
  filter P l ≠ [] ↔ ∃ x, x ∈ l ∧ P x.
Proof.
  split.
  - intros Hne. destruct (filter P l) as [|x l'] eqn:E; [done |].
    assert (x ∈ filter P l) as [? ?]%list_elem_of_filter by (rewrite E; left). eauto.
  - intros (x & Hx & HP) Hnil.
    assert (x ∈ filter P l) as Hin by (by apply list_elem_of_filter).
    rewrite Hnil in Hin. by apply elem_of_nil in Hin.
Qed.

(** The packages returned are exactly those asked for, on the command
    line or as a non-empty piece of a readable, named package file, that
    some node of the environment carries when names are compared without
    case; an unreadable file adds nothing.  If the set enumeration does
    not repeat, no package is returned twice. *)
Theorem resolve_package_list_keeps_the_known (set_order : gset string → list string)
    (read_file : string → option string) (venv : Environment.t)
    (packages : list string) (package_file : option string) :
  (∀ (X : gset string) k, k ∈ set_order X ↔ k ∈ X) →
  (∀ p, p ∈ resolve_package_list set_order read_file venv packages package_file ↔
        (p ∈ packages ∨
         ∃ f contents, package_file = Some f ∧ f ≠ "" ∧ read_file f = Some contents ∧
                       p ≠ "" ∧ p ∈ re_split contents) ∧
        ∃ x, x ∈ Environment.nodes venv ∧ lower x.1 = lower p) ∧
  ((∀ X : gset string, NoDup (set_order X)) →
   NoDup (resolve_package_list set_order read_file venv packages package_file)).
Proof.
  intros Henum. unfold resolve_package_list. split.
  - intros p. rewrite list_elem_of_filter, filter_not_nil, Henum, elem_of_list_to_set,
      elem_of_app.
    split.
    + intros [Hnode Hwho]. split; [| done].
      destruct Hwho as [? | Hfile]; [by left | right].
      destruct package_file as [f|]; [| by apply elem_of_nil in Hfile].
      destruct (decide (f = "")); [by apply elem_of_nil in Hfile |].
      destruct (read_file f) as [contents|] eqn:Hread; [| by apply elem_of_nil in Hfile].
      apply list_elem_of_filter in Hfile as [? ?]. by exists f, contents.
    + intros [Hwho Hnode]. split; [done |].
      destruct Hwho as [? | (f & contents & -> & Hf & Hread & Hp & Hin)]; [by left | right].
      rewrite decide_False by done. rewrite Hread. by apply list_elem_of_filter.
  - intros Hnodup. apply NoDup_filter, Hnodup.
Qed.

Lemma resolve_package_list_witness :
  "Django" ∉ resolve_package_list elements (λ _, Some "numpy,Django")
               (Environment.mk Examples.two_nodes Examples.one_edge) ["NumPy"] (Some "wanted.txt").
Proof.
  destruct (resolve_package_list_keeps_the_known elements (λ _, Some "numpy,Django")
              (Environment.mk Examples.two_nodes Examples.one_edge) ["NumPy"]
              (Some "wanted.txt") (λ X k, elem_of_elements X k)) as [H _].
  intros [_ (x & Hx & Hlow)]%H. simpl in Hx.
  apply elem_of_cons in Hx as [-> | Hx]; [vm_compute in Hlow; discriminate |].
  apply elem_of_cons in Hx as [-> | Hx]; [vm_compute in Hlow; discriminate |].
  by apply elem_of_nil in Hx.
Defined.

(** ** What the version report prints *)

Section ReportFacts.

Import Versions.

Variable release_ids : string → option (list string).
Variable loose_sort : list string → list string.
Variable version_gt version_lt : string → string → bool.

Let lookup := get_package_versions_from_pypi release_ids loose_sort.
Let check := check_latest_major_minor_versions release_ids loose_sort version_gt version_lt.

(** For every verdict the classifier returns, the report is the heading
    and one line, or two lines when both the major and the minor version
    are outdated; the heading is never left alone. *)
Theorem every_verdict_gets_a_line (package : string) (version : option string)
    (r : verdict) (shown_package : string) (shown_version : option string) :
  check package version = Return r →
  ∃ line rest,
    detail_version_info r shown_package shown_version =
      ("Analysing " +:+ shown_package +:+ " " +:+ format shown_version) :: line :: rest ∧
    (rest = [] ∨
     (code r = 1 ∧ outdated (minor_version r) = Some true ∧
      rest = ["Minor version outdated " +:+ format (latest (minor_version r)) +:+
              " > " +:+ format shown_version])) ∧
    (code r = 1 → outdated (minor_version r) = Some true → rest ≠ []).
Proof.
  unfold check, check_latest_major_minor_versions, index_last, detail_version_info.
  destruct (get_package_versions_from_pypi _ _ _) as [versions|];
    [| intros [= <-]; simpl; eauto 8].
  destruct (last versions) as [lv|]; [| done].
  cbn [mbind outcome_bind bind].
  destruct version as [v|]; [| intros [= <-]; simpl; eauto 8].
  destruct (version_gt v lv); [intros [= <-]; simpl; eexists _, _; split; [done |];
                                split; [by left | done] |].
  destruct (version_lt v lv); [| intros [= <-]; simpl; eexists _, _; split; [done |];
                                   split; [by left | done]].
  unfold index. destruct (split_dot v) as [|a [|b t]]; simpl; [done | done |].
  destruct (same_major_minor a b versions) as [l | |]; [| done | done]. simpl.
  destruct (last l) as [lm|]; intros [= <-]; simpl.
  - destruct (version_lt v lm); simpl; eexists _, _; (split; [done |]).
    + split; [right; done | done].
    + split; [by left | done].
  - eexists _, _. split; [done |]. split; [by left | done].
Qed.

(** A package whose version is not known is reported with the error
    line, although the lookup succeeded: the latest version found is not
    shown. *)
Theorem unknown_version_is_reported_as_error (p : Package.t) (versions : list string) :
  Package.version p = None →
  lookup (Package.name p) = Some versions →
  report_packages release_ids loose_sort version_gt version_lt [p] =
    (["Analysing " +:+ Package.name p +:+ " None";
      "There was an error, see [super] verbose output for details"], Return ()).
Proof.
  intros Hv Hl. cbn [report_packages]. unfold check_versions. rewrite Hv.
  destruct (lookup_has_last release_ids loose_sort _ versions Hl) as [lv Hlv].
  unfold check_latest_major_minor_versions, index_last. fold (lookup (Package.name p)).
  rewrite Hl, Hlv. reflexivity.
Qed.

End ReportFacts.

Lemma every_verdict_witness :
  ∃ line rest,
    Versions.detail_version_info
      (Versions.Verdict (Versions.Status (Some true) (Some "2.0.0"))
                        (Versions.Status (Some false) (Some "1.0.0")) 1)
      "pkg" (Some "1.0.0")
    = "Analysing pkg 1.0.0" :: line :: rest.
Proof.
  destruct (every_verdict_gets_a_line Examples.pkg_index Versions.lenient_sort
              Versions.lenient_gt Versions.lenient_lt "pkg" (Some "1.0.0")
              (Versions.Verdict (Versions.Status (Some true) (Some "2.0.0"))
                                (Versions.Status (Some false) (Some "1.0.0")) 1)
              "pkg" (Some "1.0.0") eq_refl) as (line & rest & H & _).
  exists line, rest. exact H.
Defined.

Lemma unknown_version_witness :
  Versions.report_packages Examples.pkg_index Versions.lenient_sort
    Versions.lenient_gt Versions.lenient_lt [init "pkg" None] =
  (["Analysing pkg None"; "There was an error, see [super] verbose output for details"],
   Return ()).
Proof.
  apply (unknown_version_is_reported_as_error Examples.pkg_index Versions.lenient_sort
           Versions.lenient_gt Versions.lenient_lt (init "pkg" None)
           ["1.0.0"; "1.5.0"; "2.0.0"]); reflexivity.
Defined.

Section RequirementReportFacts.

Import Requirements.

Variable release_ids : string → option (list string).
Variable loose_sort : list string → list string.
Variable version_gt version_lt : string → string → bool.

Let report := report_requirements release_ids loose_sort version_gt version_lt.

(** The report on a manifest only depends, for each entry, on its key
    and on the version of its last constraint, whatever that constraint's
    operator: entries without constraints are passed over, and every
    other entry is treated as if pinned to that version. *)
Theorem report_reads_the_last_constraint (parsed_req : list requirement) :
  report parsed_req = report (omap as_pin parsed_req).
Proof.
  unfold report. induction parsed_req as [|p rest IH]; [done |].
  cbn [omap list_omap report_requirements]. unfold as_pin at 1.
  destruct (last (specs p)) as [spec|]; cbn [fmap option_fmap option_map]; [| exact IH].
  cbn [report_requirements specs key last]. by rewrite IH.
Qed.

(** Reports compose: after a part that ran to its end the report goes on
    with the rest; after a part in which the classifier raised, nothing
    more is examined or printed. *)
Theorem report_of_two_parts (l1 l2 : list requirement) :
  report (l1 ++ l2) =
    match (report l1).2 with
    | Return _ => ((report l1).1 ++ (report l2).1, (report l2).2)
    | _ => report l1
    end.
Proof.
  unfold report. induction l1 as [|p l1 IH].
  - simpl. by destruct (report_requirements _ _ _ _ l2).
  - cbn [app report_requirements].
    destruct (last (specs p)) as [spec|]; [| exact IH].
    destruct (Versions.check_latest_major_minor_versions _ _ _ _ _ _) as [vi | e |];
      [| done | done].
    rewrite IH.
    destruct (report_requirements _ _ _ _ l1) as [o1 r1].
    destruct (report_requirements _ _ _ _ l2) as [o2 r2]. simpl.
    destruct r1; [| done | done]. by rewrite app_assoc.
Qed.

End RequirementReportFacts.

(** ** The lineage tracer *)

Section TraceFacts.

Variable set_order : gset string → list string.
Hypothesis set_order_enumerates : ∀ (X : gset string) k, k ∈ set_order X ↔ k ∈ X.
Variable nodes : list node.
Variable edges : list edge.
Hypothesis edges_nonempty : edges ≠ [].
Hypothesis edges_drawn : drawn_from_nodes nodes edges true.
Variable o : string.
Hypothesis o_known : known nodes true o.

Local Abbreviation adj := (upstream edges).
Local Abbreviation walk := (climbs edges o).
Local Abbreviation is_known := (known nodes true).
Local Abbreviation near := (climb_within edges o).

Lemma upstream_known (a b : string) : adj a b → is_known a ∧ is_known b.
Proof.
  intros (nx & Hnx & <- & <-). destruct (edges_drawn nx Hnx) as [Hh Ht]. done.
Qed.

Lemma climb_known (n : nat) (k : string) : walk n k → is_known k.
Proof.
  intros H. inversion H as [|n' a b _ Hadj]; subst; [exact o_known |].
  exact (proj2 (upstream_known _ _ Hadj)).
Qed.

Lemma climb_within_mono (L L' : nat) (k : string) : (L ≤ L')%nat → near L k → near L' k.
Proof. intros HL (m & Hm & Hw). exists m. split; [lia | done]. Qed.

Lemma climb_within_step (L : nat) (a b : string) : near L a → adj a b → near (S L) b.
Proof.
  intros (m & Hm & Hw) Hadj. exists (S m). split; [lia |]. by eapply climbs_step.
Qed.

Lemma climb_within_origin (L : nat) : near (S L) o.
Proof. exists 0%nat. split; [lia | constructor]. Qed.

Lemma min_climb_at_level (L : nat) (k : string) :
  near (S L) k → ¬ near L k → min_climb edges o L k.
Proof.
  intros (m & Hm & Hw) Hfar.
  assert (m = L) as ->.
  { destruct (decide (m < L)%nat); [| lia]. exfalso. apply Hfar. by exists m. }
  split; [done |]. intros m' Hw'.
  destruct (decide (m' < L)%nat); [| lia]. exfalso. apply Hfar. by exists m'.
Qed.

Lemma min_climb_unique (m m' : nat) (k : string) :
  min_climb edges o m k → min_climb edges o m' k → m = m'.
Proof. intros [H1 H2] [H1' H2']. apply H2 in H1'. apply H2' in H1. lia. Qed.

(** One visit of the tracer: as for the distance engine, but only the
    untouched first nodes of the edges arriving at [p] are appended. *)
Lemma trace_visit_spec (L : nat) (p : string) (D : gmap string Z) (T : gmap string bool)
    (acc : list string) (d : Z) :
  is_known p →
  (∀ k, is_known k → is_Some (T !! k)) →
  D !! p = Some d →
  ∃ new,
    trace_visit edges true (Z.of_nat L) p (Search D T, acc) =
      Return (Search (if Z.abs d >? Z.of_nat L then <[p := Z.of_nat L]> D else D)
                     (<[p := true]> T), acc ++ new) ∧
    ∀ q, q ∈ new ↔ adj p q ∧ <[p := true]> T !! q = Some false.
Proof.
  intros Hp HT Hd.
  assert (HT' : ∀ k, is_known k → is_Some (<[p := true]> T !! k)).
  { intros k Hk. destruct (decide (p = k)) as [->|Hne].
    - rewrite lookup_insert_eq. eauto.
    - rewrite lookup_insert_ne by done. by apply HT. }
  pose proof (known_lower _ _ _ Hp) as Hlow.
  destruct (untouched_spec head_key (<[p := true]> T)
              (filter (λ x, lower p = tail_key x) edges))
    as (az & Haz & Hazspec).
  { intros nx [_ Hu]%list_elem_of_filter. apply HT'. by apply (edges_drawn nx). }
  exists az. split.
  - unfold trace_visit, getitem. simpl. rewrite Hd. simpl.
    rewrite direct_links by done. simpl. rewrite Haz. reflexivity.
  - intros q. rewrite Hazspec, Hlow. split.
    + intros (nx & [Ht Hu]%list_elem_of_filter & Hh & Hq).
      split; [| done]. by exists nx.
    + intros [(nx & Hu & Ht & Hh) Hq].
      exists nx. split; [by apply list_elem_of_filter | done].
Qed.

(** The [for] loop of the tracer at level [L]. *)
Lemma trace_sweep_spec (L : nat) (S0 : list string) (s0 : search) :
  trace_level_inv nodes edges o L S0 s0 →
  ∀ (Q P : list string) (s : search) (acc : list string),
    (∀ p, p ∈ P → p ∈ S0) → (∀ p, p ∈ Q → p ∈ S0) →
    trace_flagged nodes edges o L P s →
    trace_gathered nodes edges o L P acc →
    (∀ k, node_touched s !! k = Some false → node_touched s0 !! k = Some false) →
    ∃ s' acc',
      trace_sweep edges true (Z.of_nat L) Q (s, acc) = Return (s', acc') ∧
      trace_flagged nodes edges o L (P ++ Q) s' ∧
      trace_gathered nodes edges o L (P ++ Q) acc' ∧
      (∀ k, node_touched s' !! k = Some false → node_touched s0 !! k = Some false).
Proof.
  intros (_ & HS0 & _). induction Q as [|p Q IH]; intros P s acc HP HQ Hfl Hga Hmono.
  - exists s, acc. rewrite app_nil_r. done.
  - destruct (HS0 p) as [Hp Hnear]; [apply HQ; left |].
    destruct s as [D T].
    destruct (Hfl p Hp) as (b & d & HTp & HDp & Hb & Hfalse & Htrue). simpl in HTp, HDp.
    destruct (trace_visit_spec L p D T acc d Hp) as (new & Hvisit & Hnew); [| done |].
    { intros k Hk. destruct (Hfl k Hk) as (? & ? & HTk & _). simpl in HTk. eauto. }
    set (D' := if Z.abs d >? Z.of_nat L then <[p := Z.of_nat L]> D else D) in *.
    assert (HD'ne : ∀ k, k ≠ p → D' !! k = D !! k).
    { intros k Hk. subst D'. destruct (_ >? _); [by rewrite lookup_insert_ne | done]. }
    assert (HD'p : ∃ m, min_climb edges o m p ∧ D' !! p = Some (recorded m)).
    { destruct b.
      - destruct Htrue as (m & Hmin & ->); [done |]. exists m. split; [done |].
        assert (m ≤ L)%nat as Hm.
        { destruct Hnear as (m' & Hm' & Hw). apply Hmin in Hw. lia. }
        subst D'. rewrite later_visit_keeps; done.
      - assert (d = start_distance) as -> by (by apply Hfalse). exists L. split.
        + apply min_climb_at_level; [done |]. intros Hn.
          assert (false = true); [apply Hb; by left | done].
        + subst D'. rewrite <- first_visit_records.
          destruct (_ >? _); [by rewrite lookup_insert_eq | done]. }
    destruct (IH (P ++ [p]) (Search D' (<[p := true]> T)) (acc ++ new))
      as (s' & acc' & Hrun & Hfl' & Hga' & Hmono').
    + intros q [Hq | ->%list_elem_of_singleton]%elem_of_app; [by apply HP |].
      apply HQ. left.
    + intros q Hq. apply HQ. by right.
    + intros k Hk. destruct (decide (k = p)) as [-> | Hne].
      * destruct HD'p as (m & Hmin & HD'). exists true, (recorded m). simpl.
        rewrite lookup_insert_eq. repeat split; try done.
        -- intros _. right. apply elem_of_app. right. left.
        -- intros _. eauto.
      * destruct (Hfl k Hk) as (bk & dk & HTk & HDk & Hbk & Hfk & Htk). simpl in HTk, HDk.
        exists bk, dk. simpl. rewrite lookup_insert_ne by done. rewrite HD'ne by done.
        repeat split; try done.
        -- intros Hbt. apply Hbk in Hbt as [? | ?]; [by left |].
           right. apply elem_of_app. by left.
        -- intros [? | [? | ?%list_elem_of_singleton]%elem_of_app]; [| | done];
             apply Hbk; auto.
    + destruct Hga as [Hacc Hcomplete]. split.
      * intros q [Hq | Hq]%elem_of_app.
        -- destruct (Hacc q Hq) as (? & ? & p' & ? & ?). repeat split; try done.
           exists p'. split; [apply elem_of_app; by left | done].
        -- apply Hnew in Hq as [Hadj HTq].
           destruct (upstream_known _ _ Hadj) as [_ Hkq].
           assert (q ≠ p) as Hne.
           { intros ->. by rewrite lookup_insert_eq in HTq. }
           rewrite lookup_insert_ne in HTq by done.
           destruct (Hfl q Hkq) as (bq & dq & HTq' & _ & Hbq & _). simpl in HTq'.
           rewrite HTq in HTq'. injection HTq' as <-.
           repeat split; [done | |].
           ++ intros Hn. assert (false = true); [apply Hbq; by left | done].
           ++ exists p. split; [apply elem_of_app; right; left | done].
      * intros p' q [Hp' | ->%list_elem_of_singleton]%elem_of_app Hadj.
        -- destruct (Hcomplete p' q Hp' Hadj); [by left |].
           right. apply elem_of_app. by left.
        -- destruct (upstream_known _ _ Hadj) as [_ Hkq].
           destruct (decide (q = p)) as [-> | Hne]; [by left |].
           destruct (Hfl q Hkq) as (bq & dq & HTq & _ & Hbq & _). simpl in HTq.
           destruct bq.
           ++ left. destruct Hbq as [Hbq _]. destruct Hbq as [Hn | HqP]; [done | |].
              ** eapply climb_within_mono; [| exact Hn]. lia.
              ** apply HS0. by apply HP.
           ++ right. apply elem_of_app. right. apply Hnew. split; [done |].
              by rewrite lookup_insert_ne.
    + intros k Hk. simpl in Hk. apply Hmono. simpl.
      destruct (decide (k = p)) as [-> | Hne]; [by rewrite lookup_insert_eq in Hk |].
      by rewrite lookup_insert_ne in Hk.
    + exists s', acc'. split; [| by rewrite <- app_assoc in Hfl', Hga'].
      cbn [trace_sweep]. rewrite Hvisit. exact Hrun.
Qed.

(** The tracer's [rec_fun] from level [L] on. *)
Lemma trace_rec_fun_spec (fuel : nat) :
  ∀ (L : nat) (S0 : list string) (s : search),
    trace_level_inv nodes edges o L S0 s →
    (untouched_count (node_touched s) < fuel)%nat →
    ∃ s', trace_rec_fun set_order edges true fuel S0 (Z.of_nat L) s = Return s' ∧
          trace_settled nodes edges o s'.
Proof.
  induction fuel as [|fuel IH]; intros L S0 s Hinv Hfuel; [lia |].
  destruct (trace_sweep_spec L S0 s Hinv S0 [] s []) as (s' & acc' & Hrun & Hfl & Hga & Hmono).
  { by intros p ?%elem_of_nil. }
  { done. }
  { apply Hinv. }
  { split; [by intros q ?%elem_of_nil | by intros p q ?%elem_of_nil]. }
  { done. }
  rewrite app_nil_l in Hfl, Hga.
  destruct Hinv as (Hfl0 & HS0 & Hcover). destruct Hga as [Hacc Hcomplete].
  assert (Hnext : ∀ q, q ∈ set_order (list_to_set acc') ↔ q ∈ acc').
  { intros q. by rewrite set_order_enumerates, elem_of_list_to_set. }
  cbn [trace_rec_fun]. rewrite Hrun. cbn [mbind outcome_bind bind].
  destruct (set_order (list_to_set acc')) as [|q0 next] eqn:Enext.
  - exists s'. split; [done |].
    assert (Hclosed : ∀ n k, walk n k → near (S L) k).
    { intros n k Hw. induction Hw as [|n a b _ IHa Hadj]; [apply climb_within_origin |].
      destruct (Hcover a IHa) as [Ha | Ha]; [by eapply climb_within_step |].
      destruct (Hcomplete a b Ha Hadj) as [? | Hb]; [done |].
      apply Hnext in Hb. by apply elem_of_nil in Hb. }
    intros k Hk. destruct (Hfl k Hk) as (b & d & HT & HD & Hb & Hf & Ht).
    exists b, d. repeat split; try done.
    + intros Hbt. apply Hb in Hbt as [(m & _ & Hw) | Hin]; [by exists m |].
      destruct (HS0 k Hin) as [_ (m & _ & Hw)]. by exists m.
    + intros [n Hw]. apply Hb. apply Hcover. by eapply Hclosed.
  - replace (Z.of_nat L + 1) with (Z.of_nat (S L)) by lia.
    apply IH.
    + split; [| split].
      * intros k Hk. destruct (Hfl k Hk) as (b & d & HT & HD & Hb & Hf & Ht).
        exists b, d. repeat split; try done.
        -- intros Hbt. left. apply Hb in Hbt as [Hn | Hin].
           ++ eapply climb_within_mono; [| exact Hn]. lia.
           ++ by apply HS0.
        -- intros [Hn | Hin%elem_of_nil]; [| done]. apply Hb. by apply Hcover.
      * intros p Hp. apply Hnext in Hp.
        destruct (Hacc p Hp) as (Hkp & _ & p0 & Hp0 & Hadj). split; [done |].
        eapply climb_within_step; [| exact Hadj]. by apply HS0.
      * intros k (m & Hm & Hw).
        destruct (decide (m < S L)%nat) as [Hlt | Hge]; [left; by exists m |].
        assert (m = S L) as -> by lia.
        inversion Hw as [|n a b Hwa Hadj]; subst.
        destruct (Hcover a) as [Ha | Ha]; [exists L; split; [lia | done] | |].
        -- left. by eapply climb_within_step.
        -- destruct (Hcomplete a k Ha Hadj) as [? | Hk]; [by left |].
           right. by apply Hnext.
    + assert (∃ p, p ∈ S0 ∧ node_touched s !! p = Some false) as (p & Hp & HTp).
      { destruct (decide (Exists (λ p, node_touched s !! p = Some false) S0)) as [He | Hne].
        - by apply Exists_exists in He.
        - exfalso.
          assert (Hall : ∀ p, p ∈ S0 → near L p).
          { intros p Hp. destruct (HS0 p Hp) as [Hkp _].
            destruct (Hfl0 p Hkp) as (b & d & HT & _ & Hb & _).
            destruct b.
            - destruct Hb as [Hb _]. destruct Hb as [? | ?%elem_of_nil]; done.
            - exfalso. apply Hne. apply Exists_exists. eauto. }
          assert (Hq0 : q0 ∈ acc') by (apply Hnext; left).
          destruct (Hacc q0 Hq0) as (_ & Hfar & p0 & Hp0 & Hadj).
          apply Hfar. destruct (Hcover q0) as [? | Hin]; [| done | by apply Hall].
          eapply climb_within_step; [| exact Hadj]. by apply Hall. }
      destruct (HS0 p Hp) as [Hkp _].
      destruct (Hfl p Hkp) as (b & d & HT & _ & Hb & _).
      assert (b = true) as -> by (apply Hb; by right).
      pose proof (untouched_count_decreases (node_touched s) (node_touched s') p Hmono HTp)
        as Hdec.
      rewrite HT in Hdec. specialize (Hdec ltac:(done)). lia.
Qed.

(** The climb from the origin returns, with the dicts settled. *)
Lemma trace_settles :
  ∃ s', trace_rec_fun set_order edges true
          (S (size (fresh_dict start_distance nodes true))) [o] 0
          (Search (fresh_dict start_distance nodes true)
                  (fresh_dict false nodes true)) = Return s' ∧
        trace_settled nodes edges o s'.
Proof.
  apply (trace_rec_fun_spec _ 0%nat).
  - split; [| split].
    + intros k Hk. exists false, start_distance. cbn [node_touched dist_dict].
      rewrite (fresh_dict_is_Some start_distance false) by exact Hk.
      rewrite (fresh_dict_is_Some start_distance start_distance) by exact Hk.
      repeat split; try done.
      intros [(m & Hm & _) | ?%elem_of_nil]; [lia | done].
    + intros p ->%list_elem_of_singleton. split; [done | apply climb_within_origin].
    + intros k (m & Hm & Hw). right. assert (m = 0%nat) as -> by lia.
      inversion Hw; subst. left.
  - cbn [node_touched]. unfold untouched_count.
    pose proof (map_size_filter (λ kv : string * bool, kv.2 = false)
                  (fresh_dict false nodes true)) as Hle.
    rewrite (fresh_dict_size start_distance false). lia.
Qed.

End TraceFacts.

Section TraceBudget.

Variable set_order : gset string → list string.
Hypothesis set_order_enumerates : ∀ (X : gset string) k, k ∈ set_order X ↔ k ∈ X.
Variable edges : list edge.

Local Abbreviation adj := (upstream edges).

Lemma trace_visit_total (L : Z) (p : string) (D : gmap string Z) (T : gmap string bool)
    (acc : list string) :
  unless_raised (trace_visit edges true L p (Search D T, acc))
    (λ r, is_Some (D !! p) ∧
          (∀ k, is_Some (dist_dict r.1 !! k) ↔ is_Some (D !! k)) ∧
          node_touched r.1 = <[p := true]> T ∧
          (∀ q, adj (lower p) q → is_Some (<[p := true]> T !! q)) ∧
          ∃ new, r.2 = acc ++ new ∧
                 ∀ q, q ∈ new ↔ adj (lower p) q ∧ <[p := true]> T !! q = Some false).
Proof.
  unfold trace_visit, getitem. cbn [dist_dict node_touched].
  destruct (D !! p) as [d|] eqn:Hd; [| exact I].
  cbn [mbind outcome_bind bind].
  destruct (decide (edges = [])) as [He | He].
  { unfold get_direct_links_to_any_package. rewrite He. exact I. }
  rewrite (direct_links edges p He). cbn [mbind outcome_bind bind].
  eapply unless_raised_bind; [apply untouched_total |]. intros az [Haz Hazspec].
  simpl. split; [eauto |]. split; [| split; [done | split]].
  - intros k. destruct (_ >? _); [| done].
    destruct (decide (k = p)) as [-> | Hne];
      [rewrite lookup_insert_eq; split; eauto | by rewrite lookup_insert_ne].
  - intros q (nx & Hu & Ht & Hh). rewrite <- Hh. apply Haz.
    by apply list_elem_of_filter.
  - exists az. split; [done |]. intros q. rewrite Hazspec. split.
    + intros (nx & [Ht Hu]%list_elem_of_filter & Hh & Hq). split; [| done]. by exists nx.
    + intros [(nx & Hu & Ht & Hh) Hq].
      exists nx. split; [by apply list_elem_of_filter | done].
Qed.

Lemma trace_sweep_total (L : Z) (Q : list string) :
  ∀ (s : search) (acc : list string),
    (∀ k, is_Some (dist_dict s !! k) → is_Some (node_touched s !! k)) →
    unless_raised (trace_sweep edges true L Q (s, acc))
                  (trace_swept edges Q s acc).
Proof.
  induction Q as [|p Q IH]; intros s acc Hdom.
  - simpl. unfold trace_swept. simpl.
    split; [done |]. split; [done |]. split; [done |]. split; [by left |].
    split; [by intros p ?%elem_of_nil |]. split; [by intros p q ?%elem_of_nil |].
    split; [by left | done].
  - cbn [trace_sweep]. destruct s as [D T]. simpl in Hdom.
    eapply unless_raised_bind; [apply trace_visit_total |].
    intros [[D1 T1] acc1] (HDp & HD1 & HT1 & Hnb & new & Hacc1 & Hnew).
    simpl in HD1, HT1, Hacc1. subst T1 acc1.
    destruct (Hdom p HDp) as [bp HTp].
    assert (Hdom1 : ∀ k, is_Some (D1 !! k) → is_Some (<[p := true]> T !! k)).
    { intros k Hk%HD1%Hdom. destruct (decide (k = p)) as [-> | Hne];
        [rewrite lookup_insert_eq | rewrite lookup_insert_ne by done]; eauto. }
    eapply unless_raised_weaken;
      [apply (IH (Search D1 (<[p := true]> T)) (acc ++ new) Hdom1) |].
    intros [[D2 T2] acc2] (Hd & Hmono & Hup & Hback & Hvis & Hcomp & Hsrc & Hkeep).
    unfold trace_swept in *. simpl in *.
    assert (HT2p : T2 !! p = Some true) by (apply Hup; by rewrite lookup_insert_eq).
    split; [exact Hd |]. split; [| split; [| split; [| split; [| split; [| split]]]]].
    + intros k Hk%Hmono. destruct (decide (k = p)) as [-> | Hne];
        [by rewrite lookup_insert_eq in Hk | by rewrite lookup_insert_ne in Hk].
    + intros k Hk. apply Hup. destruct (decide (k = p)) as [-> | Hne];
        [by rewrite lookup_insert_eq | by rewrite lookup_insert_ne].
    + intros k Hk. destruct (decide (k = p)) as [-> | Hne]; [right; left |].
      destruct (Hback k Hk) as [Hk' | ?]; [| right; by right].
      left. by rewrite lookup_insert_ne in Hk'.
    + intros p' [-> | Hin]%elem_of_cons; [eauto |].
      destruct (Hvis _ Hin) as [Hs Ht]. split; [| done].
      destruct (decide (p' = p)) as [-> | Hne]; [eauto |].
      by rewrite lookup_insert_ne in Hs.
    + intros p' q [-> | Hin]%elem_of_cons Hadj; [| by eapply Hcomp].
      destruct (Hnb q Hadj) as [[] Hb].
      * left. by apply Hup.
      * right. apply Hkeep. apply elem_of_app. right. by apply Hnew.
    + intros q Hq. destruct (Hsrc q Hq) as [[Hin | Hin]%elem_of_app | [Hf (p' & Hp' & Hadj)]].
      * by left.
      * right. apply Hnew in Hin as [Hadj Hf]. split.
        -- destruct (decide (q = p)) as [-> | Hne];
             [by rewrite lookup_insert_eq in Hf | by rewrite lookup_insert_ne in Hf].
        -- exists p. split; [left | done].
      * right. split.
        -- destruct (decide (q = p)) as [-> | Hne];
             [by rewrite lookup_insert_eq in Hf | by rewrite lookup_insert_ne in Hf].
        -- exists p'. split; [by right | done].
    + intros q Hq. apply Hkeep. apply elem_of_app. by left.
Qed.

(** With more fuel than untouched keys, the tracer's [rec_fun] never
    runs out of it. *)
Lemma trace_rec_fun_total (fuel : nat) :
  ∀ (L : Z) (S0 : list string) (s : search),
    trace_entry_inv edges S0 s →
    (untouched_count (node_touched s) < fuel)%nat →
    trace_rec_fun set_order edges true fuel S0 L s ≠ OutOfFuel.
Proof.
  induction fuel as [|fuel IH]; intros L S0 s [Hdom Hentry] Hfuel; [lia |].
  cbn [trace_rec_fun]. pose proof (trace_sweep_total L S0 s [] Hdom) as Hsweep.
  destruct (trace_sweep edges true L S0 (s, [])) as [[s' acc'] | e |]; [| done | done].
  destruct Hsweep as (Hd & Hmono & Hup & Hback & Hvis & Hcomp & Hsrc & _). simpl in *.
  cbn [mbind outcome_bind bind].
  assert (Hnext : ∀ q, q ∈ set_order (list_to_set acc') ↔ q ∈ acc').
  { intros q. by rewrite set_order_enumerates, elem_of_list_to_set. }
  destruct (set_order (list_to_set acc')) as [|q0 next] eqn:Enext; [done |].
  apply IH.
  - split; [exact Hd |]. intros p Hp%Hnext Htp q Hadj.
    destruct (Hsrc p Hp) as [?%elem_of_nil | [Hfp _]]; [done |].
    destruct (Hback p Htp) as [? | HpS]; [congruence |].
    destruct (Hcomp p q HpS Hadj) as [? | Hq]; [by left |]. right. by apply Hnext.
  - assert (∃ p, node_touched s !! p = Some false ∧ node_touched s' !! p = Some true)
      as (p & Hf & Ht).
    { assert (Hq0 : q0 ∈ acc') by (apply Hnext; left).
      destruct (Hsrc q0 Hq0) as [?%elem_of_nil | [Hfq (p & Hp & Hadj)]]; [done |].
      destruct (Hvis p Hp) as [[[] Hbp] Htp]; [| eauto].
      destruct (Hentry p Hp Hbp q0 Hadj) as [? | Hin]; [congruence |].
      exists q0. split; [done |]. by apply Hvis. }
    pose proof (untouched_count_decreases (node_touched s) (node_touched s') p Hmono Hf)
      as Hdec.
    rewrite Ht in Hdec. specialize (Hdec ltac:(done)). lia.
Qed.

End TraceBudget.


Lemma ancestor_trace_spec (set_order : gset string → list string)
    (self : Package.t) (venv : Environment.t) (keep do_full_calc : bool) :
  (∀ (X : gset string) k, k ∈ set_order X ↔ k ∈ X) →
  Environment.edges venv ≠ [] →
  drawn_from_nodes (Environment.nodes venv) (Environment.edges venv) true →
  known (Environment.nodes venv) true (key self) →
  _ancestor_trace self = ∅ ∨ do_full_calc = true →
  ∃ s r,
    ancestor_trace set_order self venv keep do_full_calc
      = Return (set_ancestor_trace self r, r) ∧
    trace_settled (Environment.nodes venv) (Environment.edges venv) (key self) s ∧
    ∀ x d, r !! x = Some d ↔
           dist_dict s !! lower x.1 = Some d ∧
           ((x ∈ Environment.nodes venv ∧ (keep = true ∨ d > start_distance)) ∨
            x = root_node).
Proof.
  intros Henum Hne Hdrawn Hknown Hfresh.
  destruct (trace_settles set_order Henum (Environment.nodes venv) (Environment.edges venv)
              Hne Hdrawn (key self) Hknown) as (s & Hrun & Hsettled).
  destruct (triples_spec (dist_dict s) keep (Environment.nodes venv)) as (l & Hl & Hlspec).
  { intros x Hx. destruct (Hsettled (lower x.1)) as (b & d & _ & HD & _);
      [by apply known_node | eauto]. }
  destruct (Hsettled "root") as (b & r & _ & HDr & _); [apply known_root |].
  set (l' := l ++ [("root", "0.0.0", r)]).
  exists s, (dict_of l'). split.
  - unfold ancestor_trace.
    replace (negb (bool_decide (_ancestor_trace self = ∅)) && negb do_full_calc) with false.
    2:{ destruct Hfresh as [-> | ->]; [by rewrite bool_decide_eq_true_2 |].
        by rewrite andb_false_r. }
    rewrite Hrun. cbn [mbind outcome_bind bind]. rewrite Hl. cbn [mbind outcome_bind bind].
    unfold getitem. rewrite HDr. cbn [mbind outcome_bind bind].
    subst l'. by rewrite dict_of_snoc.
  - split; [done |]. intros x d.
    assert (Hl' : ∀ e, e ∈ l' → dist_dict s !! lower e.1.1 = Some e.2).
    { intros [y e] [Hin | ->%list_elem_of_singleton]%elem_of_app; [| exact HDr].
      by apply Hlspec in Hin as (_ & ? & _). }
    transitivity ((x, d) ∈ l').
    + apply (distance_of_entries (dist_dict s) l' (AsDict (dict_of l')) x d Hl'). by right.
    + subst l'. rewrite elem_of_app, Hlspec, list_elem_of_singleton. split.
      * intros [(? & ? & ?) | [= -> ->]]; [split; [done | by left] |].
        split; [exact HDr | by right].
      * intros [HD [[? ?] | ->]]; [by left |]. right.
        change (lower root_node.1) with "root" in HD. rewrite HDr in HD. by injection HD as ->.
Qed.

(** For a package without a cached trace (or when the computation is
    forced), on a non-empty edge collection whose edges join keys of the
    distance dict and with the package's key among them, the trace
    returns and is stored; every node with the package's key gets 0;
    every node reached by ancestor hops alone has a minimum number of
    such hops, which is its distance when below 999; with
    [keep_untouched_nodes] every node not so reached is listed with
    -999; the root entry is always present. *)
Theorem lineage_distances_are_minimum_climbs (set_order : gset string → list string)
    (self : Package.t) (venv : Environment.t) (keep do_full_calc : bool) :
  (∀ (X : gset string) k, k ∈ set_order X ↔ k ∈ X) →
  Environment.edges venv ≠ [] →
  drawn_from_nodes (Environment.nodes venv) (Environment.edges venv) true →
  known (Environment.nodes venv) true (key self) →
  _ancestor_trace self = ∅ ∨ do_full_calc = true →
  ∃ r,
    ancestor_trace set_order self venv keep do_full_calc
      = Return (set_ancestor_trace self r, r) ∧
    (∀ x, x ∈ Environment.nodes venv → lower x.1 = key self → r !! x = Some 0) ∧
    (∀ x, x ∈ Environment.nodes venv →
          (∃ n, climbs (Environment.edges venv) (key self) n (lower x.1)) →
          ∃ m, min_climb (Environment.edges venv) (key self) m (lower x.1) ∧
               ((m < 999)%nat → r !! x = Some (Z.of_nat m))) ∧
    (keep = true →
     ∀ x, x ∈ Environment.nodes venv →
          ¬ (∃ n, climbs (Environment.edges venv) (key self) n (lower x.1)) →
          r !! x = Some start_distance) ∧
    is_Some (r !! root_node).
Proof.
  intros Henum Hne Hdrawn Hknown Hfresh.
  destruct (ancestor_trace_spec set_order self venv keep do_full_calc
              Henum Hne Hdrawn Hknown Hfresh) as (s & r & Hrun & Hsettled & Hread).
  exists r. split; [exact Hrun |].
  assert (Hconn : ∀ x, x ∈ Environment.nodes venv →
            (∃ n, climbs (Environment.edges venv) (key self) n (lower x.1)) →
            ∃ m, min_climb (Environment.edges venv) (key self) m (lower x.1) ∧
                 ((m < 999)%nat → r !! x = Some (Z.of_nat m))).
  { intros x Hx Hc.
    destruct (Hsettled (lower x.1)) as (b & d & _ & HD & Hb & _ & Ht); [by apply known_node |].
    destruct Ht as (m & Hmin & ->); [by apply Hb |].
    exists m. split; [done |]. intros Hm. apply Hread.
    unfold recorded in HD. rewrite (proj2 (Nat.ltb_lt m 999) Hm) in HD.
    split; [done |]. left. split; [done |]. right. unfold start_distance. lia. }
  split; [| split; [exact Hconn | split]].
  - intros x Hx Hkey.
    destruct (Hconn x Hx) as (m & [Hw Hmin] & Hm).
    { rewrite Hkey. exists 0%nat. constructor. }
    assert (m = 0%nat) as ->.
    { rewrite Hkey in Hmin. specialize (Hmin 0%nat (climbs_here _ _)). lia. }
    apply Hm. lia.
  - intros -> x Hx Hnc.
    destruct (Hsettled (lower x.1)) as (b & d & _ & HD & Hb & Hf & _); [by apply known_node |].
    destruct b; [exfalso; by apply Hnc, Hb |].
    apply Hread. rewrite Hf in HD by done. split; [done |]. left. split; [done | by left].
  - destruct (Hsettled "root") as (b & d & _ & HD & _); [apply known_root |].
    exists d. apply Hread. split; [exact HD | by right].
Qed.

Lemma lineage_distances_witness :
  ∃ r, ancestor_trace elements (init "B" None)
         (Environment.mk Examples.chain_nodes Examples.chain_edges) false false
       = Return (set_ancestor_trace (init "B" None) r, r) ∧
       r !! ("B", "2") = Some 0.
Proof.
  destruct (lineage_distances_are_minimum_climbs elements (init "B" None)
              (Environment.mk Examples.chain_nodes Examples.chain_edges) false false)
    as (r & Hr & H0 & _).
  - intros X k. apply elem_of_elements.
  - discriminate.
  - apply (chain_drawn_from_nodes true).
  - unfold known. vm_compute. eauto.
  - by left.
  - exists r. split; [exact Hr |]. apply H0; [right; left | reflexivity].
Defined.



(** A package whose key is not a key of the distance dict makes the
    tracer raise [KeyError], where the distance engine, asked about the
    same package, returns an empty result. *)
Theorem lineage_of_unknown_package_raises (set_order : gset string → list string)
    (self : Package.t) (venv : Environment.t) (keep do_full_calc keep' : bool)
    (list_or_dict : string) :
  key self = lower (name self) →
  ¬ known (Environment.nodes venv) true (key self) →
  _ancestor_trace self = ∅ ∨ do_full_calc = true →
  ancestor_trace set_order self venv keep do_full_calc = Raise (KeyError (key self)) ∧
  calc_node_distances set_order (name self) (Environment.nodes venv) (Environment.edges venv)
    true keep' list_or_dict
  = Return (if decide (list_or_dict = "list") then AsList [] else AsDict ∅).
Proof.
  intros Hkey Hunknown Hfresh.
  assert (Hnone : fresh_dict start_distance (Environment.nodes venv) true !! key self = None).
  { destruct (_ !! key self) eqn:E; [| done]. exfalso. apply Hunknown. by eexists. }
  split.
  - unfold ancestor_trace.
    replace (negb (bool_decide (_ancestor_trace self = ∅)) && negb do_full_calc) with false.
    2:{ destruct Hfresh as [-> | ->]; [by rewrite bool_decide_eq_true_2 |].
        by rewrite andb_false_r. }
    cbn [trace_rec_fun trace_sweep]. unfold trace_visit, getitem. cbn [dist_dict].
    by rewrite Hnone.
  - unfold calc_node_distances. rewrite <- Hkey. by rewrite decide_True.
Qed.

Lemma lineage_of_unknown_package_witness :
  ancestor_trace elements (init "Django" None)
    (Environment.mk Examples.chain_nodes Examples.chain_edges) false false
  = Raise (KeyError "django").
Proof.
  apply (lineage_of_unknown_package_raises elements (init "Django" None)
           (Environment.mk Examples.chain_nodes Examples.chain_edges) false false false "dict").
  - reflexivity.
  - unfold known. vm_compute. intros [? ?]. discriminate.
  - by left.
Defined.

(** A trace, once returned, is never computed again unless forced: it
    always holds the root entry, so it counts as present, and every later
    call returns it whatever environment and flag it is given. *)
Theorem lineage_is_computed_once (set_order : gset string → list string)
    (self self1 : Package.t) (venv venv' : Environment.t) (keep keep' do_full_calc : bool)
    (r : gmap (string * string) Z) :
  ancestor_trace set_order self venv keep do_full_calc = Return (self1, r) →
  r ≠ ∅ ∧ ancestor_trace set_order self1 venv' keep' false = Return (self1, r).
Proof.
  unfold ancestor_trace at 1.
  destruct (negb (bool_decide (_ancestor_trace self = ∅)) && negb do_full_calc) eqn:Hhit.
  - intros [= <- <-]. apply andb_true_iff in Hhit as [Hne _].
    apply negb_true_iff, bool_decide_eq_false in Hne. split; [done |].
    unfold ancestor_trace. rewrite bool_decide_eq_false_2 by done. reflexivity.
  - destruct (trace_rec_fun _ _ _ _ _ _ _) as [s | |]; [| done | done].
    cbn [mbind outcome_bind bind].
    destruct (triples _ _ _) as [l | |]; [| done | done]. cbn [mbind outcome_bind bind].
    unfold getitem. destruct (dist_dict s !! "root") as [d|]; [| done].
    cbn [mbind outcome_bind bind]. intros [= <- <-].
    assert (Hne : <[("root", "0.0.0") := d]> (dict_of l) ≠ (∅ : gmap (string * string) Z))
      by apply insert_non_empty.
    split; [done |]. unfold ancestor_trace. cbn [_ancestor_trace set_ancestor_trace].
    rewrite bool_decide_eq_false_2 by done. reflexivity.
Qed.

Lemma lineage_is_computed_once_witness :
  ∃ self1 r,
    ancestor_trace elements (init "B" None)
      (Environment.mk Examples.chain_nodes Examples.chain_edges) false false
    = Return (self1, r) ∧
    ancestor_trace elements self1 (Environment.mk [] []) true false = Return (self1, r).
Proof.
  destruct (ancestor_trace elements (init "B" None)
              (Environment.mk Examples.chain_nodes Examples.chain_edges) false false)
    as [[self1 r] | |] eqn:E; [| vm_compute in E; discriminate | vm_compute in E; discriminate].
  exists self1, r. split; [reflexivity |].
  apply (lineage_is_computed_once elements (init "B" None) self1
           (Environment.mk Examples.chain_nodes Examples.chain_edges) (Environment.mk [] [])
           false true false r E).
Defined.

(** Whatever the input, [ancestor_trace] returns or raises: the depth
    allowed to its [rec_fun] is never exhausted. *)
Theorem ancestor_trace_total (set_order : gset string → list string)
    (self : Package.t) (venv : Environment.t) (keep do_full_calc : bool) :
  (∀ (X : gset string) k, k ∈ set_order X ↔ k ∈ X) →
  ancestor_trace set_order self venv keep do_full_calc ≠ OutOfFuel.
Proof.
  intros Henum. unfold ancestor_trace.
  destruct (_ && _); [done |].
  pose proof (trace_rec_fun_total set_order Henum (Environment.edges venv)
                (S (size (fresh_dict start_distance (Environment.nodes venv) true))) 0
                [key self]
                (Search (fresh_dict start_distance (Environment.nodes venv) true)
                        (fresh_dict false (Environment.nodes venv) true))) as Htotal.
  destruct (trace_rec_fun _ _ _ _ _ _ _) as [s | e |]; [| done |].
  - cbn [mbind outcome_bind bind].
    pose proof (triples_total (dist_dict s) keep (Environment.nodes venv)) as Htr.
    destruct (triples _ _ _) as [l | e |]; [| done | done].
    cbn [mbind outcome_bind bind]. unfold getitem.
    destruct (dist_dict s !! "root"); done.
  - exfalso. apply Htotal; [| | done].
    + split; cbn [dist_dict node_touched].
      * intros k Hk. erewrite fresh_dict_is_Some; eauto.
      * intros p _ Hp. by apply fresh_dict_value in Hp.
    + cbn [node_touched]. unfold untouched_count.
      pose proof (map_size_filter (λ kv : string * bool, kv.2 = false)
                    (fresh_dict false (Environment.nodes venv) true)) as Hle.
      rewrite (fresh_dict_size start_distance false). lia.
Qed.

Lemma ancestor_trace_total_witness :
  ancestor_trace elements (init "B" None)
    (Environment.mk Examples.chain_nodes Examples.chain_edges) false false ≠ OutOfFuel.
Proof.
  apply (ancestor_trace_total elements (init "B" None)
           (Environment.mk Examples.chain_nodes Examples.chain_edges) false false).
  intros X k. apply elem_of_elements.
Defined.

(** In an environment without edges both computations raise
    [InvalidEdges] for a package the distance dict knows: the guard of
    the direct-link lookup is met on the first visit. *)
Theorem environment_without_edges_raises (set_order : gset string → list string)
    (self : Package.t) (venv : Environment.t) (keep do_full_calc keep' : bool)
    (list_or_dict : string) :
  Environment.edges venv = [] →
  key self = lower (name self) →
  known (Environment.nodes venv) true (key self) →
  _ancestor_trace self = ∅ ∨ do_full_calc = true →
  ancestor_trace set_order self venv keep do_full_calc = Raise InvalidEdges ∧
  calc_node_distances set_order (name self) (Environment.nodes venv) (Environment.edges venv)
    true keep' list_or_dict = Raise InvalidEdges.
Proof.
  intros Hedges Hkey Hknown Hfresh. rewrite Hedges. split.
  - unfold ancestor_trace.
    replace (negb (bool_decide (_ancestor_trace self = ∅)) && negb do_full_calc) with false.
    2:{ destruct Hfresh as [-> | ->]; [by rewrite bool_decide_eq_true_2 |].
        by rewrite andb_false_r. }
    rewrite Hedges. cbn [trace_rec_fun trace_sweep]. unfold trace_visit, getitem.
    cbn [dist_dict node_touched].
    destruct Hknown as [d Hd]. rewrite Hd. cbn [mbind outcome_bind bind].
    reflexivity.
  - apply calc_without_edges. by rewrite <- Hkey.
Qed.

Lemma environment_without_edges_witness :
  ancestor_trace elements (init "B" None) (Environment.mk Examples.chain_nodes []) false false
    = Raise InvalidEdges ∧
  calc_node_distances elements "B" Examples.chain_nodes [] true false "list"
    = Raise InvalidEdges.
Proof.
  apply (environment_without_edges_raises elements (init "B" None)
           (Environment.mk Examples.chain_nodes []) false false false "list").
  - reflexivity.
  - reflexivity.
  - unfold known. vm_compute. eauto.
  - by left.
Defined.

Lemma calc_node_distances_total_witness :
  calc_node_distances elements "B" Examples.chain_nodes Examples.chain_edges false true "list"
    ≠ OutOfFuel.
Proof.
  apply (calc_node_distances_total elements "B" Examples.chain_nodes Examples.chain_edges
           false true "list").
  intros X k. apply elem_of_elements.
Defined.

Lemma name_containing_root_witness :
  (("rootpy", "4.0"), ("numpy", "1.9")) ∉ without_root Examples.one_edge.
Proof.
  apply (name_containing_root_is_dropped Examples.one_edge (("rootpy", "4.0"), ("numpy", "1.9"))).
  left. vm_compute. reflexivity.
Defined.

(** ** The report on a dict of packages *)

Lemma same_major_minor_outcomes (major_v minor_v : string) (versions : list string) :
  (∃ l, Versions.same_major_minor major_v minor_v versions = Return l) ∨
  Versions.same_major_minor major_v minor_v versions = Raise IndexError.
Proof.
  induction versions as [|x versions IH]; [left; by eexists |].
  cbn [Versions.same_major_minor]. unfold index.
  destruct (split_dot x !! 0%nat) as [a|]; [| by right]. cbn [mbind outcome_bind bind].
  destruct (decide (a = major_v)).
  - destruct (split_dot x !! 1%nat) as [b|]; [| by right]. cbn [mbind outcome_bind bind].
    destruct IH as [[l ->] | ->]; [left; by eexists | by right].
  - cbn [mbind outcome_bind bind].
    destruct IH as [[l ->] | ->]; [left; by eexists | by right].
Qed.

Section PackageReportFacts.

Import Versions.

Variable release_ids : string → option (list string).
Variable loose_sort : list string → list string.
Variable version_gt version_lt : string → string → bool.
Variable dict_order : gset string → list string.
Hypothesis dict_order_enumerates : ∀ (X : gset string) k, k ∈ dict_order X ↔ k ∈ X.

Let check := check_versions release_ids loose_sort version_gt version_lt.
Let report := report_packages release_ids loose_sort version_gt version_lt.
Let heading (p : Package.t) : string :=
  "Analysing " +:+ Package.name p +:+ " " +:+ format (Package.version p).

Lemma check_versions_outcomes (p : Package.t) :
  (∃ r, check p = Return r) ∨ check p = Raise IndexError.
Proof.
  unfold check, check_versions, check_latest_major_minor_versions.
  destruct (get_package_versions_from_pypi _ _ _) as [versions|]; [| left; by eexists].
  unfold index_last. destruct (last versions) as [latest_version|]; [| by right].
  cbn [mbind outcome_bind bind].
  destruct (Package.version p) as [version|]; [| left; by eexists].
  destruct (version_gt version latest_version); [left; by eexists |].
  destruct (version_lt version latest_version); [| left; by eexists].
  unfold index. destruct (split_dot version !! 0%nat) as [major_v|]; [| by right].
  cbn [mbind outcome_bind bind].
  destruct (split_dot version !! 1%nat) as [minor_v|]; [| by right].
  cbn [mbind outcome_bind bind].
  destruct (same_major_minor_outcomes major_v minor_v versions) as [[l ->] | ->]; [| by right].
  cbn [mbind outcome_bind bind]. destruct (last l); left; by eexists.
Qed.

Lemma report_packages_all (l : list Package.t) :
  (∀ p, p ∈ l → ∃ r, check p = Return r) →
  (report l).2 = Return () ∧ ∀ p, p ∈ l → heading p ∈ (report l).1.
Proof.
  induction l as [|p l IH]; intros Hall.
  - split; [done |]. intros p Hp. by apply elem_of_nil in Hp.
  - destruct (Hall p) as [r Hr]; [left |].
    destruct IH as [IH1 IH2]; [intros q Hq; apply Hall; by right |].
    unfold report in *. cbn [report_packages]. unfold check in Hr. rewrite Hr.
    destruct (report_packages _ _ _ _ l) as [more r']. cbn [fst snd] in *.
    split; [done |]. intros q [-> | Hq]%elem_of_cons.
    + apply elem_of_app. left. unfold detail_version_info. apply elem_of_app. left. left.
    + apply elem_of_app. right. by apply IH2.
Qed.

Lemma report_packages_raises (l : list Package.t) (p : Package.t) :
  p ∈ l → check p = Raise IndexError → (report l).2 = Raise IndexError.
Proof.
  induction l as [|q l IH]; intros Hin Hp; [by apply elem_of_nil in Hin |].
  unfold report in *. cbn [report_packages].
  destruct (check_versions_outcomes q) as [[r Hr] | Hr]; unfold check in Hr; rewrite Hr;
    [| done].
  apply elem_of_cons in Hin as [-> | Hin]; [unfold check in Hp; congruence |].
  specialize (IH Hin Hp).
  destruct (report_packages _ _ _ _ l) as [more r']. exact IH.
Qed.

Lemma listed_packages (package_list : gmap string Package.t) (p : Package.t) :
  p ∈ omap (λ k, package_list !! k) (dict_order (dom package_list)) ↔
  ∃ k, package_list !! k = Some p.
Proof.
  rewrite list_elem_of_omap. split.
  - intros (k & _ & Hk). by exists k.
  - intros (k & Hk). exists k. split; [| done].
    apply dict_order_enumerates, elem_of_dom. by eexists.
Qed.

(** When the classifier returns for every package of the dict, the loop
    runs to its end and prints, for every package, its heading with the
    package's own name and version; when it raises for one of them, the
    loop ends with that [IndexError]. *)
Theorem every_package_is_reported_unless_one_raises (package_list : gmap string Package.t) :
  ((∀ k p, package_list !! k = Some p → ∃ r, check p = Return r) →
   (check_outdated_packages release_ids loose_sort version_gt version_lt
      dict_order package_list).2 = Return () ∧
   ∀ k p, package_list !! k = Some p →
     heading p ∈ (check_outdated_packages release_ids loose_sort version_gt version_lt
                    dict_order package_list).1) ∧
  (∀ k p, package_list !! k = Some p → check p = Raise IndexError →
   (check_outdated_packages release_ids loose_sort version_gt version_lt
      dict_order package_list).2 = Raise IndexError).
Proof.
  unfold check_outdated_packages. split.
  - intros Hall.
    destruct (report_packages_all
                (omap (λ k, package_list !! k) (dict_order (dom package_list)))) as [H1 H2].
    { intros p [k Hk]%listed_packages. by apply (Hall k). }
    split; [exact H1 |]. intros k p Hk. apply H2, listed_packages. by exists k.
  - intros k p Hk Hp. apply (report_packages_raises _ p); [| done].
    apply listed_packages. by exists k.
Qed.

End PackageReportFacts.

Lemma every_package_witness :
  (Versions.check_outdated_packages Examples.pkg_index Versions.lenient_sort
     Versions.lenient_gt Versions.lenient_lt elements
     {[ "pkg" := Package.init "pkg" (Some "1") ]}).2 = Raise IndexError.
Proof.
  destruct (every_package_is_reported_unless_one_raises Examples.pkg_index Versions.lenient_sort
              Versions.lenient_gt Versions.lenient_lt elements
              (λ X k, elem_of_elements X k)
              {[ "pkg" := Package.init "pkg" (Some "1") ]}) as [_ Hraise].
  apply (Hraise "pkg" (Package.init "pkg" (Some "1"))).
  - reflexivity.
  - vm_compute. reflexivity.
Defined.
